(** * Multilayer SIR simulation engine (src/simulation.ts)

    A shallow embedding of the network generators, the seeding routine and
    the step engine of [simulation.ts], and the properties of the engine
    that the design document states.

    Modelling conventions.
    - JavaScript numbers that the code uses as array indices, ids and sizes
      ([numAgents], agent and layer ids, edge endpoints) are [nat]; numbers
      on which the code does signed arithmetic ([iter], [frequency],
      [count], the lattice degree [k], the attachment count [m]) are [Z];
      real-valued numbers ([connectivity], [weight], [spreadRate],
      [recoveryRate], the draws) are exact rationals [Q].  Rounding of
      IEEE doubles is not modelled.
    - [Math.random()] reads the next element of a stream of draws; the
      position in the stream is the only global state.
    - An agent object is identified with its position in
      [network.agents]; writing a field of the object is an update of the
      list at that position.
    - A thrown [TypeError] is the result [None] of a step computation; the
      mutations done before the throw stay in the state.
    - The [while] loop of [seedInfected] has no bound; its model takes a
      number of iterations [fuel] and returns [None] when they do not
      suffice.  All other loops are bounded in the source. *)

From Stdlib Require Import ZArith QArith Qround Lia Lqa List.
From stdpp Require Import base tactics option list relations.

Local Open Scope nat_scope.

(* ===================================================================== *)
(** ** The random source *)

(** One result of [Math.random()]: a number in [0, 1).  The draw
    [mkDraw a b] stands for the rational [a / (a + b + 1)]; every rational
    of [0, 1) has this form, so every double that [Math.random()] can
    return is a draw. *)
Record Draw := mkDraw { dnum : N; dgap : N }.

Definition draw_val (d : Draw) : Q :=
  Z.of_N (dnum d) # N.succ_pos (dnum d + dgap d).

(** [a < b] on numbers, as a boolean. *)
Definition Qltb (a b : Q) : bool := negb (Qle_bool b a).

(** [Math.floor] and [Math.round] (halves round up). *)
Definition Math_floor (x : Q) : Z := Qfloor x.
Definition Math_round (x : Q) : Z := Qfloor (x + (1 # 2)).

Definition Q_of_nat (n : nat) : Q := inject_Z (Z.of_nat n).

(** A computation that consumes draws: it is run on a stream of draws from
    a position and returns its result and the next position. *)
Definition Rand (A : Type) : Type := (nat -> Draw) -> nat -> A * nat.

Definition rret {A} (a : A) : Rand A := fun _ p => (a, p).

Definition rbind {A B} (m : Rand A) (k : A -> Rand B) : Rand B :=
  fun rnd p => let '(a, p') := m rnd p in k a rnd p'.

Definition Math_random : Rand Q := fun rnd p => (draw_val (rnd p), S p).

Declare Scope rand_scope.
Delimit Scope rand_scope with rand.
Notation "x <- m ;; k" := (rbind m (fun x => k))
  (at level 100, m at next level, right associativity) : rand_scope.

(** A [for] loop over [l] whose body updates the loop-carried variables
    [acc]. *)
Fixpoint rfor {A B} (l : list A) (acc : B) (body : B -> A -> Rand B) : Rand B :=
  match l with
  | [] => rret acc
  | x :: l' => rbind (body acc x) (fun acc' => rfor l' acc' body)
  end.

(** The integers [lo, lo+1, ..., hi-1] of [for (let j = lo; j < hi; j++)]. *)
Definition range (lo hi : nat) : list nat := seq lo (hi - lo).

(* ===================================================================== *)
(** ** Data model *)

(** ['S' | 'I' | 'R']; [S] and [I] are taken in Rocq. *)
Inductive AgentState := S_ | I_ | R_.

Inductive TopologyType := random | smallworld | scalefree.

Record SimAgent := mkAgent {
  id : nat;
  state : AgentState;
  infectedByLayer : option nat;
  infectedCount : list nat
}.

Record SimEdge := mkEdge {
  source : nat;
  target : nat;
  weight : Q
}.

Record SimLayer := mkLayer {
  layer_id : nat;
  edges : list SimEdge;
  layer_connectivity : Q;
  frequency : Z
}.

Record SimNetwork := mkNetwork {
  agents : list SimAgent;
  layers : list SimLayer
}.

Record LayerConfig := mkConfig {
  connectivity : Q;
  cfg_frequency : Z;
  topology : TopologyType
}.

Global Instance AgentState_eq_dec : EqDecision AgentState.
Proof. solve_decision. Defined.

(* ===================================================================== *)
(** ** Network construction *)

Local Open Scope rand_scope.

(** [0.3 + Math.random() * 0.7] *)
Definition draw_weight : Rand Q :=
  r <- Math_random ;; rret ((3 # 10) + r * (7 # 10))%Q.

(** [edges.push({source: i, target: j, weight}); edges.push({source: j,
    target: i, weight})] *)
Definition push_pair (es : list SimEdge) (i j : nat) (w : Q) : list SimEdge :=
  es ++ [mkEdge i j w; mkEdge j i w].

Definition buildRandomLayer (numAgents : nat) (connectivity : Q)
  : Rand (list SimEdge) :=
  rfor (range 0 numAgents) [] (fun es i =>
    rfor (range (i + 1) numAgents) es (fun es j =>
      r <- Math_random ;;
      if Qltb r connectivity then
        w <- draw_weight ;; rret (push_pair es i j w)
      else rret es)).

(** A [boolean[][]] matrix; [adj_get] reads [adj[i][j]] (a missing entry
    is [undefined], which the code only tests for truth) and [adj_set]
    writes it.  Every write of the generators is at a position inside the
    matrix. *)
Abbreviation Adj := (list (list bool)).

Definition adj_new (numAgents : nat) : Adj :=
  replicate numAgents (replicate numAgents false).

Definition adj_get (adj : Adj) (i j : nat) : bool :=
  match adj !! i with
  | Some row => default false (row !! j)
  | None => false
  end.

Definition adj_set (i j : nat) (b : bool) (adj : Adj) : Adj :=
  alter (fun row => <[j := b]> row) i adj.

(** [adj[i][j] = b; adj[j][i] = b] *)
Definition adj_set2 (i j : nat) (b : bool) (adj : Adj) : Adj :=
  adj_set j i b (adj_set i j b adj).

(** The output loop shared (textually repeated) by the small-world and the
    scale-free generator: one matched pair per [i < j] with [adj[i][j]]. *)
Definition edgesOfAdj (numAgents : nat) (adj : Adj) : Rand (list SimEdge) :=
  rfor (range 0 numAgents) [] (fun es i =>
    rfor (range (i + 1) numAgents) es (fun es j =>
      if adj_get adj i j then
        w <- draw_weight ;; rret (push_pair es i j w)
      else rret es)).

(** [Math.floor(Math.random() * numAgents)] *)
Definition random_index (numAgents : nat) : Rand nat :=
  r <- Math_random ;; rret (Z.to_nat (Math_floor (r * Q_of_nat numAgents))).

(** The values of [m] in [for (let m = 1; m <= k / 2; m++)]. *)
Definition half_range (k : Z) : list nat := seq 1 (Z.to_nat (k / 2)).

(** The retry loop of the rewiring step,
    [while ((newJ === i || adj[i][newJ]) && attempts < numAgents)];
    [left] is [numAgents - attempts]. *)
Fixpoint pick_target (left numAgents : nat) (adj : Adj) (i newJ : nat)
  : Rand nat :=
  if bool_decide (newJ = i) || adj_get adj i newJ then
    match left with
    | O => rret newJ
    | S left' =>
        newJ' <- random_index numAgents ;;
        pick_target left' numAgents adj i newJ'
    end
  else rret newJ.

Definition smallworld_k (numAgents : nat) (connectivity : Q) : Z :=
  let k := Z.max 2 (Math_round (connectivity * Q_of_nat numAgents * (1 # 2)) * 2) in
  Z.min k (Z.of_nat numAgents - 1).

Definition ring_lattice (numAgents : nat) (k : Z) : Adj :=
  foldl (fun adj i =>
    foldl (fun adj m =>
      let j := (i + m) mod numAgents in
      adj_set2 i j true adj) adj (half_range k))
    (adj_new numAgents) (range 0 numAgents).

Definition beta : Q := 1 # 10.

Definition rewire (numAgents : nat) (k : Z) (adj : Adj) : Rand Adj :=
  rfor (range 0 numAgents) adj (fun adj i =>
    rfor (half_range k) adj (fun adj m =>
      let j := (i + m) mod numAgents in
      r <- Math_random ;;
      if Qltb r beta then
        let adj := adj_set2 i j false adj in
        newJ <- random_index numAgents ;;
        newJ <- pick_target numAgents numAgents adj i newJ ;;
        if negb (bool_decide (newJ = i)) && negb (adj_get adj i newJ) then
          rret (adj_set2 i newJ true adj)
        else rret adj
      else rret adj)).

Definition buildSmallWorldLayer (numAgents : nat) (connectivity : Q)
  : Rand (list SimEdge) :=
  let k := smallworld_k numAgents connectivity in
  let adj := ring_lattice numAgents k in
  adj <- rewire numAgents k adj ;;
  edgesOfAdj numAgents adj.

(** [degrees[i]] and [degrees[i]++] on the degree array. *)
Definition deg_get (degrees : list nat) (i : nat) : nat := default 0 (degrees !! i).
Definition deg_incr (i : nat) (degrees : list nat) : list nat := alter S i degrees.

Definition scalefree_m (connectivity : Q) : Z :=
  Z.max 1 (Math_round (connectivity * (3 # 1))).

Definition scalefree_initNodes (numAgents : nat) (m : Z) : nat :=
  Z.to_nat (Z.min (m + 1) (Z.of_nat numAgents)).

(** The start clique on the first [initNodes] nodes. *)
Definition clique (initNodes : nat) (st : Adj * list nat) : Adj * list nat :=
  foldl (fun st i =>
    foldl (fun '(adj, degrees) j =>
      (adj_set2 i j true adj, deg_incr j (deg_incr i degrees)))
      st (range (i + 1) initNodes))
    st (range 0 initNodes).

(** The scan [for (let j = 0; j < i; j++)] of one attachment attempt: the
    first [j] with [rand <= cumDeg && !adj[i][j]], at which the loop
    breaks. *)
Fixpoint attach_target (js : list nat) (cumDeg : nat) (rand : Q)
    (adj : Adj) (degrees : list nat) (i : nat) : option nat :=
  match js with
  | [] => None
  | j :: js' =>
      let cumDeg := cumDeg + deg_get degrees j in
      if Qle_bool rand (Q_of_nat cumDeg) && negb (adj_get adj i j) then Some j
      else attach_target js' cumDeg rand adj degrees i
  end.

(** The variables carried by the attachment loop of node [i]. *)
Record Attach := mkAttach {
  at_adj : Adj;
  at_degrees : list nat;
  at_totalDeg : nat;
  at_added : Z
}.

(** [while (added < m && attempts < i * 3)]; [left] is
    [i * 3 - attempts]. *)
Fixpoint attach_loop (left : nat) (m : Z) (i : nat) (st : Attach) : Rand Attach :=
  match left with
  | O => rret st
  | S left' =>
      if (at_added st <? m)%Z then
        r <- Math_random ;;
        let rand := (r * Q_of_nat (at_totalDeg st))%Q in
        match attach_target (range 0 i) 0 rand (at_adj st) (at_degrees st) i with
        | Some j =>
            attach_loop left' m i
              (mkAttach (adj_set2 i j true (at_adj st))
                        (deg_incr j (deg_incr i (at_degrees st)))
                        (at_totalDeg st + 2)
                        (at_added st + 1))
        | None => attach_loop left' m i st
        end
      else rret st
  end.

(** [degrees.slice(0, i).reduce((a, b) => a + b, 0) || 1] *)
Definition initial_totalDeg (degrees : list nat) (i : nat) : nat :=
  let s := foldl Nat.add 0 (take i degrees) in
  if Nat.eqb s 0 then 1 else s.

Definition preferential (numAgents initNodes : nat) (m : Z)
    (st : Adj * list nat) : Rand (Adj * list nat) :=
  rfor (range initNodes numAgents) st (fun '(adj, degrees) i =>
    st' <- attach_loop (i * 3) m i
             (mkAttach adj degrees (initial_totalDeg degrees i) 0) ;;
    rret (at_adj st', at_degrees st')).

Definition buildScaleFreeLayer (numAgents : nat) (connectivity : Q)
  : Rand (list SimEdge) :=
  let m := scalefree_m connectivity in
  let adj := adj_new numAgents in
  let degrees := replicate numAgents 0 in
  let initNodes := scalefree_initNodes numAgents m in
  st <- preferential numAgents initNodes m (clique initNodes (adj, degrees)) ;;
  edgesOfAdj numAgents (fst st).

Definition buildLayer (id : nat) (numAgents : nat) (config : LayerConfig)
  : Rand SimLayer :=
  es <- match topology config with
        | smallworld => buildSmallWorldLayer numAgents (connectivity config)
        | scalefree => buildScaleFreeLayer numAgents (connectivity config)
        | random => buildRandomLayer numAgents (connectivity config)
        end ;;
  rret (mkLayer id es (connectivity config) (cfg_frequency config)).

Definition fresh_agent (numLayers : nat) (i : nat) : SimAgent :=
  mkAgent i S_ None (replicate numLayers 0).

(** [layerConfigs.map((cfg, idx) => buildLayer(idx, numAgents, cfg))]:
    the layers are generated one after the other, in the order of the
    configurations. *)
Fixpoint buildLayers (idx : nat) (numAgents : nat) (cfgs : list LayerConfig)
  : Rand (list SimLayer) :=
  match cfgs with
  | [] => rret []
  | cfg :: cfgs' =>
      l <- buildLayer idx numAgents cfg ;;
      ls <- buildLayers (S idx) numAgents cfgs' ;;
      rret (l :: ls)
  end.

Definition buildNetwork (numAgents : nat) (layerConfigs : list LayerConfig)
  : Rand SimNetwork :=
  let agents := map (fresh_agent (length layerConfigs)) (range 0 numAgents) in
  layers <- buildLayers 0 numAgents layerConfigs ;;
  rret (mkNetwork agents layers).

(* ===================================================================== *)
(** ** Initial seeding *)

(** A [Set<number>]: its elements in insertion order, without
    repetition. *)
Abbreviation JSSet := (list nat).

Definition set_add (x : nat) (s : JSSet) : JSSet :=
  if bool_decide (x ∈ s) then s else s ++ [x].

Definition set_state (s : AgentState) (a : SimAgent) : SimAgent :=
  mkAgent (id a) s (infectedByLayer a) (infectedCount a).

Definition reset_agent (numLayers : nat) (a : SimAgent) : SimAgent :=
  mkAgent (id a) S_ None (replicate numLayers 0).

(** [while (chosen.size < safeCount) chosen.add(...)].  The loop has no
    bound in the source: [fuel] bounds the number of iterations of the
    model, and [None] says that it was not enough. *)
Fixpoint choose_seeds (fuel : nat) (n : nat) (safeCount : Z) (chosen : JSSet)
  : Rand (option JSSet) :=
  if (Z.of_nat (length chosen) <? safeCount)%Z then
    match fuel with
    | O => rret None
    | S fuel' =>
        x <- random_index n ;;
        choose_seeds fuel' n safeCount (set_add x chosen)
    end
  else rret (Some chosen).

(** [chosen.forEach(id => { network.agents[id].state = 'I' })]; every
    element of [chosen] is a position of [agents]. *)
Definition mark_seeds (chosen : JSSet) (ags : list SimAgent) : list SimAgent :=
  foldl (fun ags i => alter (set_state I_) i ags) ags chosen.

Definition seedInfected (fuel : nat) (network : SimNetwork) (count : Z)
  : Rand (option SimNetwork) :=
  let ags := map (reset_agent (length (layers network))) (agents network) in
  let n := length ags in
  let safeCount := Z.min count (Z.of_nat n) in
  chosen <- choose_seeds fuel n safeCount [] ;;
  match chosen with
  | Some chosen => rret (Some (mkNetwork (mark_seeds chosen ags) (layers network)))
  | None => rret None
  end.

(* ===================================================================== *)
(** ** Simulation step *)

(** A [Map<number, number>] from neighbor id to weight: its entries in
    insertion order; [set] on a key that is present replaces the value in
    place. *)
Abbreviation NeighborMap := (list (nat * Q)).

Fixpoint map_set (k : nat) (v : Q) (m : NeighborMap) : NeighborMap :=
  match m with
  | [] => [(k, v)]
  | (k', v') :: m' =>
      if bool_decide (k' = k) then (k, v) :: m' else (k', v') :: map_set k v m'
  end.

(** The adjacency lookup of one layer; [adj[edge.source]] is [undefined]
    for a source outside the agent array, and [.set] on it throws. *)
Definition buildAdj (numAgents : nat) (es : list SimEdge)
  : option (list NeighborMap) :=
  foldl (fun adj e =>
    match adj with
    | Some adj =>
        match adj !! source e with
        | Some row => Some (<[source e := map_set (target e) (weight e) row]> adj)
        | None => None
        end
    | None => None
    end) (Some (replicate numAgents [])) es.

(** The state of a step: the agent array, the [activeLayers] set and the
    position in the stream of draws. *)
Record StepSt := mkSt {
  st_agents : list SimAgent;
  st_active : JSSet;
  st_pos : nat
}.

(** A step computation; the result [None] is a thrown [TypeError]. *)
Definition Step (A : Type) : Type := (nat -> Draw) -> StepSt -> StepSt * option A.

Definition sret {A} (a : A) : Step A := fun _ st => (st, Some a).

Definition sthrow {A} : Step A := fun _ st => (st, None).

Definition sbind {A B} (m : Step A) (k : A -> Step B) : Step B :=
  fun rnd st =>
    match m rnd st with
    | (st', Some a) => k a rnd st'
    | (st', None) => (st', None)
    end.

Definition s_random : Step Q :=
  fun rnd st =>
    (mkSt (st_agents st) (st_active st) (S (st_pos st)),
     Some (draw_val (rnd (st_pos st)))).

Definition s_get : Step StepSt := fun _ st => (st, Some st).

Definition s_modify (f : StepSt -> StepSt) : Step unit :=
  fun _ st => (f st, Some tt).

Declare Scope step_scope.
Delimit Scope step_scope with step.
Notation "x <- m ;; k" := (sbind m (fun x => k))
  (at level 100, m at next level, right associativity) : step_scope.

Fixpoint sfor {A} (l : list A) (body : A -> Step unit) : Step unit :=
  match l with
  | [] => sret tt
  | x :: l' => sbind (body x) (fun _ => sfor l' body)
  end.

(** [agents.filter(a => a.state === 'I')]: the agents that are infected,
    each as its position in the array and its [id]. *)
Fixpoint infected_from (pos : nat) (ags : list SimAgent) : list (nat * nat) :=
  match ags with
  | [] => []
  | a :: ags' =>
      if bool_decide (state a = I_) then (pos, id a) :: infected_from (S pos) ags'
      else infected_from (S pos) ags'
  end.

Definition currentlyInfected (ags : list SimAgent) : list (nat * nat) :=
  infected_from 0 ags.

(** [neighbor.state = 'I'; if (neighbor.infectedByLayer === null)
    neighbor.infectedByLayer = layer.id] *)
Definition mark_infected (lid : nat) (a : SimAgent) : SimAgent :=
  mkAgent (id a) I_
    (match infectedByLayer a with None => Some lid | Some l => Some l end)
    (infectedCount a).

(** [if (!c[lid]) c[lid] = 0; c[lid]++].  Past the end of the array the
    write extends it; the holes that JavaScript leaves before the new
    entry are written as [0], which is how this code reads them. *)
Definition count_incr (lid : nat) (c : list nat) : list nat :=
  if bool_decide (lid < length c) then alter S lid c
  else c ++ replicate (lid - length c) 0 ++ [1].

Definition bump (lid : nat) (a : SimAgent) : SimAgent :=
  mkAgent (id a) (state a) (infectedByLayer a) (count_incr lid (infectedCount a)).

Definition infect (lid src neighborId : nat) (st : StepSt) : StepSt :=
  mkSt (alter (bump lid) src (alter (mark_infected lid) neighborId (st_agents st)))
       (set_add lid (st_active st))
       (st_pos st).

Local Open Scope step_scope.

(** The callback of [neighbors.forEach], for the spreading agent at
    position [src]. *)
Definition try_infect (lid : nat) (spreadRate : Q) (src : nat)
    (entry : nat * Q) : Step unit :=
  let '(neighborId, weight) := entry in
  st <- s_get ;;
  match st_agents st !! neighborId with
  | None => sthrow
  | Some neighbor =>
      match state neighbor with
      | S_ =>
          let prob := (spreadRate * weight)%Q in
          r <- s_random ;;
          if Qltb r prob then s_modify (infect lid src neighborId)
          else sret tt
      | _ => sret tt
      end
  end.

(** The pass of one firing layer.  [adj] is [layerAdj[layer.id]]. *)
Definition layer_pass (layerAdj : list (list NeighborMap)) (spreadRate : Q)
    (layer : SimLayer) : Step unit :=
  let adj := layerAdj !! layer_id layer in
  st <- s_get ;;
  sfor (currentlyInfected (st_agents st)) (fun '(src, aid) =>
    match adj ≫= (fun adj => adj !! aid) with
    | None => sthrow
    | Some neighbors => sfor neighbors (try_infect (layer_id layer) spreadRate src)
    end).

(** [(iter - 1) % layer.frequency === 0]; the remainder by [0] is [NaN]. *)
Definition fires (iter : Z) (freq : Z) : bool :=
  if (freq =? 0)%Z then false else (Z.rem (iter - 1) freq =? 0)%Z.

Definition spread_phase (layerAdj : list (list NeighborMap)) (spreadRate : Q)
    (iter : Z) (ls : list SimLayer) : Step unit :=
  sfor ls (fun layer =>
    if fires iter (frequency layer) then layer_pass layerAdj spreadRate layer
    else sret tt).

Local Open Scope rand_scope.

(** The recovery loop over the agent array. *)
Fixpoint recovery_phase (recoveryRate : Q) (ags : list SimAgent)
  : Rand (list SimAgent) :=
  match ags with
  | [] => rret []
  | a :: ags' =>
      a' <- match state a with
            | I_ => r <- Math_random ;;
                    rret (if Qltb r recoveryRate then set_state R_ a else a)
            | _ => rret a
            end ;;
      rest <- recovery_phase recoveryRate ags' ;;
      rret (a' :: rest)
  end.

(** [simulateStep]: the network after the call and the returned set, or
    [None] for the set when the call throws. *)
Definition simulateStep (network : SimNetwork) (spreadRate recoveryRate : Q)
    (iter : Z) : Rand (SimNetwork * option JSSet) :=
  fun rnd p =>
    let ags := agents network in
    match mapM (fun layer => buildAdj (length ags) (edges layer)) (layers network) with
    | None => ((network, None), p)
    | Some layerAdj =>
        match spread_phase layerAdj spreadRate iter (layers network) rnd
                (mkSt ags [] p) with
        | (st, None) => ((mkNetwork (st_agents st) (layers network), None), st_pos st)
        | (st, Some _) =>
            let '(ags', p') := recovery_phase recoveryRate (st_agents st) rnd (st_pos st) in
            ((mkNetwork ags' (layers network), Some (st_active st)), p')
        end
    end.

(* ===================================================================== *)
(** ** Statistics *)

Record SimStats := mkStats { susceptible : nat; infected : nat; recovered : nat }.

Definition getStats (network : SimNetwork) : SimStats :=
  foldl (fun stats agent =>
    match state agent with
    | S_ => mkStats (S (susceptible stats)) (infected stats) (recovered stats)
    | I_ => mkStats (susceptible stats) (S (infected stats)) (recovered stats)
    | R_ => mkStats (susceptible stats) (infected stats) (S (recovered stats))
    end) (mkStats 0 0 0) (agents network).

(* ===================================================================== *)
(** ** Runs *)

(** A sequence of [simulateStep] calls, each given as
    [(spreadRate, recoveryRate, iter)], on the network that the call
    before left, whether that call threw or not: the final network and the
    result of every call. *)
Fixpoint simulateSteps (calls : list (Q * Q * Z)) (network : SimNetwork)
  : Rand (SimNetwork * list (option JSSet)) :=
  match calls with
  | [] => rret (network, [])
  | (spreadRate, recoveryRate, iter) :: calls' =>
      r <- simulateStep network spreadRate recoveryRate iter ;;
      rest <- simulateSteps calls' (fst r) ;;
      rret (fst rest, snd r :: snd rest)
  end.

(** A whole run: build the network, seed it, step it. *)
Definition run (fuel : nat) (numAgents : nat) (layerConfigs : list LayerConfig)
    (count : Z) (calls : list (Q * Q * Z))
  : Rand (option (SimNetwork * list (option JSSet))) :=
  network <- buildNetwork numAgents layerConfigs ;;
  seeded <- seedInfected fuel network count ;;
  match seeded with
  | Some network => r <- simulateSteps calls network ;; rret (Some r)
  | None => rret None
  end.

(* ===================================================================== *)
(** ** Vocabulary of the properties *)

(** *** Edge lists and adjacency matrices *)

(** Every edge has its reverse, with the same weight. *)
Definition matched (es : list SimEdge) : Prop :=
  forall u v w, mkEdge u v w ∈ es <-> mkEdge v u w ∈ es.

Definition weights_in_range (es : list SimEdge) : Prop :=
  forall e, e ∈ es -> (3 # 10 <= weight e)%Q /\ (weight e <= 1)%Q.

Definition edges_ok (es : list SimEdge) : Prop := matched es /\ weights_in_range es.

Definition edge_pair (e : SimEdge) : nat * nat := (source e, target e).

Definition no_self_loop (es : list SimEdge) : Prop :=
  forall e, e ∈ es -> source e <> target e.

Definition no_duplicate (es : list SimEdge) : Prop := NoDup (map edge_pair es).

Definition diag_free (adj : Adj) : Prop := forall i, adj_get adj i i = false.

(** The edges already emitted when the output loop is at row [i],
    column [j]. *)
Definition emitted (i j : nat) (e : SimEdge) : Prop :=
  source e <> target e /\
  (Nat.min (source e) (target e) < i \/
   (Nat.min (source e) (target e) = i /\ Nat.max (source e) (target e) < j)).

Definition emit_inv (i j : nat) (es : list SimEdge) : Prop :=
  Forall (emitted i j) es /\ no_duplicate es.

(** *** Seeding *)

(** The number of agents in state [s]. *)
Definition num_in (s : AgentState) (ags : list SimAgent) : nat :=
  length (filter (fun a => state a = s) ags).

(** The ids that the [fuel] draws from position [p] on select among [n]
    agents, in the order of the draws. *)
Fixpoint seed_draws (n : nat) (rnd : nat -> Draw) (p fuel : nat) : list nat :=
  match fuel with
  | O => []
  | S fuel' => fst (random_index n rnd p) :: seed_draws n rnd (S p) fuel'
  end.

(** *** The state machine of an agent *)

Inductive sir_trans : AgentState -> AgentState -> Prop :=
  | trans_infect : sir_trans S_ I_
  | trans_recover : sir_trans I_ R_.

(** The order S < I < R. *)
Definition sir_le (s s' : AgentState) : bool :=
  match s, s' with
  | S_, _ => true
  | I_, I_ => true
  | I_, R_ => true
  | R_, R_ => true
  | _, _ => false
  end.

(** What a spread phase, and what a recovery phase, can do to an agent. *)
Definition spread_rel (a a' : SimAgent) : Prop :=
  id a' = id a /\ (state a' = state a \/ (state a = S_ /\ state a' = I_)).

Definition recover_rel (a a' : SimAgent) : Prop :=
  id a' = id a /\ (state a' = state a \/ (state a = I_ /\ state a' = R_)).

Definition sir_monotone (a a' : SimAgent) : Prop :=
  id a' = id a /\ sir_le (state a) (state a') = true.

(** [a'] is [a], or [a] was Infected and [a'] is [a] with state
    Recovered. *)
Definition recovered_only (a a' : SimAgent) : Prop :=
  a' = a \/ (state a = I_ /\ a' = set_state R_ a).

(** Across a pass the agents only move from [S_] to [I_]. *)
Definition spread_step (s s' : StepSt) : Prop :=
  Forall2 spread_rel (st_agents s) (st_agents s').

(** *** Invariants of step computations *)

Definition preserves {A} (I : StepSt -> Prop) (m : Step A) : Prop :=
  forall rnd st, I st -> I (fst (m rnd st)).

(** *** Attribution of infections *)

(** Sum of all [infectedCount] entries, and number of agents with an
    [infectedByLayer]. *)
Definition total_count (ags : list SimAgent) : nat :=
  sum_list_with (fun a => sum_list (infectedCount a)) ags.

Definition attributed (a : SimAgent) : bool :=
  match infectedByLayer a with Some _ => true | None => false end.

Definition num_attributed (ags : list SimAgent) : nat :=
  length (filter (fun a => attributed a = true) ags).

Definition seeded_inv (ags : list SimAgent) : Prop :=
  (forall a, a ∈ ags -> state a = S_ -> infectedByLayer a = None) /\
  total_count ags = num_attributed ags.

(** [infectedCount[L]], read as [0] where the array has no entry. *)
Definition count_at (L : nat) (a : SimAgent) : nat := default 0 (infectedCount a !! L).

(** Between [a] and [a'] nothing was attributed to layer [L]. *)
Definition not_attributed (L : nat) (a a' : SimAgent) : Prop :=
  count_at L a' = count_at L a /\
  (infectedByLayer a' = Some L <-> infectedByLayer a = Some L).


(** The agents whose counter changed in a pass were infected when the
    pass began. *)
Definition spreaders_in_snapshot (ags0 ags : list SimAgent) : Prop :=
  Forall2 (fun a0 a => infectedCount a = infectedCount a0 \/ state a0 = I_) ags0 ags.

(** *** Dependence on the draws *)

(** Two streams agree on the positions [lo, ..., hi - 1]. *)
Definition agree (rnd1 rnd2 : nat -> Draw) (lo hi : nat) : Prop :=
  forall i, lo <= i < hi -> rnd1 i = rnd2 i.

(** A computation that does not move backwards in the stream and only
    depends on the draws that it consumes. *)
Definition rlocal {A} (m : Rand A) : Prop :=
  forall rnd1 p,
    p <= snd (m rnd1 p) /\
    forall rnd2, agree rnd1 rnd2 p (snd (m rnd1 p)) -> m rnd2 p = m rnd1 p.

Definition slocal {A} (m : Step A) : Prop :=
  forall rnd1 st,
    st_pos st <= st_pos (fst (m rnd1 st)) /\
    forall rnd2, agree rnd1 rnd2 (st_pos st) (st_pos (fst (m rnd1 st))) ->
                 m rnd2 st = m rnd1 st.

(* ===================================================================== *)
(** ** Sample inputs *)

(** The stream whose draws are all [0]. *)
Definition zero_rnd : nat -> Draw := fun _ => mkDraw 0 0.

(** The draws [0/k, 1/k, ..., (k-1)/k, 0/k, ...]. *)
Definition cycle_rnd (k : nat) : nat -> Draw :=
  fun i => mkDraw (N.of_nat (i mod k)) (N.of_nat (k - 1 - i mod k)).

(** The stream [rnd] up to position [k], and [zero_rnd] from there on. *)
Definition cut_rnd (k : nat) (rnd : nat -> Draw) : nat -> Draw :=
  fun i => if i <? k then rnd i else zero_rnd i.

(** Agent 0 is infected; layer 0 links 0 and 1, layer 1 links 1 and 2. *)
Definition chain_layer0 : SimLayer := mkLayer 0 [mkEdge 0 1 1; mkEdge 1 0 1] 1 1.

Definition chain_layer1 : SimLayer := mkLayer 1 [mkEdge 1 2 1; mkEdge 2 1 1] 1 1.

Definition chain_net : SimNetwork :=
  mkNetwork
    [mkAgent 0 I_ None [0; 0]; mkAgent 1 S_ None [0; 0]; mkAgent 2 S_ None [0; 0]]
    [chain_layer0; chain_layer1].

(** The adjacency lookups that [simulateStep] builds for [chain_net]. *)
Definition chain_adj : list (list NeighborMap) :=
  [[[(1, 1%Q)]; [(0, 1%Q)]; []]; [[]; [(2, 1%Q)]; [(1, 1%Q)]]].

(** Agent 0 is infected; the only layer links 0 and 1, and 1 and 2. *)
Definition line_net : SimNetwork :=
  mkNetwork
    [mkAgent 0 I_ None [0]; mkAgent 1 S_ None [0]; mkAgent 2 S_ None [0]]
    [mkLayer 0 [mkEdge 0 1 1; mkEdge 1 0 1; mkEdge 1 2 1; mkEdge 2 1 1] 1 1].

(** Agent 0 is infected and linked to agent 1 in a layer of frequency 3. *)
Definition slow_net : SimNetwork :=
  mkNetwork [mkAgent 0 I_ None [0]; mkAgent 1 S_ None [0]]
            [mkLayer 0 [mkEdge 0 1 1; mkEdge 1 0 1] 1 3].

(** A network in use: agents in all three states, one layer. *)
Definition used_net : SimNetwork :=
  mkNetwork [mkAgent 0 R_ (Some 0) [3]; mkAgent 1 I_ None [1]; mkAgent 2 S_ None []]
            [mkLayer 0 [mkEdge 0 1 1; mkEdge 1 0 1; mkEdge 1 2 1; mkEdge 2 1 1] 1 1].

Definition sample_configs : list LayerConfig :=
  [mkConfig (1 # 2) 1 random; mkConfig (1 # 2) 2 smallworld].

Definition sample_calls : list (Q * Q * Z) :=
  [((1 # 2)%Q, (1 # 3)%Q, 1%Z); ((1 # 2)%Q, (1 # 3)%Q, 2%Z)].

(** Two calls in which every transmission succeeds and nobody recovers. *)
Definition sure_calls : list (Q * Q * Z) :=
  [(1%Q, 0%Q, 1%Z); (1%Q, 0%Q, 2%Z)].

(* ===================================================================== *)
(** ** Further vocabulary *)

(** *** Well-formed networks *)

(** The endpoints of the edges are agents. *)
Definition edges_in_range (n : nat) (es : list SimEdge) : Prop :=
  forall e, e ∈ es -> source e < n /\ target e < n.

(** The agent at position [i] has id [i], the layer at position [i] has
    id [i], and the edges of every layer join agents of the network. *)
Definition wf_network (net : SimNetwork) : Prop :=
  (forall i a, agents net !! i = Some a -> id a = i) /\
  (forall i l, layers net !! i = Some l ->
     layer_id l = i /\ edges_in_range (length (agents net)) (edges l)).

(** Every [infectedCount] has one entry per layer. *)
Definition counts_sized (net : SimNetwork) : Prop :=
  forall a, a ∈ agents net -> length (infectedCount a) = length (layers net).

(** A step computation that keeps [I] and does not throw from a state
    with [I]. *)
Definition safe {A} (I : StepSt -> Prop) (m : Step A) : Prop :=
  forall rnd st, I st -> I (fst (m rnd st)) /\ snd (m rnd st) <> None.

(** The lookup of a layer whose edges are in range: it has one map per
    agent, and the keys of the maps are agents. *)
Definition adj_ok (n : nat) (adj : list NeighborMap) : Prop :=
  length adj = n /\
  forall i row x, adj !! i = Some row -> x ∈ row -> fst x < n.

(** There are [n] agents and the agent at position [i] has id [i]. *)
Definition ids_inv (n : nat) (st : StepSt) : Prop :=
  length (st_agents st) = n /\
  forall i a, st_agents st !! i = Some a -> id a = i.

(** *** Counters of a layer *)

(** The sum over all agents of [infectedCount[L]]. *)
Definition layer_total (L : nat) (ags : list SimAgent) : nat :=
  sum_list_with (count_at L) ags.

(** From the agents [ags0] and the empty active set: no counter went down,
    and the active set holds the layers whose counters went up. *)
Definition active_inv (ags0 ags : list SimAgent) (act : JSSet) : Prop :=
  length ags = length ags0 /\
  forall L, layer_total L ags0 <= layer_total L ags /\
            (L ∈ act <-> layer_total L ags0 < layer_total L ags).

(** *** Complete rows of an edge list *)

(** The pairs [u < v] that the loops of a generator have gone through
    when they are at row [i], column [j], are edges. *)
Definition pairs_done (n i j : nat) (es : list SimEdge) : Prop :=
  forall u v, u < v < n -> u < i \/ (u = i /\ v < j) ->
    exists w, mkEdge u v w ∈ es /\ mkEdge v u w ∈ es.

(** *** Adjacency matrices *)

(** An [n] by [n] matrix. *)
Definition adj_dims (n : nat) (adj : Adj) : Prop :=
  length adj = n /\ Forall (fun row => length row = n) adj.

(** Every entry of [adj] is an entry of [adj']. *)
Definition adj_le (adj adj' : Adj) : Prop :=
  forall u v, adj_get adj u v = true -> adj_get adj' u v = true.

(** The entries of [adj] are among the nodes below [i]. *)
Definition adj_below (i : nat) (adj : Adj) : Prop :=
  forall u v, adj_get adj u v = true -> u < i /\ v < i.

(** The pairs [u < v] with an entry in [adj] that the output loop has gone
    through when it is at row [i], column [j], are edges. *)
Definition entries_done (adj : Adj) (n i j : nat) (es : list SimEdge) : Prop :=
  forall u v, u < v < n -> u < i \/ (u = i /\ v < j) -> adj_get adj u v = true ->
    exists w, mkEdge u v w ∈ es /\ mkEdge v u w ∈ es.

(** [cumDeg] after the scan of the nodes [js]. *)
Definition cum_deg (degrees : list nat) (js : list nat) (cumDeg : nat) : nat :=
  foldl (fun c j => c + deg_get degrees j) cumDeg js.

(** The state of the scale-free generator before node [i] is added: the
    matrix and the degree array have their sizes, the entries are among
    the nodes below [i], node 0 has a neighbor, and every node from
    [initNodes] on that was added has an earlier neighbor. *)
Definition attach_inv (n initNodes i : nat) (st : Adj * list nat) : Prop :=
  adj_dims n (fst st) /\ length (snd st) = n /\
  adj_below i (fst st) /\
  1 <= deg_get (snd st) 0 /\
  forall v, initNodes <= v < i -> exists u, u < v /\ adj_get (fst st) u v = true.

(** The state of the start clique when its loops are at row [i], column
    [j]. *)
Definition clique_inv (n initNodes i j : nat) (st : Adj * list nat) : Prop :=
  adj_dims n (fst st) /\ length (snd st) = n /\
  adj_below initNodes (fst st) /\
  (forall u v, u < v < initNodes -> u < i \/ (u = i /\ v < j) ->
     adj_get (fst st) u v = true) /\
  (0 < i \/ 1 < j -> 2 <= initNodes -> 1 <= deg_get (snd st) 0).

(** The state of an attachment loop of node [i]. *)
Definition attach_ok (n i : nat) (s : Attach) : Prop :=
  adj_dims n (at_adj s) /\ length (at_degrees s) = n /\
  adj_below (S i) (at_adj s) /\ 1 <= deg_get (at_degrees s) 0.

(* ===================================================================== *)
(** ** Helpers of the state module (state.ts) *)

Section StateHelpers.

(** The characters of a string, and the keys and values of an object, are
    of any type with a decidable equality ([===]). *)
Context {C K V : Type} `{EqDecision C, EqDecision K, EqDecision V}.

(** [s.substr(-k)]: the last [k] characters of [s], all of [s] when it is
    shorter, and all of [s] for [k = 0], since [-0] is [0]. *)
Definition substr_last (s : list C) (k : nat) : list C :=
  if Nat.eqb k 0 then s else drop (length s - k) s.

Definition endsWith (s suffix : list C) : bool :=
  bool_decide (substr_last s (length suffix) = suffix).

(** An object: its properties in the order in which [for ... in] goes
    through them.  [obj_get] is [obj[key]]. *)
Definition obj_get (obj : list (K * V)) (key : K) : option V :=
  snd <$> find (fun kv => bool_decide (fst kv = key)) obj.

Definition getKeyFromValue (obj : list (K * V)) (value : V) : option K :=
  find (fun key => bool_decide (obj_get obj key = Some value)) (map fst obj).

End StateHelpers.

(* ===================================================================== *)
(** ** The callers of the engine (the page script, second part of state.ts) *)

Module Playground.

(** The fields of [State] that the callers of the engine read. *)
Record State := mkState {
  numAgents : nat;
  spreadRate : Q;
  recoveryRate : Q;
  topology : TopologyType;
  initialInfected : Z;
  layerConnectivity : list Q;
  layerFrequency : list Z;
  numLayers : nat
}.

(** [state.layerConnectivity[i] || 0.3]: a missing entry and [0] are
    falsy. *)
Definition connectivity_or (x : option Q) : Q :=
  match x with
  | Some c => if Qeq_bool c 0 then 3 # 10 else c
  | None => 3 # 10
  end.

(** [state.layerFrequency[i] || 1] *)
Definition frequency_or (x : option Z) : Z :=
  match x with
  | Some f => if (f =? 0)%Z then 1%Z else f
  | None => 1%Z
  end.

Definition layerConfigs (state : State) : list LayerConfig :=
  map (fun i => mkConfig (connectivity_or (layerConnectivity state !! i))
                         (frequency_or (layerFrequency state !! i))
                         (topology state))
      (range 0 (numLayers state)).

(** [generateNetwork]: [Math.seedrandom(state.seed)] starts the stream of
    the seed, [rnd], from its first draw; the network is built and seeded
    on it.  The writes to the URL and to the analytics are outside the
    model. *)
Definition generateNetwork (fuel : nat) (state : State) : Rand (option SimNetwork) :=
  fun rnd _ =>
    (network <- buildNetwork (numAgents state) (layerConfigs state) ;;
     seedInfected fuel network (initialInfected state))%rand rnd 0.



(** *** The layer controls *)

(** The state that the page starts from when the URL gives none. *)
Definition initial_state : State :=
  mkState 20 (3 # 10) (5 # 100) random 3 [(3 # 10)%Q] [1%Z] 1.

(** [+x.toFixed(1)]: [x] rounded to one decimal, a half away from zero.
    The numbers are exact, the rounding of doubles is not modelled. *)
Definition toFixed1 (x : Q) : Q :=
  if Qltb x 0 then - (inject_Z (Math_round (- x * 10)) * (1 # 10))
  else inject_Z (Math_round (x * 10)) * (1 # 10).

Definition Math_max (a b : Q) : Q := if Qltb a b then b else a.
Definition Math_min (a b : Q) : Q := if Qltb b a then b else a.

Definition set_rows (state : State) (cs : list Q) (fs : list Z) (n : nat) : State :=
  mkState (numAgents state) (spreadRate state) (recoveryRate state) (topology state)
          (initialInfected state) cs fs n.

(** The click handlers of the buttons that add and remove a layer and, in
    the row of layer [layerIdx], lower and raise its connectivity and its
    frequency: the state that the handler leaves before it calls [reset].
    A row handler is [None] when the array has no entry at [layerIdx],
    where the source would store [NaN]. *)
Inductive Control :=
  | AddLayer | RemoveLayer
  | ConnectivityDown (layerIdx : nat) | ConnectivityUp (layerIdx : nat)
  | FrequencyDown (layerIdx : nat) | FrequencyUp (layerIdx : nat).

Definition click (c : Control) (state : State) : option State :=
  match c with
  | AddLayer =>
      if 6 <=? numLayers state then Some state
      else Some (set_rows state (layerConnectivity state ++ [(3 # 10)%Q])
                                (layerFrequency state ++ [1%Z])
                                (numLayers state + 1))
  | RemoveLayer =>
      if numLayers state <=? 1 then Some state
      else let n := numLayers state - 1 in
           Some (set_rows state (take n (layerConnectivity state))
                                (take n (layerFrequency state)) n)
  | ConnectivityDown layerIdx =>
      match layerConnectivity state !! layerIdx with
      | Some c =>
          Some (set_rows state
                  (<[layerIdx := Math_max (1 # 10) (toFixed1 (c - (1 # 10)))]>
                     (layerConnectivity state))
                  (layerFrequency state) (numLayers state))
      | None => None
      end
  | ConnectivityUp layerIdx =>
      match layerConnectivity state !! layerIdx with
      | Some c =>
          Some (set_rows state
                  (<[layerIdx := Math_min 1 (toFixed1 (c + (1 # 10)))]>
                     (layerConnectivity state))
                  (layerFrequency state) (numLayers state))
      | None => None
      end
  | FrequencyDown layerIdx =>
      match layerFrequency state !! layerIdx with
      | Some f =>
          Some (set_rows state (layerConnectivity state)
                  (<[layerIdx := Z.max 1 (f - 1)]> (layerFrequency state))
                  (numLayers state))
      | None => None
      end
  | FrequencyUp layerIdx =>
      match layerFrequency state !! layerIdx with
      | Some f =>
          Some (set_rows state (layerConnectivity state)
                  (<[layerIdx := Z.min 10 (f + 1)]> (layerFrequency state))
                  (numLayers state))
      | None => None
      end
  end.

(** Between one and six layers, one row entry per layer, connectivities
    from 0.1 to 1.0 and frequencies from 1 to 10. *)
Definition rows_inv (state : State) : Prop :=
  1 <= numLayers state <= 6 /\
  length (layerConnectivity state) = numLayers state /\
  length (layerFrequency state) = numLayers state /\
  Forall (fun c => (1 # 10 <= c)%Q /\ (c <= 1)%Q) (layerConnectivity state) /\
  Forall (fun f => (1 <= f <= 10)%Z) (layerFrequency state).

End Playground.

(* ===================================================================== *)
(** ** Further sample inputs *)

(** A network in which the epidemic is over: nobody is infected. *)
Definition over_net : SimNetwork :=
  mkNetwork [mkAgent 0 R_ None [1]; mkAgent 1 R_ (Some 0) [0]; mkAgent 2 S_ None [0]]
            [mkLayer 0 [mkEdge 0 1 1; mkEdge 1 0 1; mkEdge 1 2 1; mkEdge 2 1 1] 1 1].

(** A state of the page with two layer rows, the second with a frequency
    of [0], and a third layer without a row. *)
Definition sample_state : Playground.State :=
  Playground.mkState 4 (1 # 2) (1 # 3) random 2 [(1 # 2)%Q; 0%Q] [2%Z; 0%Z] 3.

(* ===================================================================== *)
(** ** Vocabulary of one call of [simulateStep] *)

(** The agents that the spread phase of a call leaves, on which the
    recovery loop of the call then runs; they are the agents of the
    network when the call throws while it builds the lookups. *)
Definition after_spread (network : SimNetwork) (spreadRate : Q) (iter : Z)
    (rnd : nat -> Draw) (p : nat) : list SimAgent :=
  match mapM (fun layer => buildAdj (length (agents network)) (edges layer))
             (layers network) with
  | None => agents network
  | Some layerAdj =>
      st_agents (fst (spread_phase layerAdj spreadRate iter (layers network) rnd
                        (mkSt (agents network) [] p)))
  end.





(** An agent that is not Susceptible keeps its state and its
    [infectedByLayer]. *)
Definition infected_stable (a a' : SimAgent) : Prop :=
  state a <> S_ -> state a' = state a /\ infectedByLayer a' = infectedByLayer a.

(* ===================================================================== *)
(** * Proofs *)

(** ** Numbers and draws *)

Lemma draw_val_range d : (0 <= draw_val d)%Q /\ (draw_val d < 1)%Q.
Proof.
  destruct d as [a b]. unfold draw_val, Qle, Qlt. simpl.
  pose proof (N.succ_pos_spec (a + b)) as H.
  assert (Z.pos (N.succ_pos (a + b)) = Z.of_N (N.succ (a + b))) as -> by (rewrite <- H; reflexivity).
  lia.
Qed.

Lemma Qltb_lt a b : Qltb a b = true <-> (a < b)%Q.
Proof.
  unfold Qltb. rewrite negb_true_iff. split.
  - intros H. apply Qnot_le_lt. intros Hle. apply Qle_bool_iff in Hle. congruence.
  - intros H. destruct (Qle_bool b a) eqn:E; [|done].
    apply Qle_bool_iff in E. exfalso. eapply Qlt_not_le; eauto.
Qed.

Lemma draw_weight_eq rnd p :
  draw_weight rnd p = (((3 # 10) + draw_val (rnd p) * (7 # 10))%Q, S p).
Proof. reflexivity. Qed.

Lemma draw_weight_range rnd p :
  (3 # 10 <= fst (draw_weight rnd p))%Q /\ (fst (draw_weight rnd p) <= 1)%Q.
Proof.
  rewrite draw_weight_eq. cbn [fst].
  destruct (draw_val_range (rnd p)). split; lra.
Qed.

Lemma random_index_eq n rnd p :
  random_index n rnd p = (Z.to_nat (Math_floor (draw_val (rnd p) * Q_of_nat n)), S p).
Proof. reflexivity. Qed.

Lemma random_index_lt n rnd p : 0 < n -> fst (random_index n rnd p) < n.
Proof.
  intros Hn. rewrite random_index_eq. cbn [fst]. unfold Math_floor, Q_of_nat.
  destruct (draw_val_range (rnd p)) as [H0 H1].
  set (r := draw_val (rnd p)) in *.
  assert (Qfloor (r * inject_Z (Z.of_nat n)) < Z.of_nat n)%Z; [|lia].
  rewrite Zlt_Qlt. eapply Qle_lt_trans; [apply Qfloor_le|].
  assert (0 < inject_Z (Z.of_nat n))%Q. { change 0%Q with (inject_Z 0). rewrite <- Zlt_Qlt. lia. }
  nra.
Qed.

(** ** Loops *)

(** Invariant rules: [P] holds after the loop when it holds before and
    every iteration keeps it. *)
Lemma rfor_inv {A B} (P : B -> Prop) (l : list A) acc body rnd p :
  P acc ->
  (forall acc x rnd p, x ∈ l -> P acc -> P (fst (body acc x rnd p))) ->
  P (fst (rfor l acc body rnd p)).
Proof.
  revert acc p. induction l as [|x l IH]; intros acc p H0 Hbody; [exact H0|].
  cbn [rfor]. unfold rbind.
  destruct (body acc x rnd p) as [acc' p'] eqn:E.
  apply IH.
  - change acc' with (fst (acc', p')). rewrite <- E. apply Hbody; [left|done].
  - intros. apply Hbody; [by right|done].
Qed.

Lemma rfor_seq_inv {B} (P : nat -> B -> Prop) lo len acc body rnd p :
  P lo acc ->
  (forall i acc rnd p, lo <= i < lo + len -> P i acc -> P (S i) (fst (body acc i rnd p))) ->
  P (lo + len) (fst (rfor (seq lo len) acc body rnd p)).
Proof.
  revert lo acc p. induction len as [|len IH]; intros lo acc p H0 Hbody.
  - rewrite Nat.add_0_r. exact H0.
  - cbn [seq rfor]. unfold rbind.
    destruct (body acc lo rnd p) as [acc' p'] eqn:E.
    replace (lo + S len) with (S lo + len) by lia.
    apply IH.
    + change acc' with (fst (acc', p')). rewrite <- E. apply Hbody; [lia|done].
    + intros. apply Hbody; [lia|done].
Qed.

Lemma foldl_inv {A B} (P : B -> Prop) (f : B -> A -> B) (l : list A) acc :
  P acc -> (forall acc x, x ∈ l -> P acc -> P (f acc x)) -> P (foldl f acc l).
Proof.
  revert acc. induction l as [|x l IH]; intros acc H0 Hf; [exact H0|].
  cbn [foldl]. apply IH; [apply Hf; [left|done]|].
  intros. apply Hf; [by right|done].
Qed.

Section Generators.

Implicit Types (rnd : nat -> Draw) (es : list SimEdge) (adj : Adj) (c : Q).

(** ** Generators: matched pairs and weights *)

Lemma edges_ok_nil : edges_ok [].
Proof. split; [intros u v w; split; intros H; inversion H | intros e H; inversion H]. Qed.

Lemma edges_ok_push es i j w :
  (3 # 10 <= w)%Q -> (w <= 1)%Q -> edges_ok es -> edges_ok (push_pair es i j w).
Proof.
  intros Hlo Hhi [Hm Hw]. unfold push_pair. split.
  - intros u v x. rewrite !elem_of_app, !elem_of_cons, !elem_of_nil, (Hm u v x).
    split; intros [?|[?|[?|[]]]]; auto; simplify_eq; auto.
  - intros e. rewrite elem_of_app, !elem_of_cons, elem_of_nil.
    intros [?|[->|[->|[]]]]; auto.
Qed.

Lemma edges_ok_draw_push es i j rnd p :
  edges_ok es ->
  edges_ok (fst (rbind draw_weight (fun w => rret (push_pair es i j w)) rnd p)).
Proof.
  intros H. unfold rbind. rewrite draw_weight_eq. cbn [rret fst].
  pose proof (draw_weight_range rnd p) as [? ?]. rewrite draw_weight_eq in *.
  by apply edges_ok_push.
Qed.

Lemma buildRandomLayer_ok n c rnd p : edges_ok (fst (buildRandomLayer n c rnd p)).
Proof.
  unfold buildRandomLayer. apply rfor_inv; [apply edges_ok_nil|].
  intros es i rnd' p' _ Hes. apply rfor_inv; [done|].
  clear. intros es j rnd p _ Hes. unfold rbind at 1. cbn [Math_random].
  destruct (Qltb _ _); [by apply edges_ok_draw_push|done].
Qed.

Lemma edgesOfAdj_ok n adj rnd p : edges_ok (fst (edgesOfAdj n adj rnd p)).
Proof.
  unfold edgesOfAdj. apply rfor_inv; [apply edges_ok_nil|].
  intros es i rnd' p' _ Hes. apply rfor_inv; [done|].
  clear. intros es j rnd p _ Hes.
  destruct (adj_get _ _ _); [by apply edges_ok_draw_push|done].
Qed.

(** ** Generators: the output loop emits every pair once *)

Lemma emit_inv_push es i j w :
  i < j -> emit_inv i j es -> emit_inv i (S j) (push_pair es i j w).
Proof.
  intros Hij [Hall Hnd]. unfold push_pair. split.
  - apply Forall_app. split.
    + eapply Forall_impl; [exact Hall|]. unfold emitted. intros e. lia.
    + constructor; [|constructor; [|constructor]]; unfold emitted; cbn; lia.
  - unfold no_duplicate in *. rewrite map_app. apply NoDup_app. split; [done|]. split.
    + intros [a b] Hin Hin2. apply list_elem_of_fmap in Hin as (e & Heq & He).
      rewrite Forall_forall in Hall. apply Hall in He. unfold emitted in He.
      destruct e as [s t w']. unfold edge_pair in *. cbn in Heq, He, Hin2.
      rewrite !elem_of_cons, elem_of_nil in Hin2.
      destruct Hin2 as [?|[?|[]]]; simplify_eq; lia.
    + cbn. apply NoDup_cons. split; [|apply NoDup_singleton].
      rewrite list_elem_of_singleton. unfold edge_pair. cbn. intros ?; simplify_eq. lia.
Qed.


Lemma emit_inv_weaken i j i' j' es :
  (forall e, emitted i j e -> emitted i' j' e) -> emit_inv i j es -> emit_inv i' j' es.
Proof.
  intros Himp [Hall Hnd]. split; [|done]. eapply Forall_impl; [exact Hall|done].
Qed.

Lemma edgesOfAdj_inv n adj rnd p : emit_inv n 0 (fst (edgesOfAdj n adj rnd p)).
Proof.
  unfold edgesOfAdj, range.
  pose proof (rfor_seq_inv (fun i es => emit_inv i 0 es) 0 (n - 0)) as H.
  replace (0 + (n - 0)) with n in H by lia. apply H; clear H.
  - split; [constructor|]. unfold no_duplicate. cbn. apply NoDup_nil_2.
  - intros i es rnd' p' Hi Hes.
    eapply (emit_inv_weaken i); [unfold emitted; intros e; lia|].
    apply (rfor_seq_inv (fun j es => emit_inv i j es)).
    + revert Hes. apply emit_inv_weaken. unfold emitted. intros e. lia.
    + intros j es2 rnd2 p2 Hj Hes2.
      destruct (adj_get adj i j).
      * unfold rbind. rewrite draw_weight_eq. cbn [rret fst].
        apply emit_inv_push; [lia|done].
      * cbn [rret fst]. revert Hes2. apply emit_inv_weaken. unfold emitted. intros e. lia.
Qed.

Lemma edgesOfAdj_simple n adj rnd p :
  no_self_loop (fst (edgesOfAdj n adj rnd p)) /\
  no_duplicate (fst (edgesOfAdj n adj rnd p)).
Proof.
  destruct (edgesOfAdj_inv n adj rnd p) as [Hall Hnd]. split; [|done].
  intros e He. rewrite Forall_forall in Hall. by destruct (Hall e He).
Qed.

Lemma buildSmallWorldLayer_ok n c rnd p : edges_ok (fst (buildSmallWorldLayer n c rnd p)).
Proof.
  unfold buildSmallWorldLayer, rbind.
  destruct (rewire _ _ _ _ _) as [adj p']. apply edgesOfAdj_ok.
Qed.

Lemma buildScaleFreeLayer_ok n c rnd p : edges_ok (fst (buildScaleFreeLayer n c rnd p)).
Proof.
  unfold buildScaleFreeLayer, rbind.
  destruct (preferential _ _ _ _ _ _) as [st p']. apply edgesOfAdj_ok.
Qed.

(** ** Small world: the diagonal of the matrix stays empty *)

Lemma adj_get_set_true i j b adj x y :
  adj_get (adj_set i j b adj) x y = true ->
  (x = i /\ y = j /\ b = true) \/ adj_get adj x y = true.
Proof.
  unfold adj_get, adj_set. intros H.
  destruct (decide (x = i)) as [->|Hx].
  - rewrite list_lookup_alter_eq in H. destruct (adj !! i) as [row|] eqn:E; cbn in H; [|done].
    destruct (decide (y = j)) as [->|Hy].
    + destruct (decide (j < length row)).
      * rewrite list_lookup_insert_eq in H by done. cbn in H. auto.
      * rewrite list_insert_ge in H by lia. auto.
    + rewrite list_lookup_insert_ne in H by done. auto.
  - rewrite list_lookup_alter_ne in H by done. auto.
Qed.

Lemma diag_free_set2 i j b adj :
  i <> j \/ b = false -> diag_free adj -> diag_free (adj_set2 i j b adj).
Proof.
  intros Hij Hd x. unfold adj_set2.
  destruct (adj_get _ x x) eqn:E; [|done].
  apply adj_get_set_true in E as [(Hx & Hy & Hb)|E]; [destruct Hij; congruence|].
  apply adj_get_set_true in E as [(Hx & Hy & Hb)|E]; [destruct Hij; congruence|].
  by rewrite Hd in E.
Qed.

Lemma diag_free_new n : diag_free (adj_new n).
Proof.
  intros i. unfold adj_get, adj_new.
  destruct (replicate n (replicate n false) !! i) as [row|] eqn:E; [|done].
  apply lookup_replicate in E as [-> _].
  destruct (replicate n false !! i) as [b|] eqn:E2; [|done].
  by apply lookup_replicate in E2 as [-> _].
Qed.

Lemma elem_of_half_range m k : m ∈ half_range k -> 1 <= m /\ (2 * Z.of_nat m <= k)%Z.
Proof.
  unfold half_range. rewrite elem_of_seq. intros [H1 H2].
  destruct (Z.le_gt_cases 0 (k / 2)) as [Hk|Hk].
  - assert (Z.of_nat m <= k / 2)%Z by lia.
    pose proof (Z.mul_div_le k 2). lia.
  - rewrite Z2Nat.nonpos in H2; lia.
Qed.

Lemma smallworld_k_le n c : (smallworld_k n c <= Z.of_nat n - 1)%Z.
Proof. unfold smallworld_k. lia. Qed.

Lemma lattice_neighbor_ne n k i m :
  (k <= Z.of_nat n - 1)%Z -> i < n -> m ∈ half_range k -> (i + m) mod n <> i.
Proof.
  intros Hk Hi Hm. apply elem_of_half_range in Hm.
  destruct (decide (i + m < n)) as [Hlt|Hge].
  - rewrite Nat.mod_small by done. lia.
  - replace (i + m) with ((i + m - n) + 1 * n) by lia.
    rewrite Nat.Div0.mod_add, Nat.mod_small by lia. lia.
Qed.

Lemma ring_lattice_diag_free n k :
  (k <= Z.of_nat n - 1)%Z -> diag_free (ring_lattice n k).
Proof.
  intros Hk. unfold ring_lattice. apply foldl_inv; [apply diag_free_new|].
  intros adj i Hi Hadj. apply foldl_inv; [done|].
  intros adj' m Hm Hadj'. apply diag_free_set2; [|done].
  left. intros Heq. unfold range in Hi. apply elem_of_seq in Hi.
  eapply lattice_neighbor_ne; [exact Hk| |exact Hm|symmetry; exact Heq]. lia.
Qed.

Lemma rewire_diag_free n k adj rnd p :
  diag_free adj -> diag_free (fst (rewire n k adj rnd p)).
Proof.
  intros Hadj. unfold rewire. apply rfor_inv; [done|].
  intros adj1 i rnd1 p1 _ H1. apply rfor_inv; [done|].
  intros adj2 m rnd2 p2 _ H2.
  unfold rbind at 1. cbn [Math_random].
  destruct (Qltb _ _); [|done].
  unfold rbind. rewrite random_index_eq.
  destruct (pick_target _ _ _ _ _ _ _) as [newJ p3].
  assert (diag_free (adj_set2 i ((i + m) mod n) false adj2)) as H3
    by (apply diag_free_set2; auto).
  destruct (negb (bool_decide (newJ = i)) && _) eqn:E; [|done].
  cbn [rret fst]. apply diag_free_set2; [|done].
  left. apply andb_prop in E as [E _]. apply negb_true_iff, bool_decide_eq_false in E. auto.
Qed.

(** ** Generators: fewer than two agents *)

Lemma half_range_small k : (k <= 1)%Z -> half_range k = [].
Proof.
  intros H. unfold half_range.
  assert (k / 2 <= 0)%Z. { apply Z.lt_succ_r. apply Z.div_lt_upper_bound; lia. }
  rewrite Z2Nat.nonpos; done.
Qed.

Lemma buildRandomLayer_degenerate n c rnd p :
  n < 2 -> buildRandomLayer n c rnd p = ([], p).
Proof. intros H. destruct n as [|[|n]]; [reflexivity|reflexivity|lia]. Qed.

Lemma edgesOfAdj_degenerate n adj rnd p : n < 2 -> edgesOfAdj n adj rnd p = ([], p).
Proof. intros H. destruct n as [|[|n]]; [reflexivity|reflexivity|lia]. Qed.

Lemma buildSmallWorldLayer_degenerate n c rnd p :
  n < 2 -> buildSmallWorldLayer n c rnd p = ([], p).
Proof.
  intros H. unfold buildSmallWorldLayer.
  assert (half_range (smallworld_k n c) = []) as Hk.
  { apply half_range_small. pose proof (smallworld_k_le n c). lia. }
  unfold rbind, rewire. rewrite Hk.
  destruct n as [|[|n]]; [reflexivity|reflexivity|lia].
Qed.

Lemma buildScaleFreeLayer_degenerate n c rnd p :
  n < 2 -> buildScaleFreeLayer n c rnd p = ([], p).
Proof.
  intros H. unfold buildScaleFreeLayer, rbind.
  assert (scalefree_initNodes n (scalefree_m c) = n) as ->.
  { unfold scalefree_initNodes, scalefree_m. lia. }
  unfold preferential, range. rewrite Nat.sub_diag. cbn [seq rfor rret].
  by apply edgesOfAdj_degenerate.
Qed.

End Generators.

Section Seeding.

Implicit Types (rnd : nat -> Draw) (ags : list SimAgent) (net : SimNetwork).

(** ** Statistics *)

Lemma getStats_foldl ags s i r :
  foldl (fun stats agent =>
    match state agent with
    | S_ => mkStats (S (susceptible stats)) (infected stats) (recovered stats)
    | I_ => mkStats (susceptible stats) (S (infected stats)) (recovered stats)
    | R_ => mkStats (susceptible stats) (infected stats) (S (recovered stats))
    end) (mkStats s i r) ags
  = mkStats (s + num_in S_ ags) (i + num_in I_ ags) (r + num_in R_ ags).
Proof.
  revert s i r. induction ags as [|a ags IH]; intros s i r.
  - cbn. f_equal; lia.
  - cbn [foldl]. unfold num_in. rewrite !filter_cons.
    destruct (state a) eqn:E; cbn [susceptible infected recovered]; rewrite IH;
      repeat case_decide; try congruence; cbn [length]; unfold num_in; f_equal; lia.
Qed.

Lemma getStats_spec net :
  getStats net = mkStats (num_in S_ (agents net)) (num_in I_ (agents net))
                         (num_in R_ (agents net)).
Proof. unfold getStats. by rewrite getStats_foldl. Qed.

Lemma num_in_total ags :
  num_in S_ ags + num_in I_ ags + num_in R_ ags = length ags.
Proof.
  unfold num_in. induction ags as [|a ags IH]; [done|].
  rewrite !filter_cons. destruct (state a);
    repeat case_decide; try congruence; cbn [length]; lia.
Qed.

Lemma num_in_alter s f i ags a :
  ags !! i = Some a -> state a <> s -> state (f a) = s ->
  num_in s (alter f i ags) = S (num_in s ags).
Proof.
  unfold num_in. revert i. induction ags as [|b ags IH]; intros i Hi Hne Heq; [done|].
  destruct i as [|i]; cbn in Hi.
  - injection Hi as ->. cbn [alter list_alter]. rewrite !filter_cons.
    repeat case_decide; try congruence. done.
  - cbn [alter list_alter]. rewrite !filter_cons.
    specialize (IH i Hi Hne Heq).
    case_decide; cbn [length]; rewrite IH; done.
Qed.

Lemma num_in_absent s ags :
  (forall a, a ∈ ags -> state a <> s) -> num_in s ags = 0.
Proof.
  intros H. unfold num_in. induction ags as [|a ags IHa]; [done|].
  assert (state a <> s) as Ha by (apply H; left).
  rewrite filter_cons, decide_False by done.
  apply IHa. intros. apply H. by right.
Qed.

Lemma num_in_none s ags :
  (forall a, a ∈ ags -> state a = S_) -> s <> S_ -> num_in s ags = 0.
Proof.
  intros HS Hs. unfold num_in. induction ags as [|a ags IHa]; [done|].
  assert (state a = S_) as Ha by (apply HS; left).
  rewrite filter_cons, decide_False by congruence.
  apply IHa. intros. apply HS. by right.
Qed.

(** ** Seeding: marking the chosen agents *)

Lemma mark_seeds_snoc l i ags :
  mark_seeds (l ++ [i]) ags = alter (set_state I_) i (mark_seeds l ags).
Proof. unfold mark_seeds. by rewrite foldl_app. Qed.

Lemma mark_seeds_lookup l ags j :
  mark_seeds l ags !! j =
  (if bool_decide (j ∈ l) then set_state I_ else (fun a => a)) <$> ags !! j.
Proof.
  induction l as [|i l IH] using rev_ind.
  - cbn. by destruct (ags !! j).
  - rewrite mark_seeds_snoc.
    destruct (decide (j = i)) as [->|Hne].
    + rewrite list_lookup_alter_eq, IH.
      rewrite (bool_decide_eq_true_2 (i ∈ l ++ [i])) by (apply elem_of_app; right; left).
      destruct (ags !! i); [|done]. cbn. by destruct (bool_decide (i ∈ l)).
    + rewrite list_lookup_alter_ne by done. rewrite IH.
      destruct (ags !! j); [|done]. cbn.
      assert (j ∈ l ++ [i] <-> j ∈ l) as Hiff.
      { rewrite elem_of_app, list_elem_of_singleton. tauto. }
      by rewrite (bool_decide_ext _ _ Hiff).
Qed.

Lemma mark_seeds_length l ags : length (mark_seeds l ags) = length ags.
Proof.
  induction l as [|i l IH] using rev_ind; [done|].
  rewrite mark_seeds_snoc, length_alter. done.
Qed.

Lemma mark_seeds_num_infected l ags :
  NoDup l -> (forall i, i ∈ l -> i < length ags) ->
  (forall a, a ∈ ags -> state a = S_) ->
  num_in I_ (mark_seeds l ags) = length l.
Proof.
  intros Hnd Hlt HS. induction l as [|i l IH] using rev_ind.
  - cbn. by apply num_in_none.
  - apply NoDup_app in Hnd as (Hnd & Hdisj & _).
    rewrite mark_seeds_snoc, length_app. cbn [length].
    assert (i < length ags) as Hi by (apply Hlt, elem_of_app; right; left).
    destruct (lookup_lt_is_Some_2 ags i Hi) as [a Ha].
    erewrite num_in_alter.
    + rewrite IH; [lia|done|]. intros. apply Hlt, elem_of_app. by left.
    + rewrite mark_seeds_lookup, Ha. cbn. reflexivity.
    + rewrite bool_decide_eq_false_2.
      * rewrite (HS a); [done|]. by eapply list_elem_of_lookup_2.
      * intros Hin. apply (Hdisj i Hin). left.
    + done.
Qed.

(** ** Seeding: the loop that chooses the seeds *)

Lemma set_add_NoDup x s : NoDup s -> NoDup (set_add x s).
Proof.
  intros H. unfold set_add. case_bool_decide; [done|].
  apply NoDup_app. split; [done|]. split; [|apply NoDup_singleton].
  intros y Hy Hy'. apply list_elem_of_singleton in Hy'. by subst.
Qed.

Lemma elem_of_set_add y x s : y ∈ set_add x s <-> y = x \/ y ∈ s.
Proof.
  unfold set_add. case_bool_decide.
  - split; [auto|]. intros [->|]; done.
  - rewrite elem_of_app, list_elem_of_singleton. tauto.
Qed.

Lemma set_add_length x s : length s <= length (set_add x s) <= S (length s).
Proof. unfold set_add. case_bool_decide; rewrite ?length_app; cbn; lia. Qed.

Lemma choose_seeds_spec fuel n sc chosen rnd p c' p' :
  choose_seeds fuel n sc chosen rnd p = (Some c', p') ->
  (sc <= Z.of_nat n)%Z -> NoDup chosen -> (forall x, x ∈ chosen -> x < n) ->
  NoDup c' /\ (forall x, x ∈ c' -> x < n) /\
  Z.of_nat (length c') = Z.max sc (Z.of_nat (length chosen)).
Proof.
  revert chosen p. induction fuel as [|fuel IH]; intros chosen p Hrun Hsc Hnd Hlt;
    cbn [choose_seeds] in Hrun; destruct (Z.ltb_spec (Z.of_nat (length chosen)) sc) as [Hc|Hc];
    try (injection Hrun as <- <-; repeat split; [done|done|lia]); [done|].
  unfold rbind in Hrun. pose proof (random_index_lt n rnd p) as Hx.
  destruct (random_index n rnd p) as [x q]. cbn [fst] in Hx.
  apply IH in Hrun as (H1 & H2 & H3); [| done | by apply set_add_NoDup |].
  - repeat split; [done|done|]. pose proof (set_add_length x chosen). lia.
  - intros y [->|Hy]%elem_of_set_add; [|by apply Hlt].
    apply Hx. lia.
Qed.

Lemma remove_dups_length_ext (l1 l2 : list nat) :
  (forall x, x ∈ l1 <-> x ∈ l2) -> length (remove_dups l1) = length (remove_dups l2).
Proof.
  intros H. apply Permutation_length, NoDup_Permutation; try apply NoDup_remove_dups.
  intros x. rewrite !elem_of_remove_dups. apply H.
Qed.

Lemma remove_dups_length_NoDup (l : list nat) :
  NoDup l -> length (remove_dups l) = length l.
Proof.
  intros H. apply Permutation_length, NoDup_Permutation; [apply NoDup_remove_dups|done|].
  intros x. apply elem_of_remove_dups.
Qed.

Lemma choose_seeds_terminates fuel n sc chosen rnd p :
  NoDup chosen ->
  (sc <= Z.of_nat (length (remove_dups (chosen ++ seed_draws n rnd p fuel))))%Z ->
  exists c' p', choose_seeds fuel n sc chosen rnd p = (Some c', p').
Proof.
  revert chosen p. induction fuel as [|fuel IH]; intros chosen p Hnd Hsc;
    cbn [choose_seeds]; destruct (Z.ltb_spec (Z.of_nat (length chosen)) sc) as [Hc|Hc];
    try (by eexists _, _).
  - cbn [seed_draws] in Hsc. rewrite app_nil_r in Hsc.
    rewrite remove_dups_length_NoDup in Hsc by done. lia.
  - unfold rbind. cbn [seed_draws] in Hsc.
    pose proof (random_index_eq n rnd p) as E.
    destruct (random_index n rnd p) as [x q]. injection E as _ ->. cbn [fst] in Hsc.
    apply IH; [by apply set_add_NoDup|].
    erewrite remove_dups_length_ext; [exact Hsc|].
    intros y. rewrite !elem_of_app, elem_of_set_add, elem_of_cons. tauto.
Qed.

End Seeding.

Section StepEngine.

Implicit Types (rnd : nat -> Draw) (ags : list SimAgent) (net : SimNetwork)
  (st : StepSt) (layerAdj : list (list NeighborMap)) (sr rr : Q).

(** ** The step engine: invariant rules *)

Lemma preserves_sret {A} I (a : A) : preserves I (sret a).
Proof. intros rnd st H. exact H. Qed.

Lemma preserves_sthrow {A} I : preserves I (@sthrow A).
Proof. intros rnd st H. exact H. Qed.

Lemma preserves_sbind {A B} I (m : Step A) (k : A -> Step B) :
  preserves I m -> (forall a, preserves I (k a)) -> preserves I (sbind m k).
Proof.
  intros Hm Hk rnd st H. unfold sbind.
  specialize (Hm rnd st H). destruct (m rnd st) as [st' [a|]]; [|exact Hm].
  by apply Hk.
Qed.

Lemma preserves_sfor {A} I (l : list A) body :
  (forall x, x ∈ l -> preserves I (body x)) -> preserves I (sfor l body).
Proof.
  induction l as [|x l IH]; intros Hbody; [apply preserves_sret|].
  cbn [sfor]. apply preserves_sbind; [apply Hbody; left|].
  intros _. apply IH. intros y Hy. apply Hbody. by right.
Qed.

(** What one run of the [forEach] callback does to the agents and to the
    active set. *)
Lemma try_infect_cases lid sr src e rnd st :
  let st' := fst (try_infect lid sr src e rnd st) in
  (st_agents st' = st_agents st /\ st_active st' = st_active st) \/
  (exists neighbor, st_agents st !! fst e = Some neighbor /\ state neighbor = S_ /\
     st_agents st' = alter (bump lid) src (alter (mark_infected lid) (fst e) (st_agents st)) /\
     st_active st' = set_add lid (st_active st)).
Proof.
  destruct e as [nb w]. unfold try_infect, sbind, s_get. cbn [fst].
  destruct (st_agents st !! nb) as [neighbor|] eqn:E; [|left; done].
  destruct (state neighbor) eqn:Es; try (left; done).
  cbn [s_random]. destruct (Qltb _ _); [|left; done].
  right. exists neighbor. done.
Qed.

Lemma elem_of_infected_from k ags pos aid :
  (pos, aid) ∈ infected_from k ags <->
  exists a, k <= pos /\ ags !! (pos - k) = Some a /\ state a = I_ /\ id a = aid.
Proof.
  revert k. induction ags as [|b ags IH]; intros k; cbn [infected_from].
  - rewrite elem_of_nil. split; [done|]. intros (a & _ & H & _). done.
  - assert ((pos, aid) ∈ infected_from (S k) ags <->
            exists a, k <= pos /\ pos <> k /\ (b :: ags) !! (pos - k) = Some a /\
                      state a = I_ /\ id a = aid) as Htail.
    { rewrite IH. split.
      - intros (a & Hk & Ha & Hs & Hi). exists a. repeat split; try done; try lia.
        replace (pos - k) with (S (pos - S k)) by lia. done.
      - intros (a & Hk & Hne & Ha & Hs & Hi). exists a. repeat split; try done; try lia.
        replace (pos - k) with (S (pos - S k)) in Ha by lia. done. }
    case_bool_decide as Hb.
    + rewrite elem_of_cons, Htail. split.
      * intros [Heq|(a & ? & ? & ? & ? & ?)]; [|by exists a].
        injection Heq as -> ->. exists b. rewrite Nat.sub_diag. done.
      * intros (a & Hk & Ha & Hs & Hi).
        destruct (decide (pos = k)) as [->|Hne]; [|right; by exists a].
        left. rewrite Nat.sub_diag in Ha. cbn in Ha. by simplify_eq.
    + rewrite Htail. split.
      * intros (a & ? & ? & ? & ? & ?). by exists a.
      * intros (a & Hk & Ha & Hs & Hi). exists a. repeat split; try done.
        intros ->. rewrite Nat.sub_diag in Ha. cbn in Ha. by simplify_eq.
Qed.

(** Invariant rule for the pass of a layer: [I] has to be kept by an
    infection of a susceptible agent [nb] from a position [src] of the
    snapshot. *)
Lemma layer_pass_inv (I : list SimAgent -> JSSet -> Prop) layerAdj sr layer rnd st :
  I (st_agents st) (st_active st) ->
  (forall src a0 ags act nb neighbor,
     st_agents st !! src = Some a0 -> state a0 = I_ ->
     I ags act -> ags !! nb = Some neighbor -> state neighbor = S_ ->
     I (alter (bump (layer_id layer)) src (alter (mark_infected (layer_id layer)) nb ags))
       (set_add (layer_id layer) act)) ->
  let st' := fst (layer_pass layerAdj sr layer rnd st) in
  I (st_agents st') (st_active st').
Proof.
  intros H0 Hinf. unfold layer_pass, sbind. cbn [s_get].
  apply (preserves_sfor (fun s => I (st_agents s) (st_active s))); [|exact H0].
  intros [src aid] Hsrc. apply elem_of_infected_from in Hsrc as (a0 & _ & Ha0 & Hst & _).
  rewrite Nat.sub_0_r in Ha0.
  destruct (_ ≫= _) as [nbrs|]; [|apply preserves_sthrow].
  apply preserves_sfor. intros e _ rnd' s Hs.
  destruct (try_infect_cases (layer_id layer) sr src e rnd' s) as [[-> ->]|(nb & Hnb & HS & -> & ->)];
    [done|].
  by eapply Hinf.
Qed.

Lemma spread_phase_inv (I : StepSt -> Prop) layerAdj sr iter ls :
  (forall l, l ∈ ls -> fires iter (frequency l) = true ->
     preserves I (layer_pass layerAdj sr l)) ->
  preserves I (spread_phase layerAdj sr iter ls).
Proof.
  intros H. unfold spread_phase. apply preserves_sfor. intros l Hl.
  destruct (fires _ _) eqn:E; [by apply H|apply preserves_sret].
Qed.

Lemma simulateStep_cases net sr rr iter rnd p :
  simulateStep net sr rr iter rnd p = ((net, None), p) \/
  exists layerAdj st r,
    spread_phase layerAdj sr iter (layers net) rnd (mkSt (agents net) [] p) = (st, r) /\
    ((r = None /\
      simulateStep net sr rr iter rnd p =
        ((mkNetwork (st_agents st) (layers net), None), st_pos st)) \/
     (r = Some tt /\
      simulateStep net sr rr iter rnd p =
        ((mkNetwork (fst (recovery_phase rr (st_agents st) rnd (st_pos st))) (layers net),
          Some (st_active st)),
         snd (recovery_phase rr (st_agents st) rnd (st_pos st))))).
Proof.
  unfold simulateStep.
  destruct (mapM _ _) as [layerAdj|]; [|left; destruct net; done].
  right. exists layerAdj.
  destruct (spread_phase _ _ _ _ _ _) as [st [[]|]] eqn:E.
  - exists st, (Some ()). split; [done|]. right. split; [done|].
    by destruct (recovery_phase _ _ _ _).
  - exists st, None. split; [done|]. by left.
Qed.

(** ** The state machine *)

Lemma Forall2_alter_r {A B} (R : A -> B -> Prop) (f : B -> B) l k i :
  Forall2 R l k ->
  (forall x y, l !! i = Some x -> k !! i = Some y -> R x y -> R x (f y)) ->
  Forall2 R l (alter f i k).
Proof.
  intros H Hf. apply Forall2_same_length_lookup in H as [Hlen H].
  apply Forall2_same_length_lookup. split; [by rewrite length_alter|].
  intros j x y Hx Hy. destruct (decide (j = i)) as [->|Hne].
  - rewrite list_lookup_alter_eq in Hy. destruct (k !! i) as [y0|] eqn:E; [|done].
    cbn in Hy. injection Hy as <-. apply Hf; [done|done|by eapply H].
  - rewrite list_lookup_alter_ne in Hy by done. by eapply H.
Qed.

#[local] Instance spread_rel_preorder : PreOrder spread_rel.
Proof.
  split.
  - intros a. split; auto.
  - intros a b c [Hi1 H1] [Hi2 H2]. split; [congruence|].
    destruct H1 as [H1|[H1 H1']], H2 as [H2|[H2 H2']];
      [left; congruence | right; split; congruence | right; split; congruence | congruence].
Qed.

Lemma infection_spread_rel lid src nb ags0 ags neighbor :
  Forall2 spread_rel ags0 ags -> ags !! nb = Some neighbor -> state neighbor = S_ ->
  Forall2 spread_rel ags0 (alter (bump lid) src (alter (mark_infected lid) nb ags)).
Proof.
  intros H Hnb HS. apply Forall2_alter_r; [apply Forall2_alter_r; [done|]|].
  - intros x y Hx Hy [Hid Hst]. rewrite Hnb in Hy. injection Hy as <-.
    split; [done|]. right. cbn. split; [|done].
    destruct Hst as [Hst|[Hst _]]; congruence.
  - intros x y _ _ Hxy. exact Hxy.
Qed.

Lemma layer_pass_spread_rel layerAdj sr layer rnd st :
  Forall2 spread_rel (st_agents st) (st_agents (fst (layer_pass layerAdj sr layer rnd st))).
Proof.
  apply (layer_pass_inv (fun ags _ => Forall2 spread_rel (st_agents st) ags)).
  - reflexivity.
  - intros src a0 ags act nb neighbor _ _ H Hnb HS. by eapply infection_spread_rel.
Qed.

Lemma spread_phase_spread_rel layerAdj sr iter ls rnd st :
  Forall2 spread_rel (st_agents st)
    (st_agents (fst (spread_phase layerAdj sr iter ls rnd st))).
Proof.
  apply (spread_phase_inv (fun s => Forall2 spread_rel (st_agents st) (st_agents s))).
  - intros l _ _ rnd' s Hs.
    pose proof (layer_pass_spread_rel layerAdj sr l rnd' s) as H.
    by etrans.
  - reflexivity.
Qed.


Lemma sir_le_rtc s s' : sir_le s s' = true <-> rtc sir_trans s s'.
Proof.
  split.
  - destruct s, s'; cbn; try done; intros _;
      eauto using rtc_refl, rtc_once, rtc_l, trans_infect, trans_recover.
  - intros H. induction H as [s|s1 s2 s3 H12 _ IH]; [by destruct s|].
    destruct H12; by destruct s3.
Qed.

#[local] Instance sir_monotone_preorder : PreOrder sir_monotone.
Proof.
  split.
  - intros a. split; [done|by destruct (state a)].
  - intros a b c [Hi1 H1] [Hi2 H2]. split; [congruence|].
    by destruct (state a), (state b), (state c).
Qed.

Lemma recovery_phase_recovered_only rr ags rnd p :
  Forall2 recovered_only ags (fst (recovery_phase rr ags rnd p)).
Proof.
  revert p. induction ags as [|a ags IH]; intros p; [constructor|].
  cbn [recovery_phase]. unfold rbind at 1.
  destruct (state a) eqn:Es.
  - cbn [rret]. unfold rbind. specialize (IH p).
    destruct (recovery_phase rr ags rnd p) as [rest p']. cbn [rret fst] in *.
    constructor; [by left|done].
  - unfold rbind at 1. cbn [Math_random rret]. unfold rbind. specialize (IH (S p)).
    destruct (recovery_phase rr ags rnd (S p)) as [rest p']. cbn [rret fst] in *.
    constructor; [|done]. destruct (Qltb _ _); [by right|by left].
  - cbn [rret]. unfold rbind. specialize (IH p).
    destruct (recovery_phase rr ags rnd p) as [rest p']. cbn [rret fst] in *.
    constructor; [by left|done].
Qed.

#[local] Instance recover_rel_refl : Reflexive recover_rel.
Proof. intros a. split; auto. Qed.

Lemma recovered_only_recover_rel a a' : recovered_only a a' -> recover_rel a a'.
Proof. intros [->|[H ->]]; split; auto. Qed.

Lemma spread_rel_monotone a a' : spread_rel a a' -> sir_monotone a a'.
Proof.
  intros [Hid [H|[H1 H2]]]; split; try done.
  - rewrite H. by destruct (state a).
  - by rewrite H1, H2.
Qed.

Lemma recover_rel_monotone a a' : recover_rel a a' -> sir_monotone a a'.
Proof.
  intros [Hid [H|[H1 H2]]]; split; try done.
  - rewrite H. by destruct (state a).
  - by rewrite H1, H2.
Qed.


Lemma simulateStep_phases net sr rr iter rnd p :
  exists mid,
    Forall2 spread_rel (agents net) mid /\
    Forall2 recover_rel mid (agents (fst (fst (simulateStep net sr rr iter rnd p)))).
Proof.
  destruct (simulateStep_cases net sr rr iter rnd p)
    as [->|(A & st & r & Hsp & [[_ ->]|[_ ->]])]; cbn [fst agents].
  - exists (agents net). split; reflexivity.
  - exists (st_agents st). split; [|reflexivity].
    pose proof (spread_phase_spread_rel A sr iter (layers net) rnd (mkSt (agents net) [] p)) as H.
    by rewrite Hsp in H.
  - exists (st_agents st). split.
    + pose proof (spread_phase_spread_rel A sr iter (layers net) rnd (mkSt (agents net) [] p)) as H.
      by rewrite Hsp in H.
    + eapply Forall2_impl; [apply recovery_phase_recovered_only|].
      apply recovered_only_recover_rel.
Qed.

Lemma simulateStep_monotone net sr rr iter rnd p :
  Forall2 sir_monotone (agents net)
    (agents (fst (fst (simulateStep net sr rr iter rnd p)))).
Proof.
  destruct (simulateStep_phases net sr rr iter rnd p) as (mid & H1 & H2).
  etrans; (eapply Forall2_impl; [eassumption|]);
    [apply spread_rel_monotone|apply recover_rel_monotone].
Qed.

Lemma simulateSteps_monotone calls net rnd p :
  Forall2 sir_monotone (agents net)
    (agents (fst (fst (simulateSteps calls net rnd p)))).
Proof.
  revert net p. induction calls as [|[[sr rr] iter] calls IH]; intros net p; [reflexivity|].
  cbn [simulateSteps]. unfold rbind.
  pose proof (simulateStep_monotone net sr rr iter rnd p) as H.
  destruct (simulateStep net sr rr iter rnd p) as [r p']. cbn [fst] in H.
  specialize (IH (fst r) p').
  destruct (simulateSteps calls (fst r) rnd p') as [rest p'']. cbn [rret fst] in *.
  by etrans.
Qed.

(** ** Counters and attributions *)

Lemma filter_length_alter_new {A} (P : A -> Prop) `{forall x, Decision (P x)} f i (l : list A) a :
  l !! i = Some a -> ~ P a -> P (f a) ->
  length (filter P (alter f i l)) = S (length (filter P l)).
Proof.
  revert i. induction l as [|b l IH]; intros i Hi Hn Hy; [done|].
  destruct i as [|i]; cbn in Hi.
  - injection Hi as ->. cbn [alter list_alter]. rewrite !filter_cons.
    rewrite decide_True, decide_False by done. done.
  - cbn [alter list_alter]. rewrite !filter_cons.
    specialize (IH i Hi Hn Hy).
    case_decide; cbn [length]; rewrite IH; done.
Qed.

Lemma filter_length_alter_same {A} (P : A -> Prop) `{forall x, Decision (P x)} f i (l : list A) :
  (forall a, P (f a) <-> P a) ->
  length (filter P (alter f i l)) = length (filter P l).
Proof.
  intros Hf. revert i. induction l as [|b l IH]; intros i; [done|].
  destruct i as [|i]; cbn [alter list_alter]; rewrite !filter_cons.
  - destruct (decide (P b)) as [Hb|Hb].
    + rewrite decide_True by (by apply Hf). done.
    + rewrite decide_False by (by rewrite Hf). done.
  - specialize (IH i). case_decide; cbn [length]; rewrite IH; done.
Qed.

Lemma sum_list_with_alter {A} (g : A -> nat) f i (l : list A) a :
  l !! i = Some a ->
  sum_list_with g (alter f i l) + g a = sum_list_with g l + g (f a).
Proof.
  revert i. induction l as [|b l IH]; intros i Hi; [done|].
  destruct i as [|i]; cbn in Hi.
  - injection Hi as ->. cbn. lia.
  - cbn [alter list_alter sum_list_with]. specialize (IH i Hi). lia.
Qed.

Lemma sum_list_alter_S i (c : list nat) :
  i < length c -> sum_list (alter S i c) = S (sum_list c).
Proof.
  revert i. induction c as [|x c IH]; intros i Hi; cbn in Hi; [lia|].
  destruct i as [|i]; cbn [alter list_alter sum_list_with]; [done|].
  rewrite IH by lia. lia.
Qed.

Lemma sum_list_count_incr lid c : sum_list (count_incr lid c) = S (sum_list c).
Proof.
  unfold count_incr. case_bool_decide as Hlt; [by apply sum_list_alter_S|].
  rewrite !sum_list_with_app, sum_list_replicate. cbn. lia.
Qed.

Lemma total_count_bump lid src ags a :
  ags !! src = Some a -> total_count (alter (bump lid) src ags) = S (total_count ags).
Proof.
  intros Ha. unfold total_count.
  pose proof (sum_list_with_alter (fun a => sum_list (infectedCount a)) (bump lid) src ags a Ha) as H.
  cbn [bump infectedCount] in H. rewrite sum_list_count_incr in H. lia.
Qed.

Lemma sum_list_with_alter_same {A} (g : A -> nat) f i (l : list A) :
  (forall a, g (f a) = g a) -> sum_list_with g (alter f i l) = sum_list_with g l.
Proof.
  intros Hf. revert i. induction l as [|b l IH]; intros i; [done|].
  destruct i as [|i]; cbn [alter list_alter sum_list_with]; [by rewrite Hf|].
  by rewrite IH.
Qed.

Lemma total_count_mark lid nb ags :
  total_count (alter (mark_infected lid) nb ags) = total_count ags.
Proof. unfold total_count. by apply sum_list_with_alter_same. Qed.

Lemma infection_lookup lid src nb (ags : list SimAgent) (i : nat) b :
  alter (bump lid) src (alter (mark_infected lid) nb ags) !! i = Some b ->
  exists b0, ags !! i = Some b0 /\ id b = id b0 /\
    state b = (if bool_decide (i = nb) then I_ else state b0) /\
    infectedByLayer b =
      (if bool_decide (i = nb)
       then match infectedByLayer b0 with None => Some lid | Some l => Some l end
       else infectedByLayer b0) /\
    infectedCount b =
      (if bool_decide (i = src) then count_incr lid (infectedCount b0)
       else infectedCount b0).
Proof.
  intros Hb.
  assert (alter (bump lid) src (alter (mark_infected lid) nb ags) !! i =
          (if bool_decide (i = src) then bump lid else fun a => a) <$>
          ((if bool_decide (i = nb) then mark_infected lid else fun a => a) <$>
           ags !! i)) as Heq.
  { repeat case_bool_decide; subst;
      rewrite ?list_lookup_alter_eq, ?list_lookup_alter_ne by congruence;
      rewrite ?list_lookup_alter_eq, ?list_lookup_alter_ne by congruence;
      by destruct (ags !! _). }
  rewrite Heq in Hb. destruct (ags !! i) as [b0|]; [|done].
  exists b0. split; [done|]. cbn in Hb. injection Hb as <-.
  by repeat case_bool_decide.
Qed.

Lemma infection_seeded_inv lid src nb ags a neighbor :
  ags !! src = Some a -> ags !! nb = Some neighbor -> state neighbor = S_ ->
  seeded_inv ags ->
  seeded_inv (alter (bump lid) src (alter (mark_infected lid) nb ags)).
Proof.
  intros Ha Hnb HS [H1 H2].
  assert (infectedByLayer neighbor = None) as Hnone
    by (apply H1; [by eapply list_elem_of_lookup_2|done]).
  split.
  - intros b Hb Hbs. apply list_elem_of_lookup in Hb as [i Hb].
    apply infection_lookup in Hb as (b0 & Hb0 & _ & Hst & Hibl & _).
    case_bool_decide; [congruence|].
    rewrite Hibl. apply H1; [by eapply list_elem_of_lookup_2|congruence].
  - assert (is_Some (alter (mark_infected lid) nb ags !! src)) as [a' Ha'].
    { apply lookup_lt_is_Some. rewrite length_alter. by eapply lookup_lt_Some. }
    rewrite (total_count_bump _ _ _ a' Ha'), total_count_mark, H2.
    unfold num_attributed.
    rewrite filter_length_alter_same by (intros c; by cbn).
    erewrite filter_length_alter_new; [done|exact Hnb| |].
    + unfold attributed. by rewrite Hnone.
    + unfold attributed, mark_infected. cbn. by rewrite Hnone.
Qed.

Lemma layer_pass_seeded_inv layerAdj sr layer :
  preserves (fun s => seeded_inv (st_agents s)) (layer_pass layerAdj sr layer).
Proof.
  intros rnd st H.
  apply (layer_pass_inv
           (fun ags _ => length ags = length (st_agents st) /\ seeded_inv ags)); [done|].
  intros src a0 ags act nb neighbor Ha0 _ [Hlen Hinv] Hnb HS.
  split; [by rewrite !length_alter|].
  assert (is_Some (ags !! src)) as [a Ha].
  { apply lookup_lt_is_Some. rewrite Hlen. by eapply lookup_lt_Some. }
  by eapply infection_seeded_inv.
Qed.

Lemma same_counts_totals ags ags' :
  Forall2 (fun a a' => infectedCount a' = infectedCount a /\
                       infectedByLayer a' = infectedByLayer a) ags ags' ->
  total_count ags' = total_count ags /\ num_attributed ags' = num_attributed ags.
Proof.
  unfold total_count, num_attributed.
  induction 1 as [|a a' ags ags' [Hc Hi] _ [IH1 IH2]]; [done|].
  cbn [sum_list_with]. rewrite !filter_cons, Hc, IH1. split; [done|].
  assert (attributed a' = attributed a) as Hatt by (unfold attributed; by rewrite Hi).
  repeat case_decide; try congruence; cbn [length]; by rewrite IH2.
Qed.

Lemma recovered_only_seeded_inv ags ags' :
  Forall2 recovered_only ags ags' -> seeded_inv ags -> seeded_inv ags'.
Proof.
  intros H [H1 H2]. split.
  - intros a' Ha' HS. apply list_elem_of_lookup in Ha' as [i Ha'].
    destruct (Forall2_lookup_r _ _ _ _ _ H Ha') as (a & Ha & [->|[_ ->]]); [|done].
    apply H1; [by eapply list_elem_of_lookup_2|done].
  - destruct (same_counts_totals ags ags') as [-> ->]; [|done].
    eapply Forall2_impl; [exact H|]. by intros a a' [->|[_ ->]].
Qed.

Lemma simulateStep_seeded_inv net sr rr iter rnd p :
  seeded_inv (agents net) ->
  seeded_inv (agents (fst (fst (simulateStep net sr rr iter rnd p)))).
Proof.
  intros H.
  destruct (simulateStep_cases net sr rr iter rnd p)
    as [->|(A & st & r & Hsp & Hres)]; [done|].
  assert (seeded_inv (st_agents st)) as Hst.
  { pose proof (spread_phase_inv (fun s => seeded_inv (st_agents s)) A sr iter (layers net)) as Hp.
    specialize (Hp (fun l _ _ => layer_pass_seeded_inv A sr l) rnd (mkSt (agents net) [] p) H).
    by rewrite Hsp in Hp. }
  destruct Hres as [[_ ->]|[_ ->]]; cbn [fst agents]; [done|].
  eapply recovered_only_seeded_inv; [apply recovery_phase_recovered_only|done].
Qed.

Lemma simulateSteps_seeded_inv calls net rnd p :
  seeded_inv (agents net) ->
  seeded_inv (agents (fst (fst (simulateSteps calls net rnd p)))).
Proof.
  revert net p. induction calls as [|[[sr rr] iter] calls IH]; intros net p H; [done|].
  cbn [simulateSteps]. unfold rbind.
  pose proof (simulateStep_seeded_inv net sr rr iter rnd p H) as H'.
  destruct (simulateStep net sr rr iter rnd p) as [r p']. cbn [fst] in H'.
  specialize (IH (fst r) p' H').
  by destruct (simulateSteps calls (fst r) rnd p') as [rest p''].
Qed.

(** ** Seeding establishes the invariant *)

Lemma seedInfected_agents fuel net count rnd p net' p' :
  seedInfected fuel net count rnd p = (Some net', p') ->
  exists chosen,
    layers net' = layers net /\
    agents net' = mark_seeds chosen (map (reset_agent (length (layers net))) (agents net)) /\
    NoDup chosen /\ (forall x, x ∈ chosen -> x < length (agents net)) /\
    Z.of_nat (length chosen) = Z.max (Z.min count (Z.of_nat (length (agents net)))) 0.
Proof.
  unfold seedInfected, rbind. rewrite length_map.
  destruct (choose_seeds _ _ _ _ _ _) as [[chosen|] q] eqn:E; [|done].
  intros [= <- <-]. exists chosen.
  apply choose_seeds_spec in E as (Hnd & Hlt & Hlen);
    [|lia|apply NoDup_nil_2|by intros x ?%elem_of_nil].
  cbn [length] in Hlen. repeat split; try done. 
Qed.

Lemma seeded_agent fuel net count rnd p net' p' i a' :
  seedInfected fuel net count rnd p = (Some net', p') ->
  agents net' !! i = Some a' ->
  exists a, agents net !! i = Some a /\ id a' = id a /\
    (state a' = S_ \/ state a' = I_) /\
    infectedByLayer a' = None /\
    infectedCount a' = replicate (length (layers net)) 0.
Proof.
  intros Hrun Ha'. apply seedInfected_agents in Hrun as (chosen & _ & Hags & _).
  rewrite Hags, mark_seeds_lookup, list_lookup_fmap in Ha'.
  destruct (agents net !! i) as [a|]; [|done]. exists a. split; [done|].
  cbn in Ha'. injection Ha' as <-. case_bool_decide; cbn; auto.
Qed.

Lemma seedInfected_seeded_inv fuel net count rnd p net' p' :
  seedInfected fuel net count rnd p = (Some net', p') -> seeded_inv (agents net').
Proof.
  intros Hrun. split.
  - intros a' [i Ha']%list_elem_of_lookup _.
    by destruct (seeded_agent _ _ _ _ _ _ _ _ _ Hrun Ha') as (a & _ & _ & _ & ? & _).
  - assert (Forall (fun a' => infectedByLayer a' = None /\
                      infectedCount a' = replicate (length (layers net)) 0) (agents net')) as H.
    { apply Forall_lookup. intros i a' Ha'.
      by destruct (seeded_agent _ _ _ _ _ _ _ _ _ Hrun Ha') as (a & _ & _ & _ & ? & ?). }
    unfold total_count, num_attributed.
    induction H as [|a' ags [Hi Hc] _ IH]; [done|].
    assert (attributed a' = false) as Hatt by (unfold attributed; by rewrite Hi).
    cbn [sum_list_with]. rewrite filter_cons, Hc, sum_list_replicate, IH.
    rewrite decide_False by congruence. lia.
Qed.

(** ** Layers that do not fire *)

#[local] Instance not_attributed_preorder L : PreOrder (not_attributed L).
Proof.
  split.
  - intros a. split; done.
  - intros a b c [H1 H2] [H3 H4]. split; [congruence|]. by rewrite H4.
Qed.

Lemma count_incr_other lid L c :
  lid <> L -> default 0 (count_incr lid c !! L) = default 0 (c !! L).
Proof.
  intros Hne. unfold count_incr. case_bool_decide as Hlt.
  - by rewrite list_lookup_alter_ne.
  - destruct (decide (L < length c)) as [HL|HL]; [by rewrite lookup_app_l|].
    rewrite lookup_app_r by lia. rewrite (lookup_ge_None_2 c L) by lia. cbn.
    destruct (decide (L - length c < lid - length c)) as [Hk|Hk].
    + rewrite lookup_app_l by (by rewrite length_replicate).
      by rewrite lookup_replicate_2.
    + rewrite lookup_app_r by (rewrite length_replicate; lia).
      rewrite length_replicate. 
      destruct (L - length c - (lid - length c)) as [|k] eqn:E; [lia|done].
Qed.





Lemma fires_spec iter f :
  (1 <= f)%Z -> (1 <= iter)%Z -> fires iter f = true <-> ((iter - 1) mod f = 0)%Z.
Proof.
  intros Hf Hi. unfold fires.
  destruct (Z.eqb_spec f 0) as [->|_]; [lia|].
  rewrite Z.rem_mod_nonneg by lia. apply Z.eqb_eq.
Qed.

(** ** The snapshot of a pass *)

#[local] Instance spread_step_preorder : PreOrder spread_step.
Proof.
  split.
  - intros s. unfold spread_step. reflexivity.
  - intros s1 s2 s3 H1 H2. unfold spread_step in *. by etrans.
Qed.

Lemma try_infect_spread_step lid sr src e rnd s :
  spread_step s (fst (try_infect lid sr src e rnd s)).
Proof.
  unfold spread_step.
  destruct (try_infect_cases lid sr src e rnd s) as [[-> _]|(nb & Hnb & HS & -> & _)];
    [reflexivity|].
  eapply infection_spread_rel; [reflexivity|exact Hnb|exact HS].
Qed.

(** An element [x] of the list of a loop that does not throw is visited;
    before and after its visit the state moves along [R]. *)
Lemma sfor_visit {A} (R : relation StepSt) `{!PreOrder R} (l : list A) body rnd st st' x :
  (forall y rnd s, R s (fst (body y rnd s))) ->
  sfor l body rnd st = (st', Some tt) -> x ∈ l ->
  exists s, R st s /\ snd (body x rnd s) = Some tt /\ R (fst (body x rnd s)) st'.
Proof.
  intros Hbody. revert st. induction l as [|y l IH]; intros st Hrun Hx;
    [by apply elem_of_nil in Hx|].
  cbn [sfor] in Hrun. unfold sbind in Hrun.
  destruct (body y rnd st) as [s1 [[]|]] eqn:E; [|done].
  apply elem_of_cons in Hx as [->|Hx].
  - exists st. rewrite E. cbn [fst snd]. repeat split; [reflexivity|].
    pose proof (preserves_sfor (R s1) l body) as Hp.
    eassert _ as Hall; [|specialize (Hp Hall rnd s1)].
    { intros z _ rnd' s Hs. etrans; [exact Hs|apply Hbody]. }
    rewrite Hrun in Hp. apply Hp. reflexivity.
  - destruct (IH s1 Hrun Hx) as (s & H1 & H2 & H3). exists s. repeat split; try done.
    etrans; [|exact H1]. pose proof (Hbody y rnd st) as H. by rewrite E in H.
Qed.

Lemma spread_rel_not_S ags ags' i b :
  Forall2 spread_rel ags ags' -> ags !! i = Some b -> state b <> S_ ->
  exists b', ags' !! i = Some b' /\ state b' <> S_.
Proof.
  intros H Hb Hs. destruct (Forall2_lookup_l _ _ _ _ _ H Hb) as (b' & Hb' & _ & Hst).
  exists b'. split; [done|]. destruct Hst as [Hst|[Hst _]]; congruence.
Qed.

Lemma try_infect_forced lid sr src nb w rnd s :
  (1 <= sr * w)%Q ->
  snd (try_infect lid sr src (nb, w) rnd s) = Some tt ->
  exists b, st_agents (fst (try_infect lid sr src (nb, w) rnd s)) !! nb = Some b /\
            state b <> S_.
Proof.
  intros Hp. unfold try_infect, sbind. cbn [s_get].
  destruct (st_agents s !! nb) as [neighbor|] eqn:E; [|done].
  destruct (state neighbor) eqn:Es; cbn [sret fst snd];
    try (intros _; exists neighbor; split; [done|congruence]).
  cbn [s_random].
  assert (Qltb (draw_val (rnd (st_pos s))) (sr * w) = true) as ->.
  { apply Qltb_lt. destruct (draw_val_range (rnd (st_pos s))). lra. }
  intros _. cbn [s_modify fst infect st_agents].
  assert (is_Some (alter (bump lid) src (alter (mark_infected lid) nb (st_agents s)) !! nb))
    as [b Hb].
  { apply lookup_lt_is_Some. rewrite !length_alter. by eapply lookup_lt_Some. }
  exists b. split; [done|].
  apply infection_lookup in Hb as (b0 & _ & _ & Hst & _).
  rewrite bool_decide_eq_true_2 in Hst by done. congruence.
Qed.

Lemma layer_pass_body_spread_step (adj : option (list NeighborMap)) lid sr y rnd s :
  spread_step s
    (fst ((let '(src, aid) := y in
           match adj ≫= (fun adj => adj !! aid) with
           | None => sthrow
           | Some neighbors => sfor neighbors (try_infect lid sr src)
           end) rnd s)).
Proof.
  destruct y as [src aid]. destruct (_ ≫= _) as [nbrs|]; [|reflexivity].
  apply (preserves_sfor (spread_step s)); [|reflexivity].
  intros e _ rnd' s' Hs. etrans; [exact Hs|apply try_infect_spread_step].
Qed.

(** With [spreadRate * weight >= 1] every draw succeeds: an agent that is
    infected when the pass of a layer begins infects each of its
    susceptible neighbors of that layer. *)
Lemma layer_pass_forced layerAdj sr layer rnd st st' src a nbrs nb w :
  layer_pass layerAdj sr layer rnd st = (st', Some tt) ->
  st_agents st !! src = Some a -> state a = I_ ->
  (layerAdj !! layer_id layer) ≫= (fun adj => adj !! id a) = Some nbrs ->
  (nb, w) ∈ nbrs -> (1 <= sr * w)%Q ->
  exists b, st_agents st' !! nb = Some b /\ state b <> S_.
Proof.
  intros Hrun Ha Hst Hadj Hnb Hp.
  unfold layer_pass, sbind in Hrun. cbn [s_get] in Hrun.
  eapply (sfor_visit spread_step) in Hrun as (s1 & _ & Hok & Hend);
    [| intros; apply layer_pass_body_spread_step
     | apply (elem_of_infected_from 0 _ src (id a)); exists a;
       rewrite Nat.sub_0_r; repeat split; [lia|done|done] ].
  cbv beta iota in Hok, Hend. rewrite Hadj in Hok, Hend.
  destruct (sfor nbrs (try_infect (layer_id layer) sr src) rnd s1) as [s2 r2] eqn:E.
  cbn [fst snd] in Hok, Hend. subst r2.
  eapply (sfor_visit spread_step) in E as (s3 & _ & Hok3 & Hend3);
    [| intros; apply try_infect_spread_step | exact Hnb].
  destruct (try_infect_forced _ _ _ _ _ _ _ Hp Hok3) as (b & Hb & Hbs).
  destruct (spread_rel_not_S _ _ _ _ Hend3 Hb Hbs) as (b2 & Hb2 & Hbs2).
  exact (spread_rel_not_S _ _ _ _ Hend Hb2 Hbs2).
Qed.

Lemma layer_pass_spreaders layerAdj sr layer rnd st :
  spreaders_in_snapshot (st_agents st)
    (st_agents (fst (layer_pass layerAdj sr layer rnd st))).
Proof.
  apply (layer_pass_inv (fun ags _ => spreaders_in_snapshot (st_agents st) ags)).
  - apply Forall_Forall2_diag, Forall_forall. auto.
  - intros src a0 ags act nb neighbor Ha0 Hst H _ _. unfold spreaders_in_snapshot.
    apply Forall2_alter_r; [apply Forall2_alter_r; [done|]|].
    + intros x y _ _ Hxy. exact Hxy.
    + intros x y Hx _ _. right. congruence.
Qed.

Lemma sfor_app {A} (l1 l2 : list A) body rnd st :
  sfor (l1 ++ l2) body rnd st =
  match sfor l1 body rnd st with
  | (st1, Some _) => sfor l2 body rnd st1
  | (st1, None) => (st1, None)
  end.
Proof.
  revert st. induction l1 as [|x l1 IH]; intros st; [done|].
  cbn [app sfor]. unfold sbind.
  destruct (body x rnd st) as [s [[]|]]; [apply IH|done].
Qed.

Lemma spread_phase_at layerAdj sr iter ls1 layer ls2 rnd st st1 :
  spread_phase layerAdj sr iter ls1 rnd st = (st1, Some tt) ->
  fires iter (frequency layer) = true ->
  spread_phase layerAdj sr iter (ls1 ++ layer :: ls2) rnd st =
  match layer_pass layerAdj sr layer rnd st1 with
  | (st2, Some _) => spread_phase layerAdj sr iter ls2 rnd st2
  | (st2, None) => (st2, None)
  end.
Proof.
  unfold spread_phase. intros H1 Hf. rewrite sfor_app, H1.
  cbn [sfor]. unfold sbind. rewrite Hf. done.
Qed.

(** ** Networks without layers *)

Lemma recovery_phase_no_infected rr ags rnd p :
  (forall a, a ∈ ags -> state a <> I_) -> recovery_phase rr ags rnd p = (ags, p).
Proof.
  revert p. induction ags as [|a ags IH]; intros p H; [done|].
  cbn [recovery_phase]. unfold rbind.
  assert (state a <> I_) as Ha by (apply H; left).
  destruct (state a); [|done|]; cbn [rret];
    rewrite IH by (intros; apply H; by right); done.
Qed.

Lemma simulateStep_no_layers ags sr rr iter rnd p :
  simulateStep (mkNetwork ags []) sr rr iter rnd p =
  ((mkNetwork (fst (recovery_phase rr ags rnd p)) [], Some []),
   snd (recovery_phase rr ags rnd p)).
Proof.
  unfold simulateStep. cbn. by destruct (recovery_phase rr ags rnd p).
Qed.

Lemma buildNetwork_no_layers n rnd p :
  buildNetwork n [] rnd p = (mkNetwork (map (fresh_agent 0) (range 0 n)) [], p).
Proof. reflexivity. Qed.

Lemma simulateSteps_fresh calls n rnd p :
  fst (fst (simulateSteps calls (mkNetwork (map (fresh_agent 0) (range 0 n)) []) rnd p))
  = mkNetwork (map (fresh_agent 0) (range 0 n)) [].
Proof.
  revert p. induction calls as [|[[sr rr] iter] calls IH]; intros p; [done|].
  cbn [simulateSteps]. unfold rbind. rewrite simulateStep_no_layers.
  rewrite recovery_phase_no_infected by (by intros a [i [-> _]]%list_elem_of_fmap).
  cbn [fst snd]. specialize (IH p).
  by destruct (simulateSteps calls _ rnd p) as [rest p''].
Qed.

End StepEngine.

Section Determinism.

Implicit Types (rnd : nat -> Draw) (net : SimNetwork).

(** ** Dependence on the draws *)

Lemma agree_weaken rnd1 rnd2 lo hi lo' hi' :
  lo <= lo' -> hi' <= hi -> agree rnd1 rnd2 lo hi -> agree rnd1 rnd2 lo' hi'.
Proof. intros H1 H2 H i Hi. apply H. lia. Qed.

Lemma rlocal_rret {A} (a : A) : rlocal (rret a).
Proof. intros rnd1 p. split; [done|]. intros rnd2 _. reflexivity. Qed.

Lemma rlocal_random : rlocal Math_random.
Proof.
  intros rnd1 p. split; [cbn; lia|]. intros rnd2 H. unfold Math_random.
  rewrite (H p); [done|]. cbn. lia.
Qed.

Lemma rlocal_rbind {A B} (m : Rand A) (k : A -> Rand B) :
  rlocal m -> (forall a, rlocal (k a)) -> rlocal (rbind m k).
Proof.
  intros Hm Hk rnd1 p. unfold rbind.
  destruct (Hm rnd1 p) as [Hle Heq].
  destruct (m rnd1 p) as [a p1] eqn:E. cbn [snd] in *.
  destruct (Hk a rnd1 p1) as [Hle' Heq'].
  split; [lia|]. intros rnd2 H.
  rewrite Heq by (eapply agree_weaken; [| |exact H]; lia).
  apply Heq'. eapply agree_weaken; [| |exact H]; lia.
Qed.

Lemma rlocal_rfor {A B} (l : list A) (acc : B) body :
  (forall acc x, rlocal (body acc x)) -> rlocal (rfor l acc body).
Proof.
  intros Hbody. revert acc. induction l as [|x l IH]; intros acc; [apply rlocal_rret|].
  cbn [rfor]. apply rlocal_rbind; [apply Hbody|]. intros acc'. apply IH.
Qed.

Lemma slocal_sret {A} (a : A) : slocal (sret a).
Proof. intros rnd1 st. split; [done|]. intros rnd2 _. reflexivity. Qed.

Lemma slocal_sthrow {A} : slocal (@sthrow A).
Proof. intros rnd1 st. split; [done|]. intros rnd2 _. reflexivity. Qed.

Lemma slocal_get : slocal s_get.
Proof. intros rnd1 st. split; [done|]. intros rnd2 _. reflexivity. Qed.

Lemma slocal_random : slocal s_random.
Proof.
  intros rnd1 st. split; [cbn; lia|]. intros rnd2 H. unfold s_random.
  rewrite (H (st_pos st)); [done|]. cbn. lia.
Qed.

Lemma slocal_modify f : (forall st, st_pos (f st) = st_pos st) -> slocal (s_modify f).
Proof.
  intros Hf rnd1 st. split; [cbn; by rewrite Hf|]. intros rnd2 _. reflexivity.
Qed.

Lemma slocal_sbind {A B} (m : Step A) (k : A -> Step B) :
  slocal m -> (forall a, slocal (k a)) -> slocal (sbind m k).
Proof.
  intros Hm Hk rnd1 st. unfold sbind.
  destruct (Hm rnd1 st) as [Hle Heq].
  destruct (m rnd1 st) as [s1 [a|]] eqn:E; cbn [fst] in *.
  - destruct (Hk a rnd1 s1) as [Hle' Heq'].
    split; [lia|]. intros rnd2 H.
    rewrite Heq by (eapply agree_weaken; [| |exact H]; lia).
    apply Heq'. eapply agree_weaken; [| |exact H]; lia.
  - split; [done|]. intros rnd2 H. by rewrite Heq.
Qed.

Lemma slocal_sfor {A} (l : list A) body :
  (forall x, slocal (body x)) -> slocal (sfor l body).
Proof.
  intros Hbody. induction l as [|x l IH]; [apply slocal_sret|].
  cbn [sfor]. apply slocal_sbind; [apply Hbody|]. intros _. apply IH.
Qed.

Ltac local_step :=
  first [ apply rlocal_rbind | apply rlocal_rfor | apply rlocal_rret | apply rlocal_random
        | apply slocal_sbind | apply slocal_sfor | apply slocal_sret
        | apply slocal_sthrow | apply slocal_get | apply slocal_random
        | progress intros
        | match goal with |- context [if ?b then _ else _] => destruct b end
        | match goal with |- context [match ?x with _ => _ end] => destruct x end ].

Lemma rlocal_draw_weight : rlocal draw_weight.
Proof. unfold draw_weight. repeat local_step. Qed.

Lemma rlocal_random_index n : rlocal (random_index n).
Proof. unfold random_index. repeat local_step. Qed.

Lemma rlocal_buildRandomLayer n c : rlocal (buildRandomLayer n c).
Proof.
  unfold buildRandomLayer. repeat local_step.
Qed.

Lemma rlocal_edgesOfAdj n adj : rlocal (edgesOfAdj n adj).
Proof. unfold edgesOfAdj. repeat local_step. Qed.

Lemma rlocal_pick_target left n adj i newJ : rlocal (pick_target left n adj i newJ).
Proof.
  revert newJ. induction left as [|left IH]; intros newJ; cbn [pick_target];
    destruct (_ || _); try apply rlocal_rret.
  apply rlocal_rbind; [apply rlocal_random_index|]. intros; apply IH.
Qed.

Lemma rlocal_rewire n k adj : rlocal (rewire n k adj).
Proof.
  unfold rewire. do 6 local_step. destruct (Qltb _ _); [|apply rlocal_rret].
  apply rlocal_rbind; [apply rlocal_random_index|]. intros newJ.
  apply rlocal_rbind; [apply rlocal_pick_target|]. intros newJ'.
  destruct (_ && _); apply rlocal_rret.
Qed.

Lemma rlocal_buildSmallWorldLayer n c : rlocal (buildSmallWorldLayer n c).
Proof.
  unfold buildSmallWorldLayer. apply rlocal_rbind; [apply rlocal_rewire|].
  intros; apply rlocal_edgesOfAdj.
Qed.

Lemma rlocal_attach_loop left m i st : rlocal (attach_loop left m i st).
Proof.
  revert st. induction left as [|left IH]; intros st; cbn [attach_loop];
    [apply rlocal_rret|].
  destruct (_ <? _)%Z; [|apply rlocal_rret].
  apply rlocal_rbind; [apply rlocal_random|]. intros r.
  destruct (attach_target _ _ _ _ _ _); apply IH.
Qed.

Lemma rlocal_buildScaleFreeLayer n c : rlocal (buildScaleFreeLayer n c).
Proof.
  unfold buildScaleFreeLayer. apply rlocal_rbind.
  - unfold preferential. apply rlocal_rfor. intros [adj degrees] i.
    apply rlocal_rbind; [apply rlocal_attach_loop|]. intros; apply rlocal_rret.
  - intros; apply rlocal_edgesOfAdj.
Qed.

Lemma rlocal_buildLayer idx n cfg : rlocal (buildLayer idx n cfg).
Proof.
  unfold buildLayer. apply rlocal_rbind; [|intros; apply rlocal_rret].
  destruct (topology cfg);
    [apply rlocal_buildRandomLayer|apply rlocal_buildSmallWorldLayer
    |apply rlocal_buildScaleFreeLayer].
Qed.

Lemma rlocal_buildLayers idx n cfgs : rlocal (buildLayers idx n cfgs).
Proof.
  revert idx. induction cfgs as [|cfg cfgs IH]; intros idx; cbn [buildLayers];
    [apply rlocal_rret|].
  apply rlocal_rbind; [apply rlocal_buildLayer|]. intros l.
  apply rlocal_rbind; [apply IH|]. intros; apply rlocal_rret.
Qed.

Lemma rlocal_buildNetwork n cfgs : rlocal (buildNetwork n cfgs).
Proof.
  unfold buildNetwork. apply rlocal_rbind; [apply rlocal_buildLayers|].
  intros; apply rlocal_rret.
Qed.

Lemma rlocal_choose_seeds fuel n sc chosen : rlocal (choose_seeds fuel n sc chosen).
Proof.
  revert chosen. induction fuel as [|fuel IH]; intros chosen; cbn [choose_seeds];
    destruct (_ <? _)%Z; try apply rlocal_rret.
  apply rlocal_rbind; [apply rlocal_random_index|]. intros; apply IH.
Qed.

Lemma rlocal_seedInfected fuel net count : rlocal (seedInfected fuel net count).
Proof.
  unfold seedInfected. apply rlocal_rbind; [apply rlocal_choose_seeds|].
  intros [chosen|]; apply rlocal_rret.
Qed.

Lemma rlocal_recovery_phase rr ags : rlocal (recovery_phase rr ags).
Proof.
  induction ags as [|a ags IH]; cbn [recovery_phase]; [apply rlocal_rret|].
  apply rlocal_rbind.
  - destruct (state a); try apply rlocal_rret.
    apply rlocal_rbind; [apply rlocal_random|]. intros; apply rlocal_rret.
  - intros a'. apply rlocal_rbind; [apply IH|]. intros; apply rlocal_rret.
Qed.

Lemma slocal_try_infect lid sr src e : slocal (try_infect lid sr src e).
Proof.
  destruct e as [nb w]. unfold try_infect.
  apply slocal_sbind; [apply slocal_get|]. intros st.
  destruct (st_agents st !! nb) as [neighbor|]; [|apply slocal_sthrow].
  destruct (state neighbor); try apply slocal_sret.
  apply slocal_sbind; [apply slocal_random|]. intros r.
  destruct (Qltb _ _); [|apply slocal_sret].
  by apply slocal_modify.
Qed.

Lemma slocal_layer_pass layerAdj sr layer : slocal (layer_pass layerAdj sr layer).
Proof.
  unfold layer_pass. apply slocal_sbind; [apply slocal_get|]. intros st.
  apply slocal_sfor. intros [src aid].
  destruct (_ ≫= _); [|apply slocal_sthrow].
  apply slocal_sfor. intros e. apply slocal_try_infect.
Qed.

Lemma slocal_spread_phase layerAdj sr iter ls : slocal (spread_phase layerAdj sr iter ls).
Proof.
  unfold spread_phase. apply slocal_sfor. intros l.
  destruct (fires _ _); [apply slocal_layer_pass|apply slocal_sret].
Qed.

Lemma rlocal_simulateStep net sr rr iter : rlocal (simulateStep net sr rr iter).
Proof.
  intros rnd1 p. unfold simulateStep.
  destruct (mapM _ _) as [layerAdj|]; [|split; [done|by intros]].
  destruct (slocal_spread_phase layerAdj sr iter (layers net) rnd1 (mkSt (agents net) [] p))
    as [Hle Heq].
  destruct (spread_phase layerAdj sr iter (layers net) rnd1 _) as [st [[]|]] eqn:E;
    cbn [fst st_pos] in *.
  - destruct (rlocal_recovery_phase rr (st_agents st) rnd1 (st_pos st)) as [Hle' Heq'].
    destruct (recovery_phase rr (st_agents st) rnd1 (st_pos st)) as [ags' p'] eqn:E'.
    cbn [snd] in *. split; [lia|]. intros rnd2 H.
    rewrite Heq by (eapply agree_weaken; [| |exact H]; lia).
    rewrite Heq' by (eapply agree_weaken; [| |exact H]; lia). done.
  - cbn [snd]. split; [done|]. intros rnd2 H. by rewrite Heq.
Qed.

Lemma rlocal_simulateSteps calls net : rlocal (simulateSteps calls net).
Proof.
  revert net. induction calls as [|[[sr rr] iter] calls IH]; intros net;
    cbn [simulateSteps]; [apply rlocal_rret|].
  apply rlocal_rbind; [apply rlocal_simulateStep|]. intros r.
  apply rlocal_rbind; [apply IH|]. intros; apply rlocal_rret.
Qed.

Lemma rlocal_run fuel n cfgs count calls : rlocal (run fuel n cfgs count calls).
Proof.
  unfold run. apply rlocal_rbind; [apply rlocal_buildNetwork|]. intros net.
  apply rlocal_rbind; [apply rlocal_seedInfected|]. intros [net'|]; [|apply rlocal_rret].
  apply rlocal_rbind; [apply rlocal_simulateSteps|]. intros; apply rlocal_rret.
Qed.

End Determinism.

(* ===================================================================== *)
(** * Further properties: proofs *)

Section Safety.

Implicit Types (rnd : nat -> Draw) (ags : list SimAgent) (net : SimNetwork)
  (st : StepSt) (layerAdj : list (list NeighborMap)) (sr rr : Q).

(** ** Steps that do not throw *)

Lemma safe_sret {A} I (a : A) : safe I (sret a).
Proof. intros rnd st H. split; done. Qed.

Lemma safe_sbind {A B} I (m : Step A) (k : A -> Step B) :
  safe I m -> (forall a, safe I (k a)) -> safe I (sbind m k).
Proof.
  intros Hm Hk rnd st H. unfold sbind.
  destruct (Hm rnd st H) as [H1 H2].
  destruct (m rnd st) as [st' [a|]]; [|done]. by apply Hk.
Qed.

Lemma safe_sfor {A} I (l : list A) body :
  (forall x, x ∈ l -> safe I (body x)) -> safe I (sfor l body).
Proof.
  induction l as [|x l IH]; intros Hbody; [apply safe_sret|].
  cbn [sfor]. apply safe_sbind; [apply Hbody; left|].
  intros _. apply IH. intros y Hy. apply Hbody. by right.
Qed.

Lemma elem_of_map_set k v (m : NeighborMap) x :
  x ∈ map_set k v m -> x = (k, v) \/ x ∈ m.
Proof.
  induction m as [|[k' v'] m IH]; cbn [map_set].
  - intros ->%list_elem_of_singleton. by left.
  - case_bool_decide.
    + intros [->|Hx]%elem_of_cons; [by left|right; by right].
    + intros [->|Hx]%elem_of_cons; [right; left|].
      destruct (IH Hx) as [->|?]; [by left|right; by right].
Qed.

Lemma buildAdj_ok n es :
  edges_in_range n es -> exists adj, buildAdj n es = Some adj /\ adj_ok n adj.
Proof.
  unfold buildAdj.
  assert (adj_ok n (replicate n [])) as H0.
  { split; [apply length_replicate|]. intros i row x [-> _]%lookup_replicate Hx.
    by apply elem_of_nil in Hx. }
  revert H0. generalize (replicate n ([] : NeighborMap)).
  induction es as [|e es IH]; intros adj Hadj Hes; [by exists adj|].
  cbn [foldl]. destruct (Hes e) as [Hs Ht]; [left|].
  destruct Hadj as [Hlen Hkeys].
  destruct (lookup_lt_is_Some_2 adj (source e)) as [row Hrow]; [lia|].
  rewrite Hrow. apply IH; [|intros e' He'; apply Hes; by right].
  split; [by rewrite length_insert|].
  intros i row' x Hi Hx. destruct (decide (i = source e)) as [->|Hne].
  - rewrite list_lookup_insert_eq in Hi by lia. injection Hi as <-.
    apply elem_of_map_set in Hx as [->|Hx]; [done|by eapply Hkeys].
  - rewrite list_lookup_insert_ne in Hi by done. by eapply Hkeys.
Qed.

Lemma try_infect_safe n lid sr src e :
  fst e < n -> safe (ids_inv n) (try_infect lid sr src e).
Proof.
  intros He rnd st [Hlen Hids].
  destruct (lookup_lt_is_Some_2 (st_agents st) (fst e)) as [nbr Hnbr]; [lia|].
  split.
  - unfold ids_inv.
    destruct (try_infect_cases lid sr src e rnd st) as [[-> _]|(nb & _ & _ & -> & _)];
      [done|].
    split; [by rewrite !length_alter|].
    intros i a Ha. apply infection_lookup in Ha as (b0 & Hb0 & -> & _). by apply Hids.
  - destruct e as [nb w]. unfold try_infect, sbind. cbn [s_get fst] in *.
    rewrite Hnbr. destruct (state nbr); try done.
    cbn [s_random]. by destruct (Qltb _ _).
Qed.

Lemma layer_pass_safe n layerAdj sr layer :
  Forall (adj_ok n) layerAdj -> layer_id layer < length layerAdj ->
  safe (ids_inv n) (layer_pass layerAdj sr layer).
Proof.
  intros Hall Hlid rnd st Hst. unfold layer_pass, sbind. cbn [s_get].
  destruct (lookup_lt_is_Some_2 layerAdj (layer_id layer) Hlid) as [adj Hadj].
  rewrite Hadj. cbn [mbind option_bind].
  assert (adj_ok n adj) as [Hlen Hkeys].
  { rewrite Forall_forall in Hall. apply Hall. by eapply list_elem_of_lookup_2. }
  apply safe_sfor; [|exact Hst].
  intros [src aid] Hin. apply elem_of_infected_from in Hin as (a & _ & Ha & _ & Hid).
  rewrite Nat.sub_0_r in Ha. destruct Hst as [Hn Hids].
  assert (aid < n) as Haid.
  { rewrite <- Hid, (Hids src a Ha), <- Hn. by eapply lookup_lt_Some. }
  destruct (lookup_lt_is_Some_2 adj aid) as [nbrs Hnbrs]; [lia|].
  rewrite Hnbrs. apply safe_sfor. intros e He. apply try_infect_safe.
  by eapply Hkeys.
Qed.

Lemma spread_phase_safe n layerAdj sr iter ls :
  Forall (adj_ok n) layerAdj ->
  (forall l, l ∈ ls -> layer_id l < length layerAdj) ->
  safe (ids_inv n) (spread_phase layerAdj sr iter ls).
Proof.
  intros Hall Hls. unfold spread_phase. apply safe_sfor. intros l Hl.
  destruct (fires _ _); [|apply safe_sret]. apply layer_pass_safe; auto.
Qed.

Lemma wf_layerAdj net :
  wf_network net ->
  exists layerAdj,
    mapM (fun layer => buildAdj (length (agents net)) (edges layer)) (layers net)
    = Some layerAdj /\
    length layerAdj = length (layers net) /\
    Forall (adj_ok (length (agents net))) layerAdj.
Proof.
  intros [_ Hl].
  assert (Forall (edges_in_range (length (agents net))) (map edges (layers net))) as H.
  { apply Forall_fmap, Forall_lookup. intros i l Hi. by apply (Hl i l). }
  clear Hl. induction (layers net) as [|l ls IH]; [by exists []|].
  apply Forall_cons in H as [H1 H2].
  destruct (IH H2) as (A & HA & Hlen & Hok).
  destruct (buildAdj_ok _ _ H1) as (adj & Hadj & Hadj_ok).
  exists (adj :: A). cbn [mapM]. rewrite Hadj, HA. cbn.
  repeat split; [by rewrite Hlen|by constructor].
Qed.

Lemma simulateStep_layers net sr rr iter rnd p :
  layers (fst (fst (simulateStep net sr rr iter rnd p))) = layers net.
Proof.
  destruct (simulateStep_cases net sr rr iter rnd p)
    as [->|(A & st & r & _ & [[_ ->]|[_ ->]])]; done.
Qed.

Lemma simulateStep_wf net sr rr iter rnd p :
  wf_network net -> wf_network (fst (fst (simulateStep net sr rr iter rnd p))).
Proof.
  intros [Hids Hls].
  pose proof (simulateStep_monotone net sr rr iter rnd p) as Hmono.
  pose proof (Forall2_length _ _ _ Hmono) as Hlen.
  split.
  - intros i a' Ha'. destruct (Forall2_lookup_r _ _ _ _ _ Hmono Ha') as (a & Ha & [-> _]).
    by apply Hids.
  - rewrite simulateStep_layers, <- Hlen. exact Hls.
Qed.

Lemma simulateStep_safe net sr rr iter rnd p :
  wf_network net -> is_Some (snd (fst (simulateStep net sr rr iter rnd p))).
Proof.
  intros Hwf. destruct (wf_layerAdj net Hwf) as (A & HA & Hlen & Hok).
  unfold simulateStep. rewrite HA.
  destruct (spread_phase_safe (length (agents net)) A sr iter (layers net) Hok)
    with (rnd := rnd) (st := mkSt (agents net) [] p) as [_ Hsome].
  - intros l [i Hi]%list_elem_of_lookup. destruct Hwf as [_ Hl].
    destruct (Hl i l Hi) as [-> _]. rewrite Hlen. by eapply lookup_lt_Some.
  - split; [done|]. by destruct Hwf.
  - destruct (spread_phase _ _ _ _ _ _) as [st [[]|]]; [|done].
    by destruct (recovery_phase _ _ _ _).
Qed.

End Safety.

Section Structure.

Implicit Types (rnd : nat -> Draw) (es : list SimEdge) (adj : Adj) (c : Q)
  (net : SimNetwork).

(** ** The edges of a generated layer *)

Lemma edges_in_range_push n es i j w :
  i < n -> j < n -> edges_in_range n es -> edges_in_range n (push_pair es i j w).
Proof.
  intros Hi Hj Hes e. unfold push_pair.
  rewrite elem_of_app, !elem_of_cons, elem_of_nil.
  intros [He|[->|[->|[]]]]; [by apply Hes|done|done].
Qed.

Lemma buildRandomLayer_in_range n c rnd p :
  edges_in_range n (fst (buildRandomLayer n c rnd p)).
Proof.
  unfold buildRandomLayer. apply rfor_inv; [by intros e ?%elem_of_nil|].
  intros es i rnd1 p1 Hi Hes. apply rfor_inv; [done|].
  intros es2 j rnd2 p2 Hj Hes2. unfold range in Hi, Hj.
  apply elem_of_seq in Hi, Hj.
  unfold rbind at 1. cbn [Math_random]. destruct (Qltb _ _); [|done].
  unfold rbind. rewrite draw_weight_eq. cbn [rret fst].
  apply edges_in_range_push; [lia|lia|done].
Qed.

Lemma edgesOfAdj_in_range n adj rnd p :
  edges_in_range n (fst (edgesOfAdj n adj rnd p)).
Proof.
  unfold edgesOfAdj. apply rfor_inv; [by intros e ?%elem_of_nil|].
  intros es i rnd1 p1 Hi Hes. apply rfor_inv; [done|].
  intros es2 j rnd2 p2 Hj Hes2. unfold range in Hi, Hj.
  apply elem_of_seq in Hi, Hj.
  destruct (adj_get _ _ _); [|done].
  unfold rbind. rewrite draw_weight_eq. cbn [rret fst].
  apply edges_in_range_push; [lia|lia|done].
Qed.

Lemma buildRandomLayer_inv n c rnd p : emit_inv n 0 (fst (buildRandomLayer n c rnd p)).
Proof.
  unfold buildRandomLayer, range.
  pose proof (rfor_seq_inv (fun i es => emit_inv i 0 es) 0 (n - 0)) as H.
  replace (0 + (n - 0)) with n in H by lia. apply H; clear H.
  - split; [constructor|]. unfold no_duplicate. cbn. apply NoDup_nil_2.
  - intros i es rnd' p' Hi Hes.
    eapply (emit_inv_weaken i); [unfold emitted; intros e; lia|].
    apply (rfor_seq_inv (fun j es => emit_inv i j es)).
    + revert Hes. apply emit_inv_weaken. unfold emitted. intros e. lia.
    + intros j es2 rnd2 p2 Hj Hes2.
      unfold rbind at 1. cbn [Math_random]. destruct (Qltb _ _).
      * unfold rbind. rewrite draw_weight_eq. cbn [rret fst].
        apply emit_inv_push; [lia|done].
      * cbn [rret fst]. revert Hes2. apply emit_inv_weaken. unfold emitted. intros e. lia.
Qed.

(** The edges of a layer, for each topology, as the result of the
    generator. *)
Lemma buildLayer_edges idx n cfg rnd p :
  edges (fst (buildLayer idx n cfg rnd p)) =
  fst (match topology cfg with
       | smallworld => buildSmallWorldLayer n (connectivity cfg) rnd p
       | scalefree => buildScaleFreeLayer n (connectivity cfg) rnd p
       | random => buildRandomLayer n (connectivity cfg) rnd p
       end).
Proof.
  unfold buildLayer, rbind.
  destruct (topology cfg);
    [by destruct (buildRandomLayer _ _ _ _)
    |by destruct (buildSmallWorldLayer _ _ _ _)
    |by destruct (buildScaleFreeLayer _ _ _ _)].
Qed.

Lemma buildLayer_fields idx n cfg rnd p :
  layer_id (fst (buildLayer idx n cfg rnd p)) = idx /\
  layer_connectivity (fst (buildLayer idx n cfg rnd p)) = connectivity cfg /\
  frequency (fst (buildLayer idx n cfg rnd p)) = cfg_frequency cfg.
Proof.
  unfold buildLayer, rbind.
  destruct (topology cfg);
    [by destruct (buildRandomLayer _ _ _ _)
    |by destruct (buildSmallWorldLayer _ _ _ _)
    |by destruct (buildScaleFreeLayer _ _ _ _)].
Qed.

Lemma buildLayer_simple idx n cfg rnd p :
  edges_in_range n (edges (fst (buildLayer idx n cfg rnd p))) /\
  emit_inv n 0 (edges (fst (buildLayer idx n cfg rnd p))).
Proof.
  rewrite buildLayer_edges. destruct (topology cfg).
  - split; [apply buildRandomLayer_in_range|apply buildRandomLayer_inv].
  - unfold buildSmallWorldLayer, rbind. destruct (rewire _ _ _ _ _) as [adj p'].
    split; [apply edgesOfAdj_in_range|apply edgesOfAdj_inv].
  - unfold buildScaleFreeLayer, rbind. destruct (preferential _ _ _ _ _ _) as [st p'].
    split; [apply edgesOfAdj_in_range|apply edgesOfAdj_inv].
Qed.

Lemma buildLayers_lookup idx n cfgs rnd p i l :
  fst (buildLayers idx n cfgs rnd p) !! i = Some l ->
  exists cfg q, cfgs !! i = Some cfg /\ l = fst (buildLayer (idx + i) n cfg rnd q).
Proof.
  revert idx p i. induction cfgs as [|cfg cfgs IH]; intros idx p i; cbn [buildLayers].
  - by rewrite lookup_nil.
  - unfold rbind. destruct (buildLayer idx n cfg rnd p) as [l0 p1] eqn:E0.
    specialize (IH (S idx) p1).
    destruct (buildLayers (S idx) n cfgs rnd p1) as [ls p2]. cbn [rret fst] in *.
    destruct i as [|i]; cbn.
    + intros [= <-]. exists cfg, p. rewrite Nat.add_0_r, E0. done.
    + intros Hl. destruct (IH i Hl) as (cfg' & q & Hc & ->).
      exists cfg', q. split; [done|]. f_equal. f_equal. lia.
Qed.

Lemma buildLayers_length idx n cfgs rnd p :
  length (fst (buildLayers idx n cfgs rnd p)) = length cfgs.
Proof.
  revert idx p. induction cfgs as [|cfg cfgs IH]; intros idx p; cbn [buildLayers]; [done|].
  unfold rbind. destruct (buildLayer idx n cfg rnd p) as [l0 p1].
  specialize (IH (S idx) p1).
  destruct (buildLayers (S idx) n cfgs rnd p1) as [ls p2]. cbn in *. by rewrite IH.
Qed.

Lemma buildNetwork_eq n cfgs rnd p :
  fst (buildNetwork n cfgs rnd p) =
  mkNetwork (map (fresh_agent (length cfgs)) (range 0 n))
            (fst (buildLayers 0 n cfgs rnd p)).
Proof.
  unfold buildNetwork, rbind. by destruct (buildLayers 0 n cfgs rnd p).
Qed.

Lemma fresh_agents_lookup k n i a :
  map (fresh_agent k) (range 0 n) !! i = Some a -> a = fresh_agent k i /\ i < n.
Proof.
  unfold range. rewrite list_lookup_fmap. rewrite Nat.sub_0_r.
  destruct (seq 0 n !! i) as [j|] eqn:E; [|done].
  apply lookup_seq in E as [-> ?]. cbn. by intros [= <-].
Qed.

Lemma buildNetwork_wf n cfgs rnd p : wf_network (fst (buildNetwork n cfgs rnd p)).
Proof.
  rewrite buildNetwork_eq. split; cbn [agents layers].
  - intros i a [-> _]%fresh_agents_lookup. done.
  - intros i l Hl. apply buildLayers_lookup in Hl as (cfg & q & _ & ->).
    split; [apply buildLayer_fields|].
    rewrite length_map. unfold range. rewrite length_seq, Nat.sub_0_r.
    apply buildLayer_simple.
Qed.

Lemma seedInfected_wf fuel net count rnd p net' p' :
  seedInfected fuel net count rnd p = (Some net', p') ->
  wf_network net -> wf_network net'.
Proof.
  intros Hrun [Hids Hls].
  pose proof (seedInfected_agents _ _ _ _ _ _ _ Hrun) as (chosen & Hl & Hags & _).
  assert (length (agents net') = length (agents net)) as Hlen
    by (by rewrite Hags, mark_seeds_length, length_map).
  split.
  - intros i a' Ha'.
    destruct (seeded_agent _ _ _ _ _ _ _ i a' Hrun Ha') as (a & Ha & -> & _).
    by apply Hids.
  - rewrite Hl, Hlen. exact Hls.
Qed.

End Structure.

Section Counters.

Implicit Types (rnd : nat -> Draw) (ags : list SimAgent) (net : SimNetwork)
  (st : StepSt) (layerAdj : list (list NeighborMap)) (sr rr : Q).

(** ** The size of the counter arrays *)

Lemma count_incr_length lid (c : list nat) :
  lid < length c -> length (count_incr lid c) = length c.
Proof. intros H. unfold count_incr. rewrite bool_decide_eq_true_2 by done. apply length_alter. Qed.

Lemma layer_pass_counts_sized k layerAdj sr layer :
  layer_id layer < k ->
  preserves (fun s => Forall (fun a => length (infectedCount a) = k) (st_agents s))
            (layer_pass layerAdj sr layer).
Proof.
  intros Hk rnd st H.
  apply (layer_pass_inv (fun ags _ => Forall (fun a => length (infectedCount a) = k) ags));
    [done|].
  intros src a0 ags act nb neighbor _ _ Hags _ _.
  apply Forall_lookup. intros i b Hb.
  apply infection_lookup in Hb as (b0 & Hb0 & _ & _ & _ & ->).
  rewrite Forall_lookup in Hags. specialize (Hags i b0 Hb0).
  case_bool_decide; [|done]. rewrite count_incr_length; [done|lia].
Qed.

Lemma simulateStep_counts_sized net sr rr iter rnd p :
  wf_network net -> counts_sized net ->
  counts_sized (fst (fst (simulateStep net sr rr iter rnd p))).
Proof.
  intros [_ Hls] Hc. unfold counts_sized. rewrite simulateStep_layers.
  apply Forall_forall in Hc. apply Forall_forall.
  destruct (simulateStep_cases net sr rr iter rnd p)
    as [->|(A & st & r & Hsp & Hres)]; [done|].
  assert (Forall (fun a => length (infectedCount a) = length (layers net)) (st_agents st))
    as Hst.
  { pose proof (spread_phase_inv
        (fun s => Forall (fun a => length (infectedCount a) = length (layers net))
                         (st_agents s)) A sr iter (layers net)) as Hp.
    eassert _ as Hpass; [|specialize (Hp Hpass rnd (mkSt (agents net) [] p) Hc)].
    { intros l [i Hi]%list_elem_of_lookup _. apply layer_pass_counts_sized.
      destruct (Hls i l Hi) as [-> _]. by eapply lookup_lt_Some. }
    by rewrite Hsp in Hp. }
  destruct Hres as [[_ ->]|[_ ->]]; cbn [fst agents]; [done|].
  apply Forall_lookup. intros i a' Ha'.
  destruct (Forall2_lookup_r _ _ _ _ _
              (recovery_phase_recovered_only rr (st_agents st) rnd (st_pos st)) Ha')
    as (a & Ha & Hrel).
  rewrite Forall_lookup in Hst. specialize (Hst i a Ha).
  by destruct Hrel as [->|[_ ->]].
Qed.

Lemma buildNetwork_counts_sized n cfgs rnd p :
  counts_sized (fst (buildNetwork n cfgs rnd p)).
Proof.
  rewrite buildNetwork_eq. intros a [i Ha]%list_elem_of_lookup. cbn [agents layers] in *.
  apply fresh_agents_lookup in Ha as [-> _]. cbn.
  by rewrite length_replicate, buildLayers_length.
Qed.

Lemma seedInfected_counts_sized fuel net count rnd p net' p' :
  seedInfected fuel net count rnd p = (Some net', p') -> counts_sized net'.
Proof.
  intros Hrun a' [i Ha']%list_elem_of_lookup.
  destruct (seeded_agent _ _ _ _ _ _ _ i a' Hrun Ha') as (a & _ & _ & _ & _ & ->).
  destruct (seedInfected_agents _ _ _ _ _ _ _ Hrun) as (chosen & -> & _).
  apply length_replicate.
Qed.

(** ** The extreme rates *)

(** With [recoveryRate >= 1] every infected agent recovers. *)
Lemma recovery_phase_all rr ags rnd p :
  (1 <= rr)%Q -> num_in I_ (fst (recovery_phase rr ags rnd p)) = 0.
Proof.
  intros Hrr. apply num_in_absent. revert p.
  induction ags as [|a ags IH]; intros p b; cbn [recovery_phase].
  - cbn. by intros ?%elem_of_nil.
  - unfold rbind at 1. destruct (state a) eqn:Es.
    + cbn [rret]. unfold rbind. specialize (IH p).
      destruct (recovery_phase rr ags rnd p) as [rest p']. cbn [rret fst] in *.
      intros [->|Hb]%elem_of_cons; [congruence|by apply IH].
    + unfold rbind at 1. cbn [Math_random rret]. unfold rbind. specialize (IH (S p)).
      destruct (recovery_phase rr ags rnd (S p)) as [rest p']. cbn [rret fst] in *.
      assert (Qltb (draw_val (rnd p)) rr = true) as ->.
      { apply Qltb_lt. destruct (draw_val_range (rnd p)). lra. }
      intros [->|Hb]%elem_of_cons; [done|by apply IH].
    + cbn [rret]. unfold rbind. specialize (IH p).
      destruct (recovery_phase rr ags rnd p) as [rest p']. cbn [rret fst] in *.
      intros [->|Hb]%elem_of_cons; [congruence|by apply IH].
Qed.

(** With [recoveryRate <= 0] nobody recovers. *)
Lemma recovery_phase_none rr ags rnd p :
  (rr <= 0)%Q -> fst (recovery_phase rr ags rnd p) = ags.
Proof.
  intros Hrr. revert p. induction ags as [|a ags IH]; intros p; cbn [recovery_phase]; [done|].
  unfold rbind at 1. destruct (state a) eqn:Es.
  - cbn [rret]. unfold rbind. specialize (IH p).
    destruct (recovery_phase rr ags rnd p) as [rest p']. cbn [rret fst] in *. by rewrite IH.
  - unfold rbind at 1. cbn [Math_random rret]. unfold rbind. specialize (IH (S p)).
    destruct (recovery_phase rr ags rnd (S p)) as [rest p']. cbn [rret fst] in *.
    assert (Qltb (draw_val (rnd p)) rr = false) as ->.
    { apply not_true_iff_false. rewrite Qltb_lt.
      destruct (draw_val_range (rnd p)). lra. }
    by rewrite IH.
  - cbn [rret]. unfold rbind. specialize (IH p).
    destruct (recovery_phase rr ags rnd p) as [rest p']. cbn [rret fst] in *. by rewrite IH.
Qed.

(** With [spreadRate = 0] no draw succeeds. *)
Lemma try_infect_zero lid sr src e rnd st :
  (sr == 0)%Q ->
  st_agents (fst (try_infect lid sr src e rnd st)) = st_agents st /\
  st_active (fst (try_infect lid sr src e rnd st)) = st_active st.
Proof.
  intros Hsr. destruct e as [nb w]. unfold try_infect, sbind. cbn [s_get].
  destruct (st_agents st !! nb) as [neighbor|]; [|done].
  destruct (state neighbor); try done. cbn [s_random].
  assert (Qltb (draw_val (rnd (st_pos st))) (sr * w) = false) as ->; [|done].
  apply not_true_iff_false. rewrite Qltb_lt, Hsr.
  destruct (draw_val_range (rnd (st_pos st))). lra.
Qed.

Lemma spread_phase_zero layerAdj sr iter ls rnd st :
  (sr == 0)%Q ->
  st_agents (fst (spread_phase layerAdj sr iter ls rnd st)) = st_agents st /\
  st_active (fst (spread_phase layerAdj sr iter ls rnd st)) = st_active st.
Proof.
  intros Hsr.
  apply (preserves_sfor
           (fun s => st_agents s = st_agents st /\ st_active s = st_active st)); [|done].
  intros l _. destruct (fires _ _); [|apply preserves_sret].
  intros rnd1 s1 Hs1. unfold layer_pass, sbind. cbn [s_get].
  apply (preserves_sfor
           (fun s => st_agents s = st_agents st /\ st_active s = st_active st)); [|done].
  intros [src aid] _. destruct (_ ≫= _); [|apply preserves_sthrow].
  apply preserves_sfor. intros e _ rnd2 s2 [<- <-]. by apply try_infect_zero.
Qed.

(** ** A network without infected agents *)

Lemma infected_from_none k ags :
  (forall a, a ∈ ags -> state a <> I_) -> infected_from k ags = [].
Proof.
  revert k. induction ags as [|a ags IH]; intros k H; [done|].
  cbn [infected_from]. rewrite bool_decide_eq_false_2 by (apply H; left).
  apply IH. intros; apply H; by right.
Qed.

Lemma spread_phase_none layerAdj sr iter ls rnd st :
  (forall a, a ∈ st_agents st -> state a <> I_) ->
  spread_phase layerAdj sr iter ls rnd st = (st, Some tt).
Proof.
  intros H. unfold spread_phase. induction ls as [|l ls IH]; [done|].
  cbn [sfor]. unfold sbind at 1.
  destruct (fires _ _); [|exact IH].
  unfold layer_pass, sbind at 1. cbn [s_get].
  unfold currentlyInfected. rewrite infected_from_none by done. exact IH.
Qed.

End Counters.

Section Active.

Implicit Types (rnd : nat -> Draw) (ags : list SimAgent) (net : SimNetwork)
  (st : StepSt) (layerAdj : list (list NeighborMap)) (sr rr : Q).

(** ** The returned set *)

Lemma count_incr_same lid (c : list nat) :
  default 0 (count_incr lid c !! lid) = S (default 0 (c !! lid)).
Proof.
  unfold count_incr. case_bool_decide as Hlt.
  - rewrite list_lookup_alter_eq.
    destruct (lookup_lt_is_Some_2 c lid Hlt) as [x ->]. done.
  - rewrite (lookup_ge_None_2 c lid) by lia.
    rewrite lookup_app_r by lia. rewrite lookup_app_r by (rewrite length_replicate; lia).
    rewrite length_replicate, Nat.sub_diag. done.
Qed.

Lemma layer_total_infection L lid src nb ags a :
  ags !! src = Some a ->
  layer_total L (alter (bump lid) src (alter (mark_infected lid) nb ags))
  = layer_total L ags + (if bool_decide (L = lid) then 1 else 0).
Proof.
  intros Ha. unfold layer_total.
  assert (is_Some (alter (mark_infected lid) nb ags !! src)) as [a' Ha'].
  { apply lookup_lt_is_Some. rewrite length_alter. by eapply lookup_lt_Some. }
  pose proof (sum_list_with_alter (count_at L) (bump lid) src _ a' Ha') as H.
  rewrite (sum_list_with_alter_same (count_at L) (mark_infected lid) nb ags) in H by done.
  assert (count_at L (bump lid a') = count_at L a' + (if bool_decide (L = lid) then 1 else 0))
    as Hb.
  { unfold count_at. cbn [bump infectedCount]. case_bool_decide as HL.
    - subst L. rewrite count_incr_same. lia.
    - rewrite count_incr_other by done. lia. }
  lia.
Qed.

Lemma layer_pass_active_inv ags0 layerAdj sr layer :
  preserves (fun s => active_inv ags0 (st_agents s) (st_active s))
            (layer_pass layerAdj sr layer).
Proof.
  intros rnd st H.
  apply (layer_pass_inv
           (fun ags act => length ags = length (st_agents st) /\ active_inv ags0 ags act)).
  - done.
  - intros src a0 ags act nb neighbor Ha0 _ [Hlen [Hl Hinv]] _ _.
    split; [by rewrite !length_alter|]. split; [by rewrite !length_alter|].
    assert (is_Some (ags !! src)) as [a Ha].
    { apply lookup_lt_is_Some. rewrite Hlen. by eapply lookup_lt_Some. }
    intros L. rewrite (layer_total_infection L _ _ _ _ _ Ha), elem_of_set_add.
    destruct (Hinv L) as [Hle Hiff]. case_bool_decide as HL.
    + subst L. split; [lia|]. split; [lia|auto].
    + rewrite Nat.add_0_r. split; [done|]. rewrite <- Hiff. tauto.
Qed.

Lemma recovered_only_layer_total L ags ags' :
  Forall2 recovered_only ags ags' -> layer_total L ags' = layer_total L ags.
Proof.
  unfold layer_total. induction 1 as [|a a' ags ags' Hrel _ IH]; [done|].
  cbn [sum_list_with]. rewrite IH. by destruct Hrel as [->|[_ ->]].
Qed.

Lemma simulateStep_active_inv net sr rr iter rnd p :
  exists act,
    active_inv (agents net) (agents (fst (fst (simulateStep net sr rr iter rnd p)))) act /\
    forall act', snd (fst (simulateStep net sr rr iter rnd p)) = Some act' -> act' = act.
Proof.
  assert (active_inv (agents net) (agents net) []) as H0.
  { split; [done|]. intros L. split; [done|]. split; [by intros ?%elem_of_nil|lia]. }
  destruct (simulateStep_cases net sr rr iter rnd p)
    as [->|(A & st & r & Hsp & Hres)]; [by exists []|].
  assert (active_inv (agents net) (st_agents st) (st_active st)) as Hst.
  { pose proof (spread_phase_inv
        (fun s => active_inv (agents net) (st_agents s) (st_active s))
        A sr iter (layers net)) as Hp.
    specialize (Hp (fun l _ _ => layer_pass_active_inv (agents net) A sr l)
                   rnd (mkSt (agents net) [] p) H0).
    by rewrite Hsp in Hp. }
  exists (st_active st).
  destruct Hres as [[_ ->]|[_ ->]]; cbn [fst snd agents]; [done|].
  split; [|by intros act' [= <-]].
  pose proof (recovery_phase_recovered_only rr (st_agents st) rnd (st_pos st)) as Hrec.
  destruct Hst as [Hlen Hinv]. split.
  - by rewrite <- (Forall2_length _ _ _ Hrec).
  - intros L. rewrite (recovered_only_layer_total L _ _ Hrec). apply Hinv.
Qed.

(** ** Statistics along a run *)

Lemma monotone_stats ags ags' :
  Forall2 sir_monotone ags ags' ->
  num_in S_ ags' <= num_in S_ ags /\ num_in R_ ags <= num_in R_ ags'.
Proof.
  unfold num_in. induction 1 as [|a a' ags ags' [_ Hle] _ [IH1 IH2]]; [done|].
  rewrite !filter_cons.
  destruct (state a), (state a'); try done;
    repeat case_decide; try congruence; cbn [length]; lia.
Qed.

(** ** Seeding again *)

Lemma reset_agents_ids k ags ags' :
  map id ags = map id ags' -> map (reset_agent k) ags = map (reset_agent k) ags'.
Proof.
  revert ags'. induction ags as [|a ags IH]; intros [|a' ags'] H; try done.
  cbn in H. injection H as Ha H. cbn. unfold reset_agent at 1 3. rewrite Ha.
  f_equal. by apply IH.
Qed.

Lemma seedInfected_ids fuel net net' count rnd p :
  map id (agents net) = map id (agents net') -> layers net = layers net' ->
  seedInfected fuel net count rnd p = seedInfected fuel net' count rnd p.
Proof.
  intros Hids Hl. unfold seedInfected.
  by rewrite Hl, (reset_agents_ids _ _ _ Hids).
Qed.

Lemma monotone_ids ags ags' :
  Forall2 sir_monotone ags ags' -> map id ags = map id ags'.
Proof. induction 1 as [|a a' ags ags' [Hid _] _ IH]; [done|]. cbn. by rewrite Hid, IH. Qed.

Lemma simulateSteps_layers calls net rnd p :
  layers (fst (fst (simulateSteps calls net rnd p))) = layers net.
Proof.
  revert net p. induction calls as [|[[sr rr] iter] calls IH]; intros net p; [done|].
  cbn [simulateSteps]. unfold rbind.
  pose proof (simulateStep_layers net sr rr iter rnd p) as H.
  destruct (simulateStep net sr rr iter rnd p) as [r p']. cbn [fst] in H.
  specialize (IH (fst r) p').
  destruct (simulateSteps calls (fst r) rnd p') as [rest p'']. cbn [rret fst] in *.
  congruence.
Qed.

End Active.

Section MoreGenerators.

Implicit Types (rnd : nat -> Draw) (es : list SimEdge) (adj : Adj) (c : Q).

(** ** At most [n * (n - 1)] edges *)

(** The pair [(u, v)] with [v <> u], with [v] counted among the [n - 1]
    numbers other than [u]. *)
Lemma simple_edges_bound n es :
  edges_in_range n es -> no_self_loop es -> no_duplicate es ->
  length es <= n * (n - 1).
Proof.
  intros Hr Hs Hd.
  set (f := fun q : nat * nat => (fst q, if snd q <? fst q then snd q else snd q - 1)).
  assert (NoDup (f <$> (edge_pair <$> es))) as Hnd.
  { apply NoDup_fmap_2_strong; [|exact Hd].
    intros [u v] [u' v'] [e [He Hin]]%list_elem_of_fmap [e' [He' Hin']]%list_elem_of_fmap.
    unfold edge_pair in He, He'. injection He as -> ->. injection He' as -> ->.
    pose proof (Hs e Hin). pose proof (Hs e' Hin').
    unfold f. cbn [fst snd]. intros [= Hu Hv]. rewrite Hu in *.
    destruct (Nat.ltb_spec (target e) (source e')), (Nat.ltb_spec (target e') (source e'));
      f_equal; lia. }
  assert (f <$> (edge_pair <$> es) ⊆+ list_prod (seq 0 n) (seq 0 (n - 1))) as Hsub.
  { apply NoDup_submseteq; [done|].
    intros [a b] [[u v] [Hf [e [He Hin]]%list_elem_of_fmap]]%list_elem_of_fmap.
    unfold edge_pair in He. injection He as -> ->.
    destruct (Hr e Hin). pose proof (Hs e Hin).
    unfold f in Hf. cbn [fst snd] in Hf. injection Hf as -> ->.
    apply list_elem_of_In, in_prod_iff. rewrite !in_seq.
    destruct (Nat.ltb_spec (target e) (source e)); lia. }
  apply submseteq_length in Hsub.
  rewrite !length_fmap, length_prod, !length_seq in Hsub. exact Hsub.
Qed.

(** ** The random layer at the extreme connectivities *)

Lemma buildRandomLayer_none n c rnd p :
  (c <= 0)%Q -> fst (buildRandomLayer n c rnd p) = [].
Proof.
  intros Hc. unfold buildRandomLayer.
  apply (rfor_inv (fun es => es = [])); [done|].
  intros es i rnd1 p1 _ ->. apply (rfor_inv (fun es => es = [])); [done|].
  intros es j rnd2 p2 _ ->. unfold rbind at 1. cbn [Math_random].
  assert (Qltb (draw_val (rnd2 p2)) c = false) as ->; [|done].
  apply not_true_iff_false. rewrite Qltb_lt.
  destruct (draw_val_range (rnd2 p2)). lra.
Qed.

Lemma pairs_done_push n i j es w :
  pairs_done n i j es -> pairs_done n i (S j) (push_pair es i j w).
Proof.
  intros H u v Huv Hc. unfold push_pair.
  destruct (decide (u = i /\ v = j)) as [[-> ->]|Hne].
  - exists w. rewrite !elem_of_app, !elem_of_cons. auto.
  - destruct (H u v Huv) as (w' & H1 & H2); [lia|].
    exists w'. rewrite !elem_of_app. auto.
Qed.

Lemma buildRandomLayer_all n c rnd p :
  (1 <= c)%Q -> pairs_done n n 0 (fst (buildRandomLayer n c rnd p)).
Proof.
  intros Hc. unfold buildRandomLayer, range.
  pose proof (rfor_seq_inv (fun i es => pairs_done n i 0 es) 0 (n - 0)) as H.
  replace (0 + (n - 0)) with n in H by lia. apply H; clear H.
  - intros u v Huv Hc'. lia.
  - intros i es rnd' p' Hi Hes.
    assert (pairs_done n i (i + 1 + (n - (i + 1))) (fst (rfor (seq (i + 1) (n - (i + 1))) es
      (fun es j => rbind Math_random (fun r =>
         if Qltb r c then rbind draw_weight (fun w => rret (push_pair es i j w))
         else rret es)) rnd' p'))) as Hrow.
    { apply (rfor_seq_inv (fun j es => pairs_done n i j es)).
      - intros u v Huv Hc'. apply Hes; [done|lia].
      - intros j es2 rnd2 p2 Hj Hes2. unfold rbind at 1. cbn [Math_random].
        assert (Qltb (draw_val (rnd2 p2)) c = true) as ->.
        { apply Qltb_lt. destruct (draw_val_range (rnd2 p2)). lra. }
        unfold rbind. rewrite draw_weight_eq. cbn [rret fst].
        by apply pairs_done_push. }
    intros u v Huv Hc'. apply Hrow; [done|lia].
Qed.

(** ** The small world of two agents *)

Lemma edgesOfAdj_new n rnd p : edgesOfAdj n (adj_new n) rnd p = ([], p).
Proof.
  unfold edgesOfAdj.
  assert (forall l es q, rfor l es (fun es i =>
            rfor (range (i + 1) n) es (fun es j =>
              if adj_get (adj_new n) i j
              then rbind draw_weight (fun w => rret (push_pair es i j w))
              else rret es)) rnd q = (es, q)) as H; [|apply H].
  induction l as [|i l IH]; intros es q; [done|].
  cbn [rfor]. unfold rbind at 1.
  assert (forall l' es q, rfor l' es (fun es j =>
              if adj_get (adj_new n) i j
              then rbind draw_weight (fun w => rret (push_pair es i j w))
              else rret es) rnd q = (es, q)) as Hin.
  { induction l' as [|j l' IH']; intros es' q'; [done|].
    cbn [rfor]. unfold rbind at 1.
    assert (adj_get (adj_new n) i j = false) as ->; [|apply IH'].
    unfold adj_get, adj_new.
    destruct (replicate n (replicate n false) !! i) as [row|] eqn:E; [|done].
    apply lookup_replicate in E as [-> _].
    destruct (replicate n false !! j) as [b|] eqn:E2; [|done].
    by apply lookup_replicate in E2 as [-> _]. }
  rewrite Hin. apply IH.
Qed.

Lemma buildSmallWorldLayer_two n c rnd p :
  n <= 2 -> buildSmallWorldLayer n c rnd p = ([], p).
Proof.
  intros Hn. unfold buildSmallWorldLayer.
  assert (half_range (smallworld_k n c) = []) as Hk.
  { apply half_range_small. pose proof (smallworld_k_le n c). lia. }
  unfold rbind, rewire, ring_lattice. rewrite Hk.
  cbn [rfor foldl].
  assert (forall l (a : Adj), foldl (fun adj (_ : nat) => adj) a l = a) as Hf
    by (induction l; intros; cbn; auto).
  rewrite Hf.
  assert (forall l (a : Adj) q,
            rfor l a (fun adj (_ : nat) => rret adj) rnd q = (a, q)) as Hr.
  { induction l as [|i l IH]; intros a q; [done|]. cbn [rfor]. unfold rbind.
    cbn [rret]. apply IH. }
  rewrite Hr. apply edgesOfAdj_new.
Qed.

End MoreGenerators.

Section ScaleFree.

Implicit Types (rnd : nat -> Draw) (es : list SimEdge) (adj : Adj) (c : Q)
  (degrees : list nat).

(** ** Reading and writing the matrix *)

Lemma adj_dims_new n : adj_dims n (adj_new n).
Proof.
  unfold adj_new. split; [apply length_replicate|].
  apply Forall_replicate, length_replicate.
Qed.

Lemma adj_dims_set n i j b adj : adj_dims n adj -> adj_dims n (adj_set i j b adj).
Proof.
  intros [Hlen Hrows]. unfold adj_set. split; [by rewrite length_alter|].
  apply Forall_lookup. intros x row Hrow. rewrite Forall_lookup in Hrows.
  destruct (decide (x = i)) as [->|Hne].
  - rewrite list_lookup_alter_eq in Hrow.
    destruct (adj !! i) as [row0|] eqn:E; [|done]. cbn in Hrow. injection Hrow as <-.
    rewrite length_insert. by eapply Hrows.
  - rewrite list_lookup_alter_ne in Hrow by done. by eapply Hrows.
Qed.

Lemma adj_dims_set2 n i j b adj : adj_dims n adj -> adj_dims n (adj_set2 i j b adj).
Proof. intros H. unfold adj_set2. by do 2 apply adj_dims_set. Qed.

Lemma adj_get_set_eq n i j b adj :
  adj_dims n adj -> i < n -> j < n -> adj_get (adj_set i j b adj) i j = b.
Proof.
  intros [Hlen Hrows] Hi Hj. unfold adj_get, adj_set.
  rewrite list_lookup_alter_eq.
  destruct (lookup_lt_is_Some_2 adj i) as [row Hrow]; [lia|].
  rewrite Hrow. cbn. rewrite Forall_lookup in Hrows.
  rewrite list_lookup_insert_eq; [done|]. rewrite (Hrows i row Hrow). lia.
Qed.

Lemma adj_get_set_ne i j b adj x y :
  (x, y) <> (i, j) -> adj_get (adj_set i j b adj) x y = adj_get adj x y.
Proof.
  intros Hne. unfold adj_get, adj_set.
  destruct (decide (x = i)) as [->|Hx].
  - rewrite list_lookup_alter_eq. destruct (adj !! i) as [row|]; [|done]. cbn.
    rewrite list_lookup_insert_ne; [done|]. congruence.
  - by rewrite list_lookup_alter_ne.
Qed.

Lemma adj_le_set2 n i j adj :
  adj_dims n adj -> i < n -> j < n -> adj_le adj (adj_set2 i j true adj).
Proof.
  intros Hd Hi Hj u v H. unfold adj_set2.
  destruct (decide ((u, v) = (j, i))) as [[= -> ->]|Hne1].
  - apply (adj_get_set_eq n); [by apply adj_dims_set|done|done].
  - rewrite adj_get_set_ne by done.
    destruct (decide ((u, v) = (i, j))) as [[= -> ->]|Hne2].
    + by apply (adj_get_set_eq n).
    + by rewrite adj_get_set_ne.
Qed.

Lemma adj_get_set2_true n i j adj :
  adj_dims n adj -> i < n -> j < n ->
  adj_get (adj_set2 i j true adj) i j = true /\
  adj_get (adj_set2 i j true adj) j i = true.
Proof.
  intros Hd Hi Hj. unfold adj_set2. split.
  - destruct (decide ((i, j) = (j, i))) as [[= ->]|Hne].
    + apply (adj_get_set_eq n); [by apply adj_dims_set|done|done].
    + rewrite adj_get_set_ne by done. by apply (adj_get_set_eq n).
  - apply (adj_get_set_eq n); [by apply adj_dims_set|done|done].
Qed.

Lemma adj_below_set2 k i j b adj :
  i < k -> j < k -> adj_below k adj -> adj_below k (adj_set2 i j b adj).
Proof.
  intros Hi Hj H u v Huv. unfold adj_set2 in Huv.
  apply adj_get_set_true in Huv as [(-> & -> & _)|Huv]; [done|].
  apply adj_get_set_true in Huv as [(-> & -> & _)|Huv]; [done|].
  by apply H.
Qed.

Lemma adj_below_new k n : adj_below k (adj_new n).
Proof.
  intros u v H. unfold adj_get, adj_new in H.
  destruct (replicate n (replicate n false) !! u) as [row|] eqn:E; [|done].
  apply lookup_replicate in E as [-> _].
  destruct (replicate n false !! v) as [b|] eqn:E2; [|done].
  apply lookup_replicate in E2 as [-> _]. done.
Qed.

(** ** The degree array *)

Lemma deg_incr_length x degrees : length (deg_incr x degrees) = length degrees.
Proof. apply length_alter. Qed.

Lemma deg_get_incr_le x y degrees : deg_get degrees y <= deg_get (deg_incr x degrees) y.
Proof.
  unfold deg_get, deg_incr. destruct (decide (y = x)) as [->|Hne].
  - rewrite list_lookup_alter_eq. destruct (degrees !! x); cbn; lia.
  - by rewrite list_lookup_alter_ne.
Qed.

Lemma deg_get_incr_eq x degrees :
  x < length degrees -> deg_get (deg_incr x degrees) x = S (deg_get degrees x).
Proof.
  intros Hx. unfold deg_get, deg_incr. rewrite list_lookup_alter_eq.
  destruct (lookup_lt_is_Some_2 degrees x Hx) as [d ->]. done.
Qed.

Lemma cum_deg_le degrees js cumDeg : cumDeg <= cum_deg degrees js cumDeg.
Proof.
  unfold cum_deg. revert cumDeg. induction js as [|j js IH]; intros cumDeg; [done|].
  cbn [foldl]. etrans; [|apply IH]. lia.
Qed.

Lemma cum_deg_take degrees i :
  i <= length degrees -> cum_deg degrees (seq 0 i) 0 = foldl Nat.add 0 (take i degrees).
Proof.
  unfold cum_deg. induction i as [|i IH]; intros Hi; [done|].
  destruct (lookup_lt_is_Some_2 degrees i) as [d Hd]; [lia|].
  rewrite seq_S, (take_S_r _ _ _ Hd), !foldl_app. cbn [foldl].
  rewrite IH by lia. unfold deg_get. cbn [Nat.add]. by rewrite Hd.
Qed.

(** ** The scan of one attachment attempt *)

Lemma attach_target_in js cumDeg rand adj degrees i j :
  attach_target js cumDeg rand adj degrees i = Some j -> j ∈ js.
Proof.
  revert cumDeg. induction js as [|x js IH]; intros cumDeg; cbn [attach_target]; [done|].
  destruct (_ && _); [intros [= ->]; left|]. intros H. right. by eapply IH.
Qed.

(** A threshold within the total degree of the scanned nodes finds a
    target when no scanned node is a neighbor yet. *)
Lemma attach_target_found js cumDeg rand adj degrees i :
  js <> [] ->
  (rand <= Q_of_nat (cum_deg degrees js cumDeg))%Q ->
  (forall j, j ∈ js -> adj_get adj i j = false) ->
  exists j, attach_target js cumDeg rand adj degrees i = Some j.
Proof.
  revert cumDeg. induction js as [|x js IH]; intros cumDeg Hne Hrand Hadj; [done|].
  cbn [attach_target]. rewrite (Hadj x) by left. cbn [negb]. rewrite andb_true_r.
  destruct (Qle_bool rand (Q_of_nat (cumDeg + deg_get degrees x))) eqn:E; [by eexists|].
  destruct js as [|y js]; [|apply IH; [done|exact Hrand|intros; apply Hadj; by right]].
  cbn in Hrand. apply Qle_bool_iff in Hrand. congruence.
Qed.

Lemma foldl_seq_inv {B} (P : nat -> B -> Prop) (f : B -> nat -> B) lo len acc :
  P lo acc ->
  (forall i acc, lo <= i < lo + len -> P i acc -> P (S i) (f acc i)) ->
  P (lo + len) (foldl f acc (seq lo len)).
Proof.
  revert lo acc. induction len as [|len IH]; intros lo acc H0 Hf.
  - by rewrite Nat.add_0_r.
  - cbn [seq foldl]. replace (lo + S len) with (S lo + len) by lia.
    apply IH; [apply Hf; [lia|done]|]. intros. apply Hf; [lia|done].
Qed.

(** ** The start clique *)

Lemma clique_spec n initNodes :
  initNodes <= n ->
  clique_inv n initNodes initNodes 0
    (clique initNodes (adj_new n, replicate n 0)).
Proof.
  intros Hn. unfold clique, range.
  pose proof (foldl_seq_inv (fun i st => clique_inv n initNodes i 0 st)) as H.
  specialize (H (fun st i => foldl (fun '(adj, degrees) j =>
                    (adj_set2 i j true adj, deg_incr j (deg_incr i degrees)))
                  st (seq (i + 1) (initNodes - (i + 1)))) 0 (initNodes - 0)).
  replace (0 + (initNodes - 0)) with initNodes in H by lia. apply H; clear H.
  - split; [apply adj_dims_new|]. split; [apply length_replicate|].
    split; [apply adj_below_new|]. split; intros; lia.
  - intros i st Hi (Hd & Hl & Hb & Hp & Hdeg).
    assert (clique_inv n initNodes i (i + 1 + (initNodes - (i + 1)))
              (foldl (fun '(adj, degrees) j =>
                        (adj_set2 i j true adj, deg_incr j (deg_incr i degrees)))
                     st (seq (i + 1) (initNodes - (i + 1))))) as Hrow.
    { apply (foldl_seq_inv (fun j st => clique_inv n initNodes i j st)).
      - split; [done|]. split; [done|]. split; [done|]. split.
        + intros u v Huv Hc. apply Hp; [done|lia].
        + intros Hc. apply Hdeg. lia.
      - intros j [adj degrees] Hj (Hd' & Hl' & Hb' & Hp' & Hdeg').
        unfold clique_inv. cbn [fst snd] in *.
        split; [by apply adj_dims_set2|].
        split; [by rewrite !deg_incr_length|].
        split; [apply adj_below_set2; [lia|lia|done]|]. split.
        + intros u v Huv Hc. destruct (decide (u = i /\ v = j)) as [[-> ->]|Hne].
          * apply (adj_get_set2_true n); [done|lia|lia].
          * apply (adj_le_set2 n); [done|lia|lia|]. apply Hp'; [done|lia].
        + intros _ H2. destruct (decide (i = 0)) as [->|Hi0].
          * etrans; [|apply deg_get_incr_le]. rewrite deg_get_incr_eq by lia. lia.
          * etrans; [|apply deg_get_incr_le]. etrans; [|apply deg_get_incr_le].
            apply Hdeg'; [lia|done]. }
    destruct Hrow as (Hd' & Hl' & Hb' & Hp' & Hdeg').
    split; [done|]. split; [done|]. split; [done|]. split.
    + intros u v Huv Hc. apply Hp'; [done|lia].
    + intros _ H2. apply Hdeg'; [lia|done].
Qed.

(** ** The attachment loop of a node *)

Lemma attach_loop_ok n left m i s rnd p :
  i < n -> attach_ok n i s ->
  attach_ok n i (fst (attach_loop left m i s rnd p)) /\
  adj_le (at_adj s) (at_adj (fst (attach_loop left m i s rnd p))).
Proof.
  intros Hi. revert s p. induction left as [|left IH]; intros s p Hs; cbn [attach_loop];
    [split; [done|by intros u v]|].
  destruct (_ <? _)%Z; [|split; [done|by intros u v]].
  unfold rbind. cbn [Math_random].
  destruct (attach_target _ _ _ _ _ _) as [j|] eqn:E; [|by apply IH].
  apply attach_target_in in E. unfold range in E. apply elem_of_seq in E.
  destruct Hs as (Hd & Hl & Hb & Hdeg).
  edestruct (IH (mkAttach (adj_set2 i j true (at_adj s))
                          (deg_incr j (deg_incr i (at_degrees s)))
                          (at_totalDeg s + 2) (at_added s + 1)) (S p)) as [Hok Hle].
  - split; [by apply adj_dims_set2|]. cbn [at_adj at_degrees].
    split; [by rewrite !deg_incr_length|].
    split; [apply adj_below_set2; [lia|lia|done]|].
    etrans; [|apply deg_get_incr_le]. etrans; [|apply deg_get_incr_le]. done.
  - split; [exact Hok|]. intros u v Huv. apply Hle. cbn [at_adj].
    apply (adj_le_set2 n); [done|lia|lia|done].
Qed.

(** The first attempt of a node attaches it to an earlier node. *)
Lemma attach_loop_attaches n m i adj degrees rnd p :
  (1 <= m)%Z -> 1 <= i < n ->
  adj_dims n adj -> length degrees = n -> adj_below i adj -> 1 <= deg_get degrees 0 ->
  exists j, j < i /\
    adj_get (at_adj (fst (attach_loop (i * 3) m i
                            (mkAttach adj degrees (initial_totalDeg degrees i) 0)
                            rnd p))) j i = true.
Proof.
  intros Hm Hi Hd Hl Hb Hdeg.
  destruct (i * 3) as [|left] eqn:E3; [lia|]. cbn [attach_loop at_added].
  destruct (Z.ltb_spec 0 m) as [_|?]; [|lia].
  unfold rbind. cbn [Math_random at_totalDeg at_adj at_degrees].
  set (total := foldl Nat.add 0 (take i degrees)).
  assert (deg_get degrees 0 <= total) as Htot.
  { unfold total. rewrite <- cum_deg_take by lia.
    destruct i as [|i]; [lia|]. cbn [seq]. unfold cum_deg. cbn [foldl].
    apply (cum_deg_le degrees (seq 1 i) (0 + deg_get degrees 0)). }
  assert (initial_totalDeg degrees i = total) as ->.
  { unfold initial_totalDeg. fold total. destruct (Nat.eqb_spec total 0); [lia|done]. }
  destruct (attach_target_found (range 0 i) 0
              (draw_val (rnd p) * Q_of_nat total)%Q adj degrees i) as [j Hj].
  - unfold range. destruct i; [lia|done].
  - unfold range. rewrite Nat.sub_0_r, cum_deg_take by lia. fold total.
    destruct (draw_val_range (rnd p)) as [H0 H1].
    assert (0 <= Q_of_nat total)%Q.
    { unfold Q_of_nat. change 0%Q with (inject_Z 0). rewrite <- Zle_Qle. lia. }
    nra.
  - intros j Hj. destruct (adj_get adj i j) eqn:Eg; [|done].
    apply Hb in Eg. lia.
  - rewrite Hj. pose proof (attach_target_in _ _ _ _ _ _ _ Hj) as Hin.
    unfold range in Hin. apply elem_of_seq in Hin.
    exists j. split; [lia|].
    edestruct (attach_loop_ok n left m i
                 (mkAttach (adj_set2 i j true adj) (deg_incr j (deg_incr i degrees))
                           (total + 2) (0 + 1)) rnd (S p)) as [_ Hle]; [lia| |].
    + split; [by apply adj_dims_set2|]. cbn [at_adj at_degrees].
      split; [by rewrite !deg_incr_length|].
      split; [apply adj_below_set2; [lia|lia|]|].
      * intros u v Huv. apply Hb in Huv. lia.
      * etrans; [|apply deg_get_incr_le]. etrans; [|apply deg_get_incr_le]. done.
    + apply Hle. cbn [at_adj]. apply (adj_get_set2_true n); [done|lia|lia].
Qed.

(** ** The nodes added by preferential attachment *)

Lemma preferential_spec n initNodes m st rnd p :
  (1 <= m)%Z -> 1 <= initNodes <= n ->
  attach_inv n initNodes initNodes st ->
  attach_inv n initNodes n (fst (preferential n initNodes m st rnd p)) /\
  adj_le (fst st) (fst (fst (preferential n initNodes m st rnd p))).
Proof.
  intros Hm Hn Hst. unfold preferential, range.
  pose proof (rfor_seq_inv
    (fun i s => attach_inv n initNodes i s /\ adj_le (fst st) (fst s))
    initNodes (n - initNodes)) as H.
  replace (initNodes + (n - initNodes)) with n in H by lia. apply H; clear H.
  - split; [done|]. by intros u v.
  - intros i [adj degrees] rnd1 p1 Hi [(Hd & Hl & Hb & Hdeg & Hnb) Hle].
    cbn [fst snd] in *. unfold rbind.
    destruct (attach_loop_attaches n m i adj degrees rnd1 p1) as (j & Hj & Hji);
      try done; [lia|].
    destruct (attach_loop_ok n (i * 3) m i
                (mkAttach adj degrees (initial_totalDeg degrees i) 0) rnd1 p1)
      as [(Hd' & Hl' & Hb' & Hdeg') Hle']; [lia| |].
    { split; [done|]. split; [done|]. split; [|done].
      intros u v Huv. apply Hb in Huv. lia. }
    destruct (attach_loop _ _ _ _ _ _) as [s' p']. cbn [rret fst snd at_adj] in *.
    split; [|intros u v Huv; by apply Hle', Hle].
    split; [done|]. split; [done|]. split; [done|]. split; [done|].
    intros v Hv. destruct (decide (v = i)) as [->|Hne]; [by exists j|].
    destruct (Hnb v) as (u & Hu & Huv); [lia|]. exists u. split; [done|by apply Hle'].
Qed.

(** ** The output loop emits every entry *)

Lemma entries_done_push adj n i j es w :
  entries_done adj n i j es -> entries_done adj n i (S j) (push_pair es i j w).
Proof.
  intros H u v Huv Hc Hadj. unfold push_pair.
  destruct (decide (u = i /\ v = j)) as [[-> ->]|Hne].
  - exists w. rewrite !elem_of_app, !elem_of_cons. auto.
  - destruct (H u v Huv) as (w' & H1 & H2); [lia|done|].
    exists w'. rewrite !elem_of_app. auto.
Qed.

Lemma edgesOfAdj_complete n adj rnd p :
  entries_done adj n n 0 (fst (edgesOfAdj n adj rnd p)).
Proof.
  unfold edgesOfAdj, range.
  pose proof (rfor_seq_inv (fun i es => entries_done adj n i 0 es) 0 (n - 0)) as H.
  replace (0 + (n - 0)) with n in H by lia. apply H; clear H.
  - intros u v Huv Hc. lia.
  - intros i es rnd' p' Hi Hes.
    assert (entries_done adj n i (i + 1 + (n - (i + 1)))
              (fst (rfor (seq (i + 1) (n - (i + 1))) es
                 (fun es j => if adj_get adj i j
                              then rbind draw_weight (fun w => rret (push_pair es i j w))
                              else rret es) rnd' p'))) as Hrow.
    { apply (rfor_seq_inv (fun j es => entries_done adj n i j es)).
      - intros u v Huv Hc. apply Hes; [done|lia].
      - intros j es2 rnd2 p2 Hj Hes2. destruct (adj_get adj i j) eqn:Eg.
        + unfold rbind. rewrite draw_weight_eq. cbn [rret fst].
          by apply entries_done_push.
        + cbn [rret fst]. intros u v Huv Hc Hadj.
          destruct (decide (u = i /\ v = j)) as [[-> ->]|Hne]; [congruence|].
          apply Hes2; [done|lia|done]. }
    intros u v Huv Hc. apply Hrow; [done|lia].
Qed.

End ScaleFree.

Section Assembly.

(** The matrix from which the scale-free generator reads its edges. *)
Lemma buildScaleFreeLayer_adj n c rnd p :
  2 <= n ->
  exists adj q,
    fst (buildScaleFreeLayer n c rnd p) = fst (edgesOfAdj n adj rnd q) /\
    2 <= scalefree_initNodes n (scalefree_m c) <= n /\
    (forall u v, u < v < scalefree_initNodes n (scalefree_m c) ->
       adj_get adj u v = true) /\
    (forall v, scalefree_initNodes n (scalefree_m c) <= v < n ->
       exists u, u < v /\ adj_get adj u v = true).
Proof.
  intros Hn. unfold buildScaleFreeLayer, rbind.
  set (m := scalefree_m c). set (init := scalefree_initNodes n m).
  assert (1 <= m)%Z as Hm by (unfold m, scalefree_m; lia).
  assert (2 <= init <= n) as Hinit by (unfold init, scalefree_initNodes; lia).
  destruct (clique_spec n init) as (Hd & Hl & Hb & Hpairs & Hdeg); [lia|].
  destruct (preferential_spec n init m (clique init (adj_new n, replicate n 0)) rnd p)
    as [(_ & _ & _ & _ & Hnb) Hle]; [done|lia| |].
  { split; [done|]. split; [done|]. split; [done|].
    split; [apply Hdeg; lia|]. intros v Hv. lia. }
  destruct (preferential _ _ _ _ _ _) as [st q]. cbn [fst] in *.
  exists (fst st), q. split; [done|]. split; [done|]. split; [|done].
  intros u v Huv. apply Hle, Hpairs; [done|]. left. lia.
Qed.

Lemma simulateSteps_wf calls net rnd p :
  wf_network net ->
  wf_network (fst (fst (simulateSteps calls net rnd p))) /\
  Forall is_Some (snd (fst (simulateSteps calls net rnd p))).
Proof.
  revert net p. induction calls as [|[[sr rr] iter] calls IH]; intros net p Hwf;
    cbn [simulateSteps]; [by split|].
  unfold rbind.
  pose proof (simulateStep_wf net sr rr iter rnd p Hwf) as Hwf1.
  pose proof (simulateStep_safe net sr rr iter rnd p Hwf) as Hs.
  destruct (simulateStep net sr rr iter rnd p) as [r p1]. cbn [fst snd] in *.
  destruct (IH (fst r) p1 Hwf1) as [Hwf2 Hall].
  destruct (simulateSteps calls (fst r) rnd p1) as [rest p2]. cbn [fst snd] in *.
  split; [done|]. by constructor.
Qed.

Lemma frequency_or_nonzero x : Playground.frequency_or x <> 0%Z.
Proof.
  unfold Playground.frequency_or. destruct x as [f|]; [|done].
  destruct (Z.eqb_spec f 0); [done|done].
Qed.

Lemma connectivity_or_nonzero x : ~ (Playground.connectivity_or x == 0)%Q.
Proof.
  unfold Playground.connectivity_or. destruct x as [c|]; [|done].
  destruct (Qeq_bool c 0) eqn:E; [done|].
  intros H. apply Qeq_bool_iff in H. congruence.
Qed.

Lemma layerConfigs_lookup state i cfg :
  Playground.layerConfigs state !! i = Some cfg ->
  i < Playground.numLayers state /\
  cfg = mkConfig (Playground.connectivity_or (Playground.layerConnectivity state !! i))
                 (Playground.frequency_or (Playground.layerFrequency state !! i))
                 (Playground.topology state).
Proof.
  unfold Playground.layerConfigs, range. rewrite list_lookup_fmap.
  destruct (seq 0 _ !! i) as [j|] eqn:E; [|done].
  apply lookup_seq in E as [-> Hi]. intros [= <-]. split; [lia|done].
Qed.

Lemma generateNetwork_layers fuel state rnd p net q :
  Playground.generateNetwork fuel state rnd p = (Some net, q) ->
  length (agents net) = Playground.numAgents state /\
  length (layers net) = Playground.numLayers state /\
  wf_network net /\ counts_sized net /\
  forall i l, layers net !! i = Some l ->
    layer_connectivity l
      = Playground.connectivity_or (Playground.layerConnectivity state !! i) /\
    frequency l = Playground.frequency_or (Playground.layerFrequency state !! i).
Proof.
  unfold Playground.generateNetwork, rbind.
  pose proof (buildNetwork_wf (Playground.numAgents state)
                (Playground.layerConfigs state) rnd 0) as Hwf.
  pose proof (buildNetwork_eq (Playground.numAgents state)
                (Playground.layerConfigs state) rnd 0) as Heq.
  destruct (buildNetwork _ _ rnd 0) as [net0 p0]. cbn [fst] in Hwf, Heq.
  intros Hrun.
  pose proof (seedInfected_agents _ _ _ _ _ _ _ Hrun) as (chosen & Hl & Hags & _).
  split; [|split; [|split; [|split]]].
  - rewrite Hags, mark_seeds_length, length_map, Heq. cbn [agents].
    unfold range. by rewrite length_map, length_seq, Nat.sub_0_r.
  - rewrite Hl, Heq. cbn [layers]. rewrite buildLayers_length.
    unfold Playground.layerConfigs, range. by rewrite length_map, length_seq, Nat.sub_0_r.
  - by eapply seedInfected_wf.
  - by eapply seedInfected_counts_sized.
  - intros i l. rewrite Hl, Heq. cbn [layers]. intros Hi.
    apply buildLayers_lookup in Hi as (cfg & q' & Hc & ->).
    apply layerConfigs_lookup in Hc as [_ ->].
    destruct (buildLayer_fields (0 + i) (Playground.numAgents state)
      (mkConfig (Playground.connectivity_or (Playground.layerConnectivity state !! i))
                (Playground.frequency_or (Playground.layerFrequency state !! i))
                (Playground.topology state)) rnd q') as (_ & -> & ->).
    done.
Qed.


Lemma obj_get_key {K V} `{EqDecision K} (obj : list (K * V)) k v :
  obj_get obj k = Some v -> k ∈ map fst obj.
Proof.
  unfold obj_get. destruct (find _ obj) as [[k' v']|] eqn:E; [|done].
  intros _. apply find_some in E as [Hin Hk].
  apply bool_decide_eq_true in Hk. cbn in Hk. subst k'.
  apply list_elem_of_fmap. exists (k, v'). split; [done|].
  by apply list_elem_of_In.
Qed.

End Assembly.

Lemma simulateSteps_length calls net rnd p :
  length (snd (fst (simulateSteps calls net rnd p))) = length calls.
Proof.
  revert net p. induction calls as [|[[sr rr] iter] calls IH]; intros net p;
    cbn [simulateSteps]; [done|].
  unfold rbind. destruct (simulateStep net sr rr iter rnd p) as [r p1].
  specialize (IH (fst r) p1).
  destruct (simulateSteps calls (fst r) rnd p1) as [rest p2]. unfold rret.
  cbn [fst snd length] in *. by rewrite IH.
Qed.

Section Controls.

Lemma toFixed1_bounds x :
  (0 <= x)%Q ->
  (x - (1 # 20) < Playground.toFixed1 x)%Q /\ (Playground.toFixed1 x <= x + (1 # 20))%Q.
Proof.
  intros Hx. unfold Playground.toFixed1, Math_round.
  destruct (Qltb x 0) eqn:E; [apply Qltb_lt in E; lra|].
  pose proof (Qfloor_le (x * 10 + (1 # 2))) as H1.
  pose proof (Qlt_floor (x * 10 + (1 # 2))) as H2.
  rewrite inject_Z_plus in H2.
  change (inject_Z 1) with 1%Q in H2. split; lra.
Qed.

Lemma Math_max_bounds a x hi :
  (a <= hi)%Q -> (x <= hi)%Q ->
  (a <= Playground.Math_max a x)%Q /\ (Playground.Math_max a x <= hi)%Q.
Proof.
  intros Ha Hx. unfold Playground.Math_max.
  destruct (Qltb a x) eqn:E; [apply Qltb_lt in E; lra|lra].
Qed.

Lemma Math_min_bounds b x lo :
  (lo <= b)%Q -> (lo <= x)%Q ->
  (lo <= Playground.Math_min b x)%Q /\ (Playground.Math_min b x <= b)%Q.
Proof.
  intros Hb Hx. unfold Playground.Math_min.
  destruct (Qltb x b) eqn:E; [apply Qltb_lt in E; lra|].
  split; lra.
Qed.

Lemma click_rows_inv c s s' :
  Playground.rows_inv s -> Playground.click c s = Some s' -> Playground.rows_inv s'.
Proof.
  intros (Hn & Hlc & Hlf & Hc & Hf). unfold Playground.rows_inv.
  destruct c as [| |i|i|i|i]; cbn [Playground.click].
  - destruct (Nat.leb_spec 6 (Playground.numLayers s)); intros [= <-]; [done|].
    cbn. rewrite !length_app, Hlc, Hlf. cbn [length].
    split; [lia|]. split; [done|]. split; [done|]. split.
    + apply Forall_app. split; [done|]. constructor; [|done]. split; lra.
    + apply Forall_app. split; [done|]. constructor; [lia|done].
  - destruct (Nat.leb_spec (Playground.numLayers s) 1); intros [= <-]; [done|].
    cbn. rewrite !length_take, Hlc, Hlf.
    split; [lia|]. split; [lia|]. split; [lia|]. split; by apply Forall_take.
  - destruct (Playground.layerConnectivity s !! i) as [c|] eqn:E; intros [= <-].
    cbn. rewrite length_insert. split; [done|]. split; [done|]. split; [done|].
    split; [|done]. apply Forall_insert; [done|].
    rewrite Forall_lookup in Hc. destruct (Hc i c E) as [Hc1 Hc2].
    destruct (toFixed1_bounds (c - (1 # 10))) as [_ Ht]; [lra|].
    apply Math_max_bounds; lra.
  - destruct (Playground.layerConnectivity s !! i) as [c|] eqn:E; intros [= <-].
    cbn. rewrite length_insert. split; [done|]. split; [done|]. split; [done|].
    split; [|done]. apply Forall_insert; [done|].
    rewrite Forall_lookup in Hc. destruct (Hc i c E) as [Hc1 Hc2].
    destruct (toFixed1_bounds (c + (1 # 10))) as [Ht _]; [lra|].
    apply Math_min_bounds; lra.
  - destruct (Playground.layerFrequency s !! i) as [f|] eqn:E; intros [= <-].
    cbn. rewrite length_insert. split; [done|]. split; [done|]. split; [done|].
    split; [done|]. apply Forall_insert; [done|].
    rewrite Forall_lookup in Hf. specialize (Hf i f E). cbn in Hf. lia.
  - destruct (Playground.layerFrequency s !! i) as [f|] eqn:E; intros [= <-].
    cbn. rewrite length_insert. split; [done|]. split; [done|]. split; [done|].
    split; [done|]. apply Forall_insert; [done|].
    rewrite Forall_lookup in Hf. specialize (Hf i f E). cbn in Hf. lia.
Qed.

Lemma click_row_some s i :
  Playground.rows_inv s -> i < Playground.numLayers s ->
  is_Some (Playground.click (Playground.ConnectivityDown i) s) /\
  is_Some (Playground.click (Playground.ConnectivityUp i) s) /\
  is_Some (Playground.click (Playground.FrequencyDown i) s) /\
  is_Some (Playground.click (Playground.FrequencyUp i) s).
Proof.
  intros (Hn & Hlc & Hlf & _) Hi. cbn [Playground.click].
  destruct (lookup_lt_is_Some_2 (Playground.layerConnectivity s) i) as [c ->]; [lia|].
  destruct (lookup_lt_is_Some_2 (Playground.layerFrequency s) i) as [f ->]; [lia|].
  repeat split; by eexists.
Qed.

Lemma generateNetwork_rows fuel s rnd p net q i l :
  Playground.rows_inv s ->
  Playground.generateNetwork fuel s rnd p = (Some net, q) ->
  layers net !! i = Some l ->
  Playground.layerConnectivity s !! i = Some (layer_connectivity l) /\
  Playground.layerFrequency s !! i = Some (frequency l).
Proof.
  intros (Hn & Hlc & Hlf & Hc & Hf) Hrun Hl.
  destruct (generateNetwork_layers fuel s rnd p net q Hrun) as (_ & Hlen & _ & _ & Hls).
  destruct (Hls i l Hl) as [-> ->].
  apply lookup_lt_Some in Hl. rewrite Hlen in Hl.
  destruct (lookup_lt_is_Some_2 (Playground.layerConnectivity s) i) as [c Ec]; [lia|].
  destruct (lookup_lt_is_Some_2 (Playground.layerFrequency s) i) as [f Ef]; [lia|].
  rewrite Ec, Ef. rewrite Forall_lookup in Hc. rewrite Forall_lookup in Hf.
  destruct (Hc i c Ec) as [Hc1 _]. specialize (Hf i f Ef). cbn in Hf.
  unfold Playground.connectivity_or, Playground.frequency_or.
  destruct (Qeq_bool c 0) eqn:E0; [apply Qeq_bool_iff in E0; lra|].
  destruct (Z.eqb_spec f 0); [lia|done].
Qed.

End Controls.

Section Throwing.

Lemma buildAdj_bad_source n es e :
  e ∈ es -> n <= source e -> buildAdj n es = None.
Proof.
  unfold buildAdj. intros He Hs.
  set (f := fun (adj : option (list NeighborMap)) (e : SimEdge) =>
              match adj with
              | Some adj =>
                  match adj !! source e with
                  | Some row => Some (<[source e := map_set (target e) (weight e) row]> adj)
                  | None => None
                  end
              | None => None
              end).
  assert (forall l, foldl f None l = None) as Hnone by (induction l; [done|by cbn]).
  assert (forall adj0 : list NeighborMap, length adj0 = n ->
            foldl f (Some adj0) es = None) as H; [|apply H, length_replicate].
  clear -He Hs Hnone. induction es as [|e0 es IH]; intros adj0 Hlen.
  - by apply elem_of_nil in He.
  - cbn [foldl]. unfold f at 2.
    destruct (adj0 !! source e0) as [row|] eqn:E; [|apply Hnone].
    apply elem_of_cons in He as [->|He].
    + apply lookup_lt_Some in E. lia.
    + apply IH; [done|]. by rewrite length_insert.
Qed.

End Throwing.

(* ===================================================================== *)
(** * One call of the step engine: proofs *)

Section OneCall.

Implicit Types (rnd : nat -> Draw) (ags : list SimAgent) (net : SimNetwork)
  (st : StepSt) (layerAdj : list (list NeighborMap)) (sr rr : Q).

(** ** The two phases of a call *)

Lemma simulateStep_after_spread net sr rr iter rnd p :
  Forall2 spread_rel (agents net) (after_spread net sr iter rnd p) /\
  Forall2 recovered_only (after_spread net sr iter rnd p)
    (agents (fst (fst (simulateStep net sr rr iter rnd p)))) /\
  (agents (fst (fst (simulateStep net sr rr iter rnd p))) = after_spread net sr iter rnd p \/
   exists q, agents (fst (fst (simulateStep net sr rr iter rnd p)))
             = fst (recovery_phase rr (after_spread net sr iter rnd p) rnd q)).
Proof.
  unfold simulateStep, after_spread.
  destruct (mapM _ _) as [layerAdj|]; cbn [fst agents].
  - pose proof (spread_phase_spread_rel layerAdj sr iter (layers net) rnd
                  (mkSt (agents net) [] p)) as Hs.
    destruct (spread_phase _ _ _ _ _ _) as [st [[]|]]; cbn [fst st_agents] in *.
    + pose proof (recovery_phase_recovered_only rr (st_agents st) rnd (st_pos st)) as Hr.
      destruct (recovery_phase rr (st_agents st) rnd (st_pos st)) as [ags' p'] eqn:E.
      cbn [fst agents] in *. split; [done|]. split; [done|].
      right. exists (st_pos st). by rewrite E.
    + split; [done|]. split; [|by left].
      apply Forall_Forall2_diag, Forall_forall. intros a _. by left.
  - split; [apply Forall_Forall2_diag, Forall_forall; intros a _; split; auto|].
    split; [|by left].
    apply Forall_Forall2_diag, Forall_forall. intros a _. by left.
Qed.


End OneCall.

Section Lookups.

(** ** The entries of the lookup of a layer *)





End Lookups.

Section Transmission.

Implicit Types (rnd : nat -> Draw) (ags : list SimAgent) (net : SimNetwork)
  (st : StepSt) (layerAdj : list (list NeighborMap)) (sr rr : Q).

#[local] Instance spread_rel_order : PreOrder spread_rel.
Proof.
  split.
  - intros a. split; auto.
  - intros a b c [Hi1 Hs1] [Hi2 Hs2]. split; [congruence|].
    destruct Hs1 as [Hs1|[Hs1 Hs1']], Hs2 as [Hs2|[Hs2 Hs2']];
      [left; congruence | right; split; congruence | right; split; congruence | congruence].
Qed.

#[local] Instance spread_step_order : PreOrder spread_step.
Proof.
  split.
  - intros s. unfold spread_step. reflexivity.
  - intros s1 s2 s3 H1 H2. unfold spread_step in *. by etrans.
Qed.

(** ** Transmissions that cannot fail *)





(** ** What a pass does to each agent *)







End Transmission.

Section Reach.

Implicit Types (rnd : nat -> Draw) (ags : list SimAgent) (net : SimNetwork)
  (st : StepSt) (layerAdj : list (list NeighborMap)) (sr rr : Q).

#[local] Instance infected_stable_order : PreOrder infected_stable.
Proof.
  split.
  - intros a _. done.
  - intros a b c H1 H2 Ha. destruct (H1 Ha) as [Hs Hi].
    destruct H2 as [Hs2 Hi2]; [congruence|]. split; congruence.
Qed.









End Reach.

(* ===================================================================== *)
(** ** Properties of the engine *)

(** C1 (counterexample).  With an empty layer list the agents still
    change state: seeding infects the agent of the network built by
    [buildNetwork 1 []], and the next step recovers it. *)
Lemma empty_layers_state_changes :
  let net0 := fst (buildNetwork 1 [] zero_rnd 0) in
  exists net1 p1,
    seedInfected 1 net0 1 zero_rnd 0 = (Some net1, p1) /\
    map state (agents net0) = [S_] /\
    map state (agents net1) = [I_] /\
    map state (agents (fst (fst (simulateStep net1 1 1 1 zero_rnd p1)))) = [R_].
Proof. eexists _, _. repeat split; reflexivity. Qed.

(** C1 (amended).  A network built with an empty layer list has no layers
    and only susceptible agents; no sequence of [simulateStep] calls
    changes it; and on any network without layers a [simulateStep] call
    throws nothing, returns the empty set and leaves every agent as it is,
    or moves it from Infected to Recovered. *)
Theorem empty_layers_never_spread :
  (forall n rnd p,
     fst (buildNetwork n [] rnd p) = mkNetwork (map (fresh_agent 0) (range 0 n)) []) /\
  (forall n calls rnd p rnd' p',
     fst (fst (simulateSteps calls (fst (buildNetwork n [] rnd p)) rnd' p'))
     = fst (buildNetwork n [] rnd p)) /\
  (forall ags sr rr iter rnd p,
     exists ags' p',
       simulateStep (mkNetwork ags []) sr rr iter rnd p
       = ((mkNetwork ags' [], Some []), p') /\
       Forall2 recovered_only ags ags').
Proof.
  split; [|split].
  - intros. by rewrite buildNetwork_no_layers.
  - intros. rewrite buildNetwork_no_layers. cbn [fst]. apply simulateSteps_fresh.
  - intros. eexists _, _. split; [apply simulateStep_no_layers|].
    apply recovery_phase_recovered_only.
Qed.


(** In [chain_net] agent 1 is infected by layer 0 and, in the same call,
    infects agent 2 through layer 1. *)
Example chain_two_layers :
  simulateStep chain_net 1 0 1 zero_rnd 0 =
  ((mkNetwork
      [mkAgent 0 I_ None [1; 0]; mkAgent 1 I_ (Some 0) [0; 1];
       mkAgent 2 I_ (Some 1) [0; 0]]
      (layers chain_net),
    Some [0; 1]), 5).
Proof. reflexivity. Qed.

(** In [line_net] the same two links are in one layer: agent 1 is
    infected in the pass and does not infect agent 2 in it. *)
Example line_one_layer :
  simulateStep line_net 1 0 1 zero_rnd 0 =
  ((mkNetwork
      [mkAgent 0 I_ None [1]; mkAgent 1 I_ (Some 0) [0]; mkAgent 2 S_ None [0]]
      (layers line_net),
    Some [0]), 3).
Proof. reflexivity. Qed.




(** With [frequency = 3], [spreadRate = 1], weight 1 and a susceptible
    neighbor, steps 2 and 3 infect nobody and step 4 does. *)
Example frequency_three :
  fst (simulateStep slow_net 1 0 2 zero_rnd 0) = (slow_net, Some []) /\
  fst (simulateStep slow_net 1 0 3 zero_rnd 0) = (slow_net, Some []) /\
  fst (simulateStep slow_net 1 0 4 zero_rnd 0) =
    (mkNetwork [mkAgent 0 I_ None [1]; mkAgent 1 I_ (Some 0) [0]] (layers slow_net),
     Some [0]).
Proof. repeat split; reflexivity. Qed.

(** C4.  Every [simulateStep] call is a spread phase followed by a
    recovery loop, and [after_spread] is the agent array between the two.
    From the agents before the call to [after_spread] an agent keeps its
    state or goes from Susceptible to Infected; from [after_spread] to the
    agents after the call, which are [after_spread] itself when the call
    throws and the result of the recovery loop on it otherwise, an agent
    keeps its state or goes from Infected to Recovered.  So no write of a
    state goes from Susceptible to Recovered, from Infected to
    Susceptible or out of Recovered, and an agent that is Susceptible
    before a call and Recovered after it was Infected in between.  Over
    any sequence of calls, whatever their parameters and draws, the state
    of an agent moves along [S -> I -> R] only: a Recovered agent stays
    Recovered and an Infected agent does not become Susceptible again. *)
Theorem sir_state_machine :
  (forall network sr rr iter rnd p,
     let mid := after_spread network sr iter rnd p in
     let network' := fst (fst (simulateStep network sr rr iter rnd p)) in
     Forall2 spread_rel (agents network) mid /\
     Forall2 recover_rel mid (agents network') /\
     (agents network' = mid \/
      exists q, agents network' = fst (recovery_phase rr mid rnd q)) /\
     forall i a a',
       agents network !! i = Some a -> agents network' !! i = Some a' ->
       state a = S_ -> state a' = R_ ->
       exists m, mid !! i = Some m /\ state m = I_) /\
  (forall calls network rnd p,
     Forall2 (fun a a' => id a' = id a /\ rtc sir_trans (state a) (state a') /\
                          sir_le (state a) (state a') = true /\
                          (state a = R_ -> state a' = R_) /\
                          (state a = I_ -> state a' <> S_))
       (agents network)
       (agents (fst (fst (simulateSteps calls network rnd p))))).
Proof.
  split.
  - intros network sr rr iter rnd p mid network'.
    destruct (simulateStep_after_spread network sr rr iter rnd p) as (Hs & Hr & Htie).
    assert (Forall2 recover_rel mid (agents network')) as Hr'.
    { eapply Forall2_impl; [exact Hr|]. apply recovered_only_recover_rel. }
    split; [done|]. split; [done|]. split; [done|].
    intros i a a' Ha Ha' HS HR.
    destruct (Forall2_lookup_l _ _ _ _ _ Hs Ha) as (m & Hm & _ & Hsm).
    destruct (Forall2_lookup_l _ _ _ _ _ Hr' Hm) as (a'' & Ha'' & _ & Hma).
    fold network' in Ha''. rewrite Ha' in Ha''. injection Ha'' as <-.
    exists m. split; [done|].
    destruct Hsm as [Hsm|[_ Hsm]]; [|done].
    destruct Hma as [Hma|[Hma _]]; congruence.
  - intros. eapply Forall2_impl; [apply simulateSteps_monotone|].
    intros a a' [Hid Hle]. split; [done|]. split; [by apply sir_le_rtc|].
    split; [done|]. split; intros Hst; rewrite Hst in Hle; by destruct (state a').
Qed.

(** In [chain_net] with [recoveryRate = 1] the agents 1 and 2 are
    Susceptible before the call and Recovered after it: the spread phase
    infects them and the recovery loop of the same call recovers them. *)
Example susceptible_infected_recovered_in_one_call :
  map state (agents chain_net) = [I_; S_; S_] /\
  map state (after_spread chain_net 1 1 zero_rnd 0) = [I_; I_; I_] /\
  map state (agents (fst (fst (simulateStep chain_net 1 1 1 zero_rnd 0)))) = [R_; R_; R_].
Proof. repeat split; reflexivity. Qed.

(** C5.  When the draws of the seeding loop give [min(count, numAgents)]
    distinct ids within [fuel] iterations, the loop ends and
    [seedInfected] returns.  The agents it leaves are the agents reset
    (Susceptible, [infectedByLayer = none], [infectedCount] zeros of the
    length of the layer list) in which the distinct positions [chosen]
    are then set to Infected: the layers and the agent ids are unchanged,
    every agent has [infectedByLayer = none] and a zero [infectedCount],
    exactly [min(count, numAgents)] agents are Infected (none for a
    negative count) and all the others are Susceptible. *)
Theorem seedInfected_spec fuel network count rnd p :
  (Z.min count (Z.of_nat (length (agents network)))
   <= Z.of_nat (length (remove_dups
                  (seed_draws (length (agents network)) rnd p fuel))))%Z ->
  exists network' p' chosen,
    seedInfected fuel network count rnd p = (Some network', p') /\
    layers network' = layers network /\
    agents network' =
      mark_seeds chosen
        (map (reset_agent (length (layers network))) (agents network)) /\
    NoDup chosen /\
    length chosen = Z.to_nat (Z.min count (Z.of_nat (length (agents network)))) /\
    Forall2 (fun a a' =>
               id a' = id a /\
               (state a' = S_ \/ state a' = I_) /\
               infectedByLayer a' = None /\
               infectedCount a' = replicate (length (layers network)) 0)
            (agents network) (agents network') /\
    getStats network' =
      mkStats (length (agents network)
               - Z.to_nat (Z.min count (Z.of_nat (length (agents network)))))
              (Z.to_nat (Z.min count (Z.of_nat (length (agents network)))))
              0.
Proof.
  intros Hdraws.
  destruct (choose_seeds_terminates fuel (length (agents network))
              (Z.min count (Z.of_nat (length (agents network)))) [] rnd p)
    as (chosen & p' & Hloop); [apply NoDup_nil_2|exact Hdraws|].
  assert (seedInfected fuel network count rnd p =
          (Some (mkNetwork
                   (mark_seeds chosen
                      (map (reset_agent (length (layers network))) (agents network)))
                   (layers network)), p')) as Hrun.
  { unfold seedInfected, rbind. rewrite length_map, Hloop. done. }
  eexists _, _, chosen. split; [exact Hrun|]. split; [done|]. split; [done|].
  apply choose_seeds_spec in Hloop as (Hnd & Hlt & Hlen);
    [|lia|apply NoDup_nil_2|by intros x ?%elem_of_nil].
  cbn [agents length] in *. split; [done|]. split; [lia|].
  set (ags := mark_seeds chosen _) in *.
  assert (length ags = length (agents network)) as Hl
    by (unfold ags; by rewrite mark_seeds_length, length_map).
  split.
  - apply Forall2_same_length_lookup. split; [done|].
    intros i a a' Ha Ha'.
    destruct (seeded_agent _ _ _ _ _ _ _ i a' Hrun Ha') as (a0 & Ha0 & H).
    rewrite Ha in Ha0. by injection Ha0 as <-.
  - rewrite getStats_spec. cbn [agents].
    assert (num_in I_ ags = length chosen) as HI.
    { apply mark_seeds_num_infected; [done|by rewrite length_map|].
      by intros a [a0 [-> _]]%list_elem_of_fmap. }
    assert (num_in R_ ags = 0) as HR.
    { apply num_in_absent. intros a' [i Ha']%list_elem_of_lookup.
      destruct (seeded_agent _ _ _ _ _ _ _ i a' Hrun Ha') as (a0 & _ & _ & [H|H] & _);
        congruence. }
    pose proof (num_in_total ags) as Htot.
    f_equal; lia.
Qed.

Lemma seedInfected_spec_witness :
  exists network' p',
    seedInfected 3 used_net 5 (cycle_rnd 3) 0 = (Some network', p') /\
    getStats network' = mkStats 0 3 0.
Proof.
  destruct (seedInfected_spec 3 used_net 5 (cycle_rnd 3) 0)
    as (network' & p' & chosen & Hrun & _ & _ & _ & _ & _ & Hstats).
  - vm_compute. discriminate.
  - exists network', p'. split; [exact Hrun|exact Hstats].
Defined.

(** C6.  The edges of a layer, whatever its topology, come in matched
    pairs: [(u, v, w)] is an edge exactly when [(v, u, w)] is one, with
    the same weight; and every weight lies between 0.3 and 1.0. *)
Theorem edges_matched_and_weighted idx numAgents config rnd p :
  let es := edges (fst (buildLayer idx numAgents config rnd p)) in
  (forall u v w, mkEdge u v w ∈ es <-> mkEdge v u w ∈ es) /\
  (forall e, e ∈ es -> (3 # 10 <= weight e)%Q /\ (weight e <= 1)%Q).
Proof.
  unfold buildLayer, rbind. destruct (topology config).
  - pose proof (buildRandomLayer_ok numAgents (connectivity config) rnd p) as H.
    destruct (buildRandomLayer _ _ _ _) as [es p']. exact H.
  - pose proof (buildSmallWorldLayer_ok numAgents (connectivity config) rnd p) as H.
    destruct (buildSmallWorldLayer _ _ _ _) as [es p']. exact H.
  - pose proof (buildScaleFreeLayer_ok numAgents (connectivity config) rnd p) as H.
    destruct (buildScaleFreeLayer _ _ _ _) as [es p']. exact H.
Qed.

(** C7.  The adjacency matrix that the small-world generator has after
    rewiring has no entry [(i, i)]; the edge list is read off that matrix,
    has no edge from a node to itself and contains no directed pair
    [(source, target)] twice, so that every undirected connection is one
    matched pair. *)
Theorem smallworld_simple numAgents connectivity rnd p :
  let k := smallworld_k numAgents connectivity in
  let rewired := rewire numAgents k (ring_lattice numAgents k) rnd p in
  let es := fst (buildSmallWorldLayer numAgents connectivity rnd p) in
  (forall i, adj_get (fst rewired) i i = false) /\
  buildSmallWorldLayer numAgents connectivity rnd p
    = edgesOfAdj numAgents (fst rewired) rnd (snd rewired) /\
  (forall e, e ∈ es -> source e <> target e) /\
  NoDup (map (fun e => (source e, target e)) es).
Proof.
  intros k rewired es. split; [|split].
  - apply rewire_diag_free, ring_lattice_diag_free, smallworld_k_le.
  - unfold buildSmallWorldLayer, rbind. fold k. fold rewired. by destruct rewired.
  - unfold es, buildSmallWorldLayer, rbind. fold k.
    destruct (rewire _ _ _ _ _) as [adj p']. apply edgesOfAdj_simple.
Qed.

(** C8.  For 0 or 1 agents each of the three generators returns the empty
    edge list, for every connectivity, consuming no draw; the generators
    are total functions, so nothing is raised. *)
Theorem degenerate_sizes_no_edges connectivity rnd p :
  buildRandomLayer 0 connectivity rnd p = ([], p) /\
  buildRandomLayer 1 connectivity rnd p = ([], p) /\
  buildSmallWorldLayer 0 connectivity rnd p = ([], p) /\
  buildSmallWorldLayer 1 connectivity rnd p = ([], p) /\
  buildScaleFreeLayer 0 connectivity rnd p = ([], p) /\
  buildScaleFreeLayer 1 connectivity rnd p = ([], p) /\
  forall idx config,
    edges (fst (buildLayer idx 0 config rnd p)) = [] /\
    edges (fst (buildLayer idx 1 config rnd p)) = [].
Proof.
  repeat split;
    try (apply buildRandomLayer_degenerate; lia);
    try (apply buildSmallWorldLayer_degenerate; lia);
    try (apply buildScaleFreeLayer_degenerate; lia);
    unfold buildLayer, rbind; destruct (topology config);
    rewrite ?buildRandomLayer_degenerate, ?buildSmallWorldLayer_degenerate,
            ?buildScaleFreeLayer_degenerate by lia; done.
Qed.

(** C9.  A run (build the network, seed it, step it) is a function of the
    draws that it consumes: on two streams of draws that agree on the
    positions consumed, the same parameters and the same calls give the
    same final network (agents and layers), the same active-layer set of
    every step, and consume the same number of draws. *)
Theorem run_deterministic fuel numAgents layerConfigs count calls rnd1 rnd2 p :
  agree rnd1 rnd2 p (snd (run fuel numAgents layerConfigs count calls rnd1 p)) ->
  run fuel numAgents layerConfigs count calls rnd2 p
  = run fuel numAgents layerConfigs count calls rnd1 p.
Proof.
  intros H. by apply (rlocal_run fuel numAgents layerConfigs count calls rnd1 p).
Qed.

Lemma run_deterministic_witness :
  cut_rnd 34 (cycle_rnd 5) 40 <> cycle_rnd 5 40 /\
  run 10 4 sample_configs 2 sample_calls (cut_rnd 34 (cycle_rnd 5)) 0
  = run 10 4 sample_configs 2 sample_calls (cycle_rnd 5) 0.
Proof.
  split; [vm_compute; discriminate|].
  apply run_deterministic.
  assert (snd (run 10 4 sample_configs 2 sample_calls (cycle_rnd 5) 0) = 34) as ->
    by (vm_compute; reflexivity).
  intros i Hi. unfold cut_rnd. destruct (Nat.ltb_spec i 34); [reflexivity|lia].
Defined.

(** C10.  After a [seedInfected] call that returns, and after every
    sequence of [simulateStep] calls that follows it, every Susceptible
    agent has [infectedByLayer = none], and the sum of all [infectedCount]
    entries is the number of agents with an [infectedByLayer]. *)
Theorem seeded_invariant fuel network count rnd p network' p' calls rnd' q :
  seedInfected fuel network count rnd p = (Some network', p') ->
  let final := agents (fst (fst (simulateSteps calls network' rnd' q))) in
  (forall a, a ∈ final -> state a = S_ -> infectedByLayer a = None) /\
  sum_list_with (fun a => sum_list (infectedCount a)) final
  = length (filter (fun a => attributed a = true) final).
Proof.
  intros Hseed. apply simulateSteps_seeded_inv.
  by eapply seedInfected_seeded_inv.
Qed.

Lemma seeded_invariant_witness :
  exists network',
    fst (seedInfected 3 used_net 1 (cycle_rnd 3) 0) = Some network' /\
    let final := agents (fst (fst (simulateSteps sure_calls network' zero_rnd 0))) in
    map state final = [I_; I_; I_] /\
    (forall a, a ∈ final -> state a = S_ -> infectedByLayer a = None) /\
    sum_list_with (fun a => sum_list (infectedCount a)) final
    = length (filter (fun a => attributed a = true) final).
Proof.
  eexists. split; [reflexivity|]. split; [reflexivity|].
  exact (seeded_invariant 3 used_net 1 (cycle_rnd 3) 0 _ _ sure_calls zero_rnd 0 eq_refl).
Defined.

(* ===================================================================== *)
(** ** Further properties of the engine *)

(** X1.  The three counts of [getStats] add up to the number of agents. *)
Theorem getStats_total network :
  susceptible (getStats network) + infected (getStats network)
  + recovered (getStats network) = length (agents network).
Proof. rewrite getStats_spec. cbn. apply num_in_total. Qed.

(** X2.  [buildNetwork] returns [numAgents] agents, the agent at position
    [i] with id [i], Susceptible, with no [infectedByLayer] and one zero
    counter per configuration; and one layer per configuration, in their
    order, the layer at position [i] with id [i] and the connectivity and
    the frequency of the configuration at [i]. *)
Theorem buildNetwork_structure numAgents layerConfigs rnd p :
  let network := fst (buildNetwork numAgents layerConfigs rnd p) in
  length (agents network) = numAgents /\
  (forall i a, agents network !! i = Some a ->
     a = mkAgent i S_ None (replicate (length layerConfigs) 0)) /\
  length (layers network) = length layerConfigs /\
  (forall i l, layers network !! i = Some l ->
     exists cfg, layerConfigs !! i = Some cfg /\
       layer_id l = i /\ layer_connectivity l = connectivity cfg /\
       frequency l = cfg_frequency cfg) /\
  getStats network = mkStats numAgents 0 0.
Proof.
  intros network. unfold network. rewrite buildNetwork_eq. cbn [agents layers].
  assert (length (map (fresh_agent (length layerConfigs)) (range 0 numAgents)) = numAgents)
    as Hlen by (unfold range; by rewrite length_map, length_seq, Nat.sub_0_r).
  split; [done|]. split; [|split; [|split]].
  - by intros i a [-> _]%fresh_agents_lookup.
  - apply buildLayers_length.
  - intros i l Hl. apply buildLayers_lookup in Hl as (cfg & q & Hc & ->).
    exists cfg. split; [done|]. apply buildLayer_fields.
  - rewrite getStats_spec. cbn [agents].
    set (ags := map _ _) in *.
    assert (forall a, a ∈ ags -> state a = S_) as HS
      by (by intros a [i [-> _]]%list_elem_of_fmap).
    pose proof (num_in_total ags) as Htot.
    rewrite (num_in_none I_), (num_in_none R_) in * by done.
    f_equal. lia.
Qed.

(** X3.  The edges of a generated layer, whatever its topology, join two
    different agents of the network, no directed pair occurs twice, and
    there are at most [numAgents * (numAgents - 1)] of them. *)
Theorem generated_edges_simple idx numAgents config rnd p :
  let es := edges (fst (buildLayer idx numAgents config rnd p)) in
  (forall e, e ∈ es ->
     source e < numAgents /\ target e < numAgents /\ source e <> target e) /\
  NoDup (map (fun e => (source e, target e)) es) /\
  length es <= numAgents * (numAgents - 1).
Proof.
  intros es. destruct (buildLayer_simple idx numAgents config rnd p) as [Hr [Hall Hnd]].
  fold es in Hr, Hall, Hnd.
  assert (no_self_loop es) as Hs.
  { intros e He. rewrite Forall_forall in Hall. by destruct (Hall e He). }
  split; [|split; [exact Hnd|by apply simple_edges_bound]].
  intros e He. destruct (Hr e He). split; [done|]. split; [done|by apply Hs].
Qed.

(** X4.  In a network built by [buildNetwork] the agent at position [i]
    has id [i], the layer at position [i] has id [i] and every edge joins
    agents of the network; [seedInfected] and [simulateStep] keep a
    network so; and on such a network [simulateStep] does not throw. *)
Theorem wellformed_never_throws :
  (forall numAgents layerConfigs rnd p,
     wf_network (fst (buildNetwork numAgents layerConfigs rnd p))) /\
  (forall fuel network count rnd p network' p',
     wf_network network ->
     seedInfected fuel network count rnd p = (Some network', p') ->
     wf_network network') /\
  (forall network sr rr iter rnd p,
     wf_network network ->
     wf_network (fst (fst (simulateStep network sr rr iter rnd p))) /\
     exists activeLayers,
       snd (fst (simulateStep network sr rr iter rnd p)) = Some activeLayers).
Proof.
  split; [apply buildNetwork_wf|]. split.
  - intros. by eapply seedInfected_wf.
  - intros network sr rr iter rnd p Hwf. split; [by apply simulateStep_wf|].
    by apply simulateStep_safe.
Qed.

(** X5.  Every [infectedCount] has as many entries as the network has
    layers: in a network built by [buildNetwork], after every
    [seedInfected], and after a [simulateStep] on a network whose layer
    ids are their positions. *)
Theorem infectedCount_sized :
  (forall numAgents layerConfigs rnd p,
     counts_sized (fst (buildNetwork numAgents layerConfigs rnd p))) /\
  (forall fuel network count rnd p network' p',
     seedInfected fuel network count rnd p = (Some network', p') ->
     counts_sized network') /\
  (forall network sr rr iter rnd p,
     wf_network network -> counts_sized network ->
     counts_sized (fst (fst (simulateStep network sr rr iter rnd p)))).
Proof.
  split; [apply buildNetwork_counts_sized|]. split.
  - intros. by eapply seedInfected_counts_sized.
  - intros. by apply simulateStep_counts_sized.
Qed.

(** X6.  With [recoveryRate >= 1], after a [simulateStep] that does not
    throw no agent is Infected: also the agents infected in the call have
    recovered. *)
Theorem recovery_rate_one network sr rr iter rnd p activeLayers :
  (1 <= rr)%Q ->
  snd (fst (simulateStep network sr rr iter rnd p)) = Some activeLayers ->
  infected (getStats (fst (fst (simulateStep network sr rr iter rnd p)))) = 0.
Proof.
  intros Hrr. rewrite getStats_spec. cbn [infected].
  destruct (simulateStep_cases network sr rr iter rnd p)
    as [->|(A & st & r & _ & [[_ ->]|[_ ->]])]; [done|done|].
  intros _. cbn [fst agents]. by apply recovery_phase_all.
Qed.

Lemma recovery_rate_one_witness :
  snd (fst (simulateStep chain_net 1 1 1 zero_rnd 0)) = Some [0; 1] /\
  infected (getStats (fst (fst (simulateStep chain_net 1 1 1 zero_rnd 0)))) = 0.
Proof.
  split; [reflexivity|].
  apply (recovery_rate_one chain_net 1 1 1 zero_rnd 0 [0; 1]); [|reflexivity].
  vm_compute. discriminate.
Defined.

(** X7.  With [recoveryRate <= 0] nobody recovers in a [simulateStep]:
    every agent keeps its state or goes from Susceptible to Infected, and
    the number of Recovered agents is unchanged. *)
Theorem recovery_rate_zero network sr rr iter rnd p :
  (rr <= 0)%Q ->
  Forall2 spread_rel (agents network)
    (agents (fst (fst (simulateStep network sr rr iter rnd p)))) /\
  recovered (getStats (fst (fst (simulateStep network sr rr iter rnd p))))
  = recovered (getStats network).
Proof.
  intros Hrr.
  assert (Forall2 spread_rel (agents network)
            (agents (fst (fst (simulateStep network sr rr iter rnd p))))) as H.
  { destruct (simulateStep_cases network sr rr iter rnd p)
      as [->|(A & st & r & Hsp & Hres)].
    - apply Forall_Forall2_diag, Forall_forall. intros a _. split; auto.
    - pose proof (spread_phase_spread_rel A sr iter (layers network) rnd
                    (mkSt (agents network) [] p)) as Hs.
      rewrite Hsp in Hs. cbn [fst st_agents] in Hs.
      destruct Hres as [[_ ->]|[_ ->]]; cbn [fst agents]; [done|].
      by rewrite recovery_phase_none. }
  split; [exact H|]. rewrite !getStats_spec. cbn [recovered].
  unfold num_in. induction H as [|a a' ags ags' [_ Hst] _ IH]; [done|].
  rewrite !filter_cons.
  destruct Hst as [Hst|[H1 H2]]; repeat case_decide; try congruence;
    cbn [length]; by rewrite IH.
Qed.

Lemma recovery_rate_zero_witness :
  recovered (getStats (fst (fst (simulateStep used_net 1 0 1 zero_rnd 0))))
  = recovered (getStats used_net).
Proof.
  apply (recovery_rate_zero used_net 1 0 1 zero_rnd 0). vm_compute. discriminate.
Defined.

(** X8.  With [spreadRate = 0] a [simulateStep] infects nobody: every
    agent is left as it is or goes from Infected to Recovered, and the
    returned set is empty. *)
Theorem spread_rate_zero network sr rr iter rnd p :
  (sr == 0)%Q ->
  Forall2 recovered_only (agents network)
    (agents (fst (fst (simulateStep network sr rr iter rnd p)))) /\
  forall activeLayers,
    snd (fst (simulateStep network sr rr iter rnd p)) = Some activeLayers ->
    activeLayers = [].
Proof.
  intros Hsr.
  destruct (simulateStep_cases network sr rr iter rnd p)
    as [->|(A & st & r & Hsp & Hres)].
  - split; [|done]. apply Forall_Forall2_diag, Forall_forall. intros a _. by left.
  - destruct (spread_phase_zero A sr iter (layers network) rnd
                (mkSt (agents network) [] p) Hsr) as [Hags Hact].
    rewrite Hsp in Hags, Hact. cbn [fst st_agents st_active] in Hags, Hact.
    destruct Hres as [[_ ->]|[_ ->]]; cbn [fst snd agents].
    + split; [|done]. rewrite Hags.
      apply Forall_Forall2_diag, Forall_forall. intros a _. by left.
    + split; [|intros act [= <-]; exact Hact].
      rewrite Hags. apply recovery_phase_recovered_only.
Qed.

Lemma spread_rate_zero_witness :
  snd (fst (simulateStep chain_net 0 (1 # 2) 1 zero_rnd 0)) = Some [].
Proof.
  destruct (snd (fst (simulateStep chain_net 0 (1 # 2) 1 zero_rnd 0))) as [act|] eqn:E;
    [|vm_compute in E; discriminate].
  f_equal. apply (proj2 (spread_rate_zero chain_net 0 (1 # 2) 1 zero_rnd 0 (Qeq_refl 0)) act E).
Defined.

(** X9.  When no agent is Infected, a [simulateStep] changes nothing and
    consumes no draw; it returns the empty set, or throws while it builds
    the lookup of a layer with an edge from outside the network. *)
Theorem no_infected_no_change network sr rr iter rnd p :
  (forall a, a ∈ agents network -> state a <> I_) ->
  simulateStep network sr rr iter rnd p = ((network, Some []), p) \/
  simulateStep network sr rr iter rnd p = ((network, None), p).
Proof.
  intros H. unfold simulateStep.
  destruct (mapM _ _) as [A|]; [left|by right].
  rewrite spread_phase_none by done. cbn [st_agents st_pos st_active].
  rewrite recovery_phase_no_infected by done. by destruct network.
Qed.

Lemma no_infected_no_change_witness :
  simulateStep over_net 1 1 5 zero_rnd 7 = ((over_net, Some []), 7).
Proof.
  destruct (no_infected_no_change over_net 1 1 5 zero_rnd 7) as [H|H].
  - intros a Ha. apply list_elem_of_In in Ha.
    destruct Ha as [<-|[<-|[<-|[]]]]; discriminate.
  - exact H.
  - vm_compute in H. discriminate.
Defined.

(** X10.  A layer id is in the set returned by [simulateStep] exactly
    when the call has raised a counter [infectedCount[id]] of some agent,
    that is when an infection of the call is counted for that layer; no
    counter goes down. *)
Theorem active_layers_exact network sr rr iter rnd p activeLayers :
  snd (fst (simulateStep network sr rr iter rnd p)) = Some activeLayers ->
  forall L,
    layer_total L (agents network)
    <= layer_total L (agents (fst (fst (simulateStep network sr rr iter rnd p)))) /\
    (L ∈ activeLayers <->
     layer_total L (agents network)
     < layer_total L (agents (fst (fst (simulateStep network sr rr iter rnd p))))).
Proof.
  intros Hres L.
  destruct (simulateStep_active_inv network sr rr iter rnd p) as (act & [_ Hinv] & Hact).
  rewrite (Hact _ Hres). apply Hinv.
Qed.

Lemma active_layers_exact_witness :
  (1 ∈ [0; 1] <->
   layer_total 1 (agents chain_net)
   < layer_total 1 (agents (fst (fst (simulateStep chain_net 1 0 1 zero_rnd 0))))).
Proof.
  exact (proj2 (active_layers_exact chain_net 1 0 1 zero_rnd 0 [0; 1] eq_refl 1)).
Defined.

(** X11.  Along any sequence of [simulateStep] calls the number of
    Susceptible agents of [getStats] does not grow and the number of
    Recovered agents does not shrink. *)
Theorem stats_monotone calls network rnd p :
  let network' := fst (fst (simulateSteps calls network rnd p)) in
  susceptible (getStats network') <= susceptible (getStats network) /\
  recovered (getStats network) <= recovered (getStats network').
Proof.
  intros network'. rewrite !getStats_spec. cbn [susceptible recovered].
  apply monotone_stats, simulateSteps_monotone.
Qed.

(** X12.  [seedInfected] forgets the epidemic: on the network that a
    sequence of [simulateStep] calls has left it does what it does on the
    network before these calls. *)
Theorem reseed_forgets fuel calls network count rnd p rnd' q :
  seedInfected fuel (fst (fst (simulateSteps calls network rnd' q))) count rnd p
  = seedInfected fuel network count rnd p.
Proof.
  apply seedInfected_ids.
  - symmetry. apply monotone_ids, simulateSteps_monotone.
  - apply simulateSteps_layers.
Qed.

(** X13.  With [count <= 0], or without agents, [seedInfected] enters its
    loop not once: it returns the agents reset, all Susceptible, and
    consumes no draw. *)
Theorem seedInfected_nothing fuel network count rnd p :
  (count <= 0)%Z \/ agents network = [] ->
  seedInfected fuel network count rnd p =
  (Some (mkNetwork (map (reset_agent (length (layers network))) (agents network))
                   (layers network)), p).
Proof.
  intros H. unfold seedInfected, rbind. rewrite length_map.
  assert (Z.min count (Z.of_nat (length (agents network))) <= 0)%Z as Hmin.
  { destruct H as [H| ->]; [lia|cbn; lia]. }
  destruct fuel; cbn [choose_seeds length];
    destruct (Z.ltb_spec (Z.of_nat 0) (Z.min count (Z.of_nat (length (agents network)))));
    try lia; done.
Qed.

Lemma seedInfected_nothing_witness :
  seedInfected 0 used_net (-3) zero_rnd 4 =
  (Some (mkNetwork [mkAgent 0 S_ None [0]; mkAgent 1 S_ None [0]; mkAgent 2 S_ None [0]]
                   (layers used_net)), 4).
Proof. apply (seedInfected_nothing 0 used_net (-3) zero_rnd 4). left. lia. Defined.

(** X14.  With [connectivity <= 0] a random layer has no edge. *)
Theorem random_layer_empty numAgents connectivity rnd p :
  (connectivity <= 0)%Q ->
  fst (buildRandomLayer numAgents connectivity rnd p) = [].
Proof. apply buildRandomLayer_none. Qed.

Lemma random_layer_empty_witness :
  fst (buildRandomLayer 4 0 (cycle_rnd 3) 0) = [].
Proof. apply (random_layer_empty 4 0 (cycle_rnd 3) 0). vm_compute. discriminate. Defined.

(** X15.  With [connectivity >= 1] a random layer is complete: every two
    different agents are joined, in both directions with one weight. *)
Theorem random_layer_complete numAgents connectivity rnd p u v :
  (1 <= connectivity)%Q ->
  u < numAgents -> v < numAgents -> u <> v ->
  exists w,
    mkEdge u v w ∈ fst (buildRandomLayer numAgents connectivity rnd p) /\
    mkEdge v u w ∈ fst (buildRandomLayer numAgents connectivity rnd p).
Proof.
  intros Hc Hu Hv Huv.
  pose proof (buildRandomLayer_all numAgents connectivity rnd p Hc) as H.
  destruct (Nat.lt_total u v) as [Hlt|[->|Hlt]]; [|done|].
  - apply H; lia.
  - destruct (H v u) as (w & H1 & H2); [lia|lia|]. by exists w.
Qed.

Lemma random_layer_complete_witness :
  exists w,
    mkEdge 3 1 w ∈ fst (buildRandomLayer 4 1 (cycle_rnd 3) 0) /\
    mkEdge 1 3 w ∈ fst (buildRandomLayer 4 1 (cycle_rnd 3) 0).
Proof.
  apply (random_layer_complete 4 1 (cycle_rnd 3) 0 3 1); [|lia|lia|lia].
  vm_compute. discriminate.
Defined.

(** X16.  With two agents, as with fewer, the small-world generator
    returns no edge and consumes no draw: its neighbor loops run for
    [m <= k / 2] with [k] at most [numAgents - 1]. *)
Theorem smallworld_two_agents numAgents connectivity rnd p :
  numAgents <= 2 ->
  buildSmallWorldLayer numAgents connectivity rnd p = ([], p).
Proof. apply buildSmallWorldLayer_two. Qed.

Lemma smallworld_two_agents_witness :
  buildSmallWorldLayer 2 1 (cycle_rnd 3) 5 = ([], 5).
Proof. apply (smallworld_two_agents 2 1 (cycle_rnd 3) 5). lia. Defined.

(** X17.  The first [initNodes = min(m + 1, numAgents)] agents of a
    scale-free layer form a clique: every two of them are joined, in both
    directions with one weight. *)
Theorem scalefree_clique numAgents connectivity rnd p u v :
  u < v < scalefree_initNodes numAgents (scalefree_m connectivity) ->
  exists w,
    mkEdge u v w ∈ fst (buildScaleFreeLayer numAgents connectivity rnd p) /\
    mkEdge v u w ∈ fst (buildScaleFreeLayer numAgents connectivity rnd p).
Proof.
  intros Huv.
  assert (2 <= numAgents) as Hn by (unfold scalefree_initNodes in Huv; lia).
  destruct (buildScaleFreeLayer_adj numAgents connectivity rnd p Hn)
    as (adj & q & -> & Hinit & Hclique & _).
  apply (edgesOfAdj_complete numAgents adj rnd q u v); [lia|left; lia|].
  by apply Hclique.
Qed.

Lemma scalefree_clique_witness :
  exists w,
    mkEdge 0 2 w ∈ fst (buildScaleFreeLayer 5 (2 # 3) (cycle_rnd 3) 0) /\
    mkEdge 2 0 w ∈ fst (buildScaleFreeLayer 5 (2 # 3) (cycle_rnd 3) 0).
Proof.
  apply (scalefree_clique 5 (2 # 3) (cycle_rnd 3) 0 0 2). vm_compute. lia.
Defined.

(** X18.  In a scale-free layer of at least two agents no agent is
    isolated: every agent is the source of an edge. *)
Theorem scalefree_no_isolated numAgents connectivity rnd p v :
  2 <= numAgents -> v < numAgents ->
  exists e, e ∈ fst (buildScaleFreeLayer numAgents connectivity rnd p) /\ source e = v.
Proof.
  intros Hn Hv.
  destruct (buildScaleFreeLayer_adj numAgents connectivity rnd p Hn)
    as (adj & q & -> & Hinit & Hclique & Hnb).
  pose proof (edgesOfAdj_complete numAgents adj rnd q) as Hdone.
  destruct (Nat.lt_ge_cases v (scalefree_initNodes numAgents (scalefree_m connectivity)))
    as [Hlt|Hge].
  - destruct v as [|v].
    + destruct (Hdone 0 1) as (w & H1 & _); [lia|left; lia|apply Hclique; lia|].
      by exists (mkEdge 0 1 w).
    + destruct (Hdone 0 (S v)) as (w & _ & H2); [lia|left; lia|apply Hclique; lia|].
      by exists (mkEdge (S v) 0 w).
  - destruct (Hnb v) as (u & Hu & Hadj); [lia|].
    destruct (Hdone u v) as (w & _ & H2); [lia|left; lia|done|].
    by exists (mkEdge v u w).
Qed.

Lemma scalefree_no_isolated_witness :
  exists e, e ∈ fst (buildScaleFreeLayer 5 (1 # 3) zero_rnd 0) /\ source e = 4.
Proof. apply (scalefree_no_isolated 5 (1 # 3) zero_rnd 0 4); lia. Defined.

(** X19.  A run, that is [buildNetwork], [seedInfected] and any sequence
    of [simulateStep] calls, throws in none of its calls. *)
Theorem run_never_throws fuel numAgents layerConfigs count calls rnd p network results q :
  run fuel numAgents layerConfigs count calls rnd p = (Some (network, results), q) ->
  length results = length calls /\
  forall r, r ∈ results -> exists activeLayers, r = Some activeLayers.
Proof.
  unfold run, rbind.
  pose proof (buildNetwork_wf numAgents layerConfigs rnd p) as Hwf.
  destruct (buildNetwork numAgents layerConfigs rnd p) as [net0 p0]. cbn [fst] in Hwf.
  destruct (seedInfected fuel net0 count rnd p0) as [[net1|] p1] eqn:Hseed; [|done].
  apply seedInfected_wf in Hseed; [|done].
  destruct (simulateSteps_wf calls net1 rnd p1 Hseed) as [_ Hall].
  pose proof (simulateSteps_length calls net1 rnd p1) as Hlen.
  destruct (simulateSteps calls net1 rnd p1) as [[net2 rs] p2]. cbn [fst snd] in *.
  intros [= <- <- <-]. split; [done|].
  intros r Hr. rewrite Forall_forall in Hall. by apply Hall.
Qed.

Lemma run_never_throws_witness :
  exists network results q,
    run 8 4 sample_configs 2 sample_calls (cycle_rnd 3) 0 = (Some (network, results), q) /\
    length results = 2.
Proof.
  destruct (run 8 4 sample_configs 2 sample_calls (cycle_rnd 3) 0)
    as [[[network results]|] q] eqn:E; [|vm_compute in E; discriminate].
  exists network, results, q. split; [done|].
  exact (proj1 (run_never_throws 8 4 sample_configs 2 sample_calls (cycle_rnd 3) 0
                  network results q E)).
Defined.

(** X20.  [generateNetwork] of the page builds [state.numAgents] agents
    and [state.numLayers] layers; layer [i] has the connectivity and the
    frequency of its row, or 0.3 and 1 where the row is missing or holds
    0, so that no layer has frequency 0; the network has ids equal to
    positions, edges between its agents and one counter per layer. *)
Theorem generateNetwork_spec fuel state rnd p network q :
  Playground.generateNetwork fuel state rnd p = (Some network, q) ->
  length (agents network) = Playground.numAgents state /\
  length (layers network) = Playground.numLayers state /\
  wf_network network /\ counts_sized network /\
  forall i l, layers network !! i = Some l ->
    layer_connectivity l
      = Playground.connectivity_or (Playground.layerConnectivity state !! i) /\
    frequency l = Playground.frequency_or (Playground.layerFrequency state !! i) /\
    ~ (layer_connectivity l == 0)%Q /\ frequency l <> 0%Z.
Proof.
  intros Hrun.
  destruct (generateNetwork_layers fuel state rnd p network q Hrun)
    as (Ha & Hl & Hwf & Hc & Hls).
  split; [done|]. split; [done|]. split; [done|]. split; [done|].
  intros i l Hi. destruct (Hls i l Hi) as [-> ->].
  split; [done|]. split; [done|]. split.
  - apply connectivity_or_nonzero.
  - apply frequency_or_nonzero.
Qed.

Lemma generateNetwork_spec_witness :
  exists network q,
    Playground.generateNetwork 8 sample_state (cycle_rnd 3) 5 = (Some network, q) /\
    length (layers network) = 3.
Proof.
  destruct (Playground.generateNetwork 8 sample_state (cycle_rnd 3) 5)
    as [[network|] q] eqn:E; [|vm_compute in E; discriminate].
  exists network, q. split; [done|].
  exact (proj1 (proj2 (generateNetwork_spec 8 sample_state (cycle_rnd 3) 5 network q E))).
Defined.



(** X22.  [endsWith(s, suffix)] holds exactly when [suffix] is not empty
    and [s] ends with it, or when both strings are empty: for the empty
    suffix [s.substr(-0)] is all of [s]. *)
Theorem endsWith_spec {C} `{EqDecision C} (s suffix : list C) :
  endsWith s suffix = true <->
  (suffix <> [] /\ exists pre, s = pre ++ suffix) \/ (suffix = [] /\ s = []).
Proof.
  unfold endsWith, substr_last. rewrite bool_decide_eq_true.
  destruct suffix as [|c suffix]; cbn [length Nat.eqb].
  - split; [intros ->; by right|]. by intros [[? _]|[_ ->]].
  - split.
    + intros H. left. split; [done|].
      exists (take (length s - S (length suffix)) s).
      rewrite <- H at 1. by rewrite take_drop.
    + intros [[_ [pre ->]]|[? _]]; [|done].
      rewrite length_app. cbn [length].
      replace (length pre + S (length suffix) - S (length suffix)) with (length pre) by lia.
      by rewrite drop_app_length.
Qed.

(** X23.  [getKeyFromValue] returns a key whose property is the value; it
    returns [undefined] exactly when no property is the value; and it
    returns the key [k] when [k] is the only key whose property is the
    value, which makes it the inverse of the lookup on an object with
    different values. *)
Theorem getKeyFromValue_spec {K V} `{EqDecision K, EqDecision V}
    (obj : list (K * V)) (value : V) :
  (forall k, getKeyFromValue obj value = Some k -> obj_get obj k = Some value) /\
  (getKeyFromValue obj value = None <-> forall k, obj_get obj k <> Some value) /\
  (forall k, obj_get obj k = Some value ->
     (forall k', obj_get obj k' = Some value -> k' = k) ->
     getKeyFromValue obj value = Some k).
Proof.
  assert (forall k, getKeyFromValue obj value = Some k -> obj_get obj k = Some value) as Hsome.
  { intros k Hk. apply find_some in Hk as [_ Hk]. by apply bool_decide_eq_true in Hk. }
  assert (getKeyFromValue obj value = None <-> forall k, obj_get obj k <> Some value) as Hnone.
  { split.
    - intros Hn k Hk. pose proof (obj_get_key obj k value Hk) as Hin.
      apply list_elem_of_In in Hin.
      pose proof (find_none _ _ Hn k Hin) as Hf. cbn in Hf.
      by apply bool_decide_eq_false in Hf.
    - intros Hall. destruct (getKeyFromValue obj value) as [k|] eqn:E; [|done].
      by destruct (Hall k (Hsome k eq_refl)). }
  split; [done|]. split; [done|].
  intros k Hk Huniq. destruct (getKeyFromValue obj value) as [k'|] eqn:E.
  - f_equal. apply Huniq, (Hsome k' eq_refl).
  - by destruct (proj1 Hnone eq_refl k).
Qed.

(** X24.  The layer controls of the page keep the layer rows in shape:
    the state the page starts from has between one and six layers, one
    connectivity and one frequency per layer, connectivities from 0.1 to
    1.0 and frequencies from 1 to 10; every click on a control keeps it
    so; and in such a state the four buttons of each layer row find the
    entry that they change. *)
Theorem controls_keep_rows :
  Playground.rows_inv Playground.initial_state /\
  (forall c state state',
     Playground.rows_inv state -> Playground.click c state = Some state' ->
     Playground.rows_inv state') /\
  (forall state layerIdx,
     Playground.rows_inv state -> layerIdx < Playground.numLayers state ->
     is_Some (Playground.click (Playground.ConnectivityDown layerIdx) state) /\
     is_Some (Playground.click (Playground.ConnectivityUp layerIdx) state) /\
     is_Some (Playground.click (Playground.FrequencyDown layerIdx) state) /\
     is_Some (Playground.click (Playground.FrequencyUp layerIdx) state)).
Proof.
  split; [|split; [apply click_rows_inv|apply click_row_some]].
  unfold Playground.rows_inv. cbn. split; [lia|]. split; [done|]. split; [done|].
  split; (constructor; [|done]); [split; lra|lia].
Qed.

(** X25.  With layer rows in that shape [generateNetwork] substitutes no
    default: layer [i] of the network has the connectivity and the
    frequency of row [i], a frequency from 1 to 10, so that from
    [iter = 1] on the layer fires exactly in the calls with
    [(iter - 1) mod frequency = 0]. *)
Theorem generated_rows fuel state rnd p network q i l :
  Playground.rows_inv state ->
  Playground.generateNetwork fuel state rnd p = (Some network, q) ->
  layers network !! i = Some l ->
  Playground.layerConnectivity state !! i = Some (layer_connectivity l) /\
  Playground.layerFrequency state !! i = Some (frequency l) /\
  (1 <= frequency l <= 10)%Z /\
  forall iter, (1 <= iter)%Z ->
    (fires iter (frequency l) = true <-> ((iter - 1) mod frequency l = 0)%Z).
Proof.
  intros Hinv Hrun Hl.
  destruct (generateNetwork_rows fuel state rnd p network q i l Hinv Hrun Hl) as [Hc Hf].
  destruct Hinv as (_ & _ & _ & _ & Hfs). rewrite Forall_lookup in Hfs.
  pose proof (Hfs i _ Hf) as Hr. cbn in Hr.
  split; [done|]. split; [done|]. split; [done|].
  intros iter Hi. apply fires_spec; lia.
Qed.

Lemma generated_rows_witness :
  exists network q l,
    Playground.generateNetwork 8 Playground.initial_state (cycle_rnd 3) 0
      = (Some network, q) /\
    layers network !! 0 = Some l /\ (1 <= frequency l <= 10)%Z.
Proof.
  destruct (Playground.generateNetwork 8 Playground.initial_state (cycle_rnd 3) 0)
    as [[network|] q] eqn:E; [|vm_compute in E; discriminate].
  destruct (layers network !! 0) as [l|] eqn:El.
  - exists network, q, l. split; [done|]. split; [done|].
    refine (proj1 (proj2 (proj2 (generated_rows 8 Playground.initial_state (cycle_rnd 3) 0
                                   network q 0 l _ E El)))).
    unfold Playground.rows_inv. cbn. split; [lia|]. split; [reflexivity|].
    split; [reflexivity|].
    split; (constructor; [|constructor]); [split; discriminate|lia].
  - exfalso. revert El. injection E as <- _. vm_compute. discriminate.
Defined.

(** X26.  When a layer has an edge whose source is no position of the
    agent array, [simulateStep] throws while it builds the lookups:
    whether the layer fires or not, no agent is changed and no draw is
    consumed. *)
Theorem bad_source_throws network sr rr iter rnd p l e :
  l ∈ layers network -> e ∈ edges l -> length (agents network) <= source e ->
  simulateStep network sr rr iter rnd p = ((network, None), p).
Proof.
  intros Hl He Hs. unfold simulateStep.
  destruct (mapM _ _) as [layerAdj|] eqn:E; [|done].
  assert (is_Some (mapM (fun layer => buildAdj (length (agents network)) (edges layer))
                        (layers network))) as Hsome by (by rewrite E).
  apply mapM_is_Some in Hsome. rewrite Forall_forall in Hsome.
  destruct (Hsome l Hl) as [adj Hadj]. cbn in Hadj.
  by rewrite (buildAdj_bad_source _ _ e He Hs) in Hadj.
Qed.

Lemma bad_source_throws_witness :
  simulateStep (mkNetwork [mkAgent 0 I_ None [0]; mkAgent 1 S_ None [0]]
                          [mkLayer 0 [mkEdge 0 1 1; mkEdge 2 0 1] 1 3])
               1 1 2 zero_rnd 4
  = ((mkNetwork [mkAgent 0 I_ None [0]; mkAgent 1 S_ None [0]]
                [mkLayer 0 [mkEdge 0 1 1; mkEdge 2 0 1] 1 3], None), 4).
Proof.
  apply (bad_source_throws _ 1 1 2 zero_rnd 4
           (mkLayer 0 [mkEdge 0 1 1; mkEdge 2 0 1] 1 3) (mkEdge 2 0 1)).
  - apply list_elem_of_In. simpl. by left.
  - apply list_elem_of_In. simpl. right. by left.
  - simpl. lia.
Defined.
